(** * jsonpath: a path-tracking JSON token decoder

    Shallow embedding of [decoder.go] and [path.go].

    The Go program keeps the live path in a slice ([d.path]) that is
    appended to, re-sliced and written in place, hands copies of it to
    callers ([Path]) and writes into a slice supplied by the caller
    ([SeekTo]).  The embedding therefore threads an explicit store of
    backing arrays: a slice is a header (array address, offset, length,
    capacity) and every path operation reads or writes the store.

    Run-time panics (index out of range, failed type assertion, the
    explicit [panic] of [inferContext]) are an outcome of their own.

    What the package takes from outside is kept abstract: the embedded
    [json.Decoder] is a run of tokens and errors, its value decoder a
    parameter, and so are the growth policy of [append] and the lookup
    of the registered actions.

    The file has the embedding first, then what is observed of a state
    (the live path, an abstract tracker on it), the lemmas that relate
    the methods on the store to that tracker, and the properties of
    [Token], [Decode], [Path], [SeekTo] and [Scan], each followed up at
    a concrete input at the end. *)

From Stdlib Require Import ZArith String List Lia.
From stdpp Require Import base tactics option list strings.

Local Open Scope nat_scope.

(** ** Go values *)

(** Go's [int] on a 64-bit platform: arithmetic wraps around. *)
Definition int_min : Z := (- 2 ^ 63)%Z.
Definition int_max : Z := (2 ^ 63 - 1)%Z.
Definition int_wrap (z : Z) : Z := ((z + 2 ^ 63) mod 2 ^ 64 - 2 ^ 63)%Z.

(** A value of type [interface{}] (and so a [json.Token] and an element
    of a [JsonPath]): a dynamic type together with a value of that type.
    [IOther] stands for any further dynamic type a caller may put into
    a path ([int64], [uint8], ...); compared with a string or an int,
    as the elements of the live path are, such a value is different
    whatever it is. *)
Inductive iface : Type :=
  | INil
  | IString (s : string)
  | IInt (i : Z)
  | IKeyString (s : string)
  | IDelim (r : Z)
  | IBool (b : bool)
  | IFloat64 (bits : Z)
  | INumber (s : string)
  | IOther (ty : string) (repr : string).

Inductive gotype : Type :=
  | TyNil | TyString | TyInt | TyKeyString | TyDelim | TyBool
  | TyFloat64 | TyNumber | TyOther (ty : string).

Definition type_of (v : iface) : gotype :=
  match v with
  | INil => TyNil
  | IString _ => TyString
  | IInt _ => TyInt
  | IKeyString _ => TyKeyString
  | IDelim _ => TyDelim
  | IBool _ => TyBool
  | IFloat64 _ => TyFloat64
  | INumber _ => TyNumber
  | IOther ty _ => TyOther ty
  end.

#[global] Instance iface_eq_dec : EqDecision iface.
Proof. solve_decision. Defined.

#[global] Instance gotype_eq_dec : EqDecision gotype.
Proof. solve_decision. Defined.

(** [a == b] on interface values: same dynamic type and same value.
    (Floats are compared on their bit pattern; no path comparison of
    this program has a float on both sides, a live path holding only
    strings and ints.) *)
Definition iface_eqb (a b : iface) : bool := bool_decide (a = b).

(** The delimiters of [json.Delim], a [rune]. *)
Definition lbrace : Z := 123.
Definition rbrace : Z := 125.
Definition lbrack : Z := 91.
Definition rbrack : Z := 93.

(** Go [error] values: [io.EOF] and all the others. *)
Inductive error : Type :=
  | EOF
  | ErrOther (msg : string).

#[global] Instance error_eq_dec : EqDecision error.
Proof. solve_decision. Defined.

(** ** path.go: the context enumeration *)

Inductive jsonContext : Type :=
  | none
  | objKey
  | objValue
  | arrValue.

#[global] Instance jsonContext_eq_dec : EqDecision jsonContext.
Proof. solve_decision. Defined.

(** ** The store and slices *)

(** A slice header.  [s_arr] is the address of the backing array,
    [s_off] the index of the slice's first element in it. *)
Record slice : Type := Slice {
  s_arr : nat;
  s_off : nat;
  s_len : nat;
  s_cap : nat
}.

(** The store: backing arrays by address.  Allocation appends, nothing is
    ever freed.  Address 0 is used for the nil slice. *)
Abbreviation Heap := (list (list iface)).

Definition nil_slice : slice := Slice 0 0 0 0.

Definition array_at (h : Heap) (a : nat) : list iface := default [] (h !! a).

(** [s[i]] and [s[i] = v], bounds checks apart. *)
Definition load (h : Heap) (s : slice) (i : nat) : iface :=
  default INil (array_at h (s_arr s) !! (s_off s + i)).

Definition store (h : Heap) (s : slice) (i : nat) (v : iface) : Heap :=
  alter (fun a => <[s_off s + i := v]> a) (s_arr s) h.

(** The elements a slice denotes. *)
Definition contents (h : Heap) (s : slice) : list iface :=
  take (s_len s) (drop (s_off s) (array_at h (s_arr s))).

(** What Go guarantees of every slice: its array is allocated and holds
    the slice up to its capacity. *)
Definition valid_slice (h : Heap) (s : slice) : Prop :=
  s_arr s < length h /\
  s_len s <= s_cap s /\
  s_off s + s_cap s <= length (array_at h (s_arr s)).

(** ** The token source (encoding/json's Decoder)

    The embedded [json.Decoder] is seen through what it hands out: a
    finite run of results, each a token or an error, after which it
    reports [io.EOF] for ever.  An error carries whether the next input
    byte can still be peeked at (a syntax error) or not (a read
    error); [More] looks at nothing else. *)
Inductive SrcEvent : Type :=
  | EvTok (t : iface)
  | EvErr (e : error) (peekable : bool).

Section Tracker.

(** State captured by callbacks (the variables a Go closure closes over,
    the value a [Decode] stores through its pointer argument). *)
Variable U : Type.

(** A decoded JSON value, as [Decode] hands it to the pointer it is
    given, and the value decoder of encoding/json: it reads one value
    from the input and leaves the rest. *)
Variable Value : Type.
Variable json_Decode : list SrcEvent -> option Value * option error * list SrcEvent.

(** The capacity [append] chooses when it has to grow an array of the
    given capacity (never less than what is needed, see [append]). *)
Variable growcap : nat -> nat.

(** The program state: the store, the [Decoder] struct ([src] stands for
    its embedded [json.Decoder], [path] and [context] are its fields)
    and the callbacks' state. *)
Record World : Type := MkWorld {
  heap : Heap;
  src : list SrcEvent;
  path : slice;
  context : jsonContext;
  user : U
}.

Definition set_heap (h : Heap) (w : World) : World :=
  MkWorld h (src w) (path w) (context w) (user w).
Definition set_src (s : list SrcEvent) (w : World) : World :=
  MkWorld (heap w) s (path w) (context w) (user w).
Definition set_path (p : slice) (w : World) : World :=
  MkWorld (heap w) (src w) p (context w) (user w).
Definition set_context (c : jsonContext) (w : World) : World :=
  MkWorld (heap w) (src w) (path w) c (user w).
Definition set_user (u : U) (w : World) : World :=
  MkWorld (heap w) (src w) (path w) (context w) u.

(** ** A state-and-panic monad *)

Inductive Outcome (A : Type) : Type :=
  | Ok (a : A) (w : World)
  | Panic (msg : string)
  | Diverge.
Arguments Ok {A} a w.
Arguments Panic {A} msg.
Arguments Diverge {A}.

Definition M (A : Type) : Type := World -> Outcome A.

Definition ret {A} (a : A) : M A := fun w => Ok a w.
Definition bind {A B} (m : M A) (k : A -> M B) : M B :=
  fun w => match m w with
           | Ok a w' => k a w'
           | Panic msg => Panic msg
           | Diverge => Diverge
           end.
Definition panic {A} (msg : string) : M A := fun _ => Panic msg.
Definition get {A} (f : World -> A) : M A := fun w => Ok (f w) w.
Definition modify (f : World -> World) : M unit := fun w => Ok tt (f w).

Notation "x <- m ;; k" := (bind m (fun x => k))
  (at level 100, m at next level, right associativity).
Notation "m ;;; k" := (bind m (fun _ => k))
  (at level 100, right associativity).

(** ** Slices: indexing, append, make and copy *)

(** [s[i]] with its bounds check. *)
Definition index (s : slice) (i : Z) : M iface := fun w =>
  if decide (0 <= i < Z.of_nat (s_len s))%Z
  then Ok (load (heap w) s (Z.to_nat i)) w
  else Panic "index out of range".

(** [s[i] = v] with its bounds check. *)
Definition assign (s : slice) (i : Z) (v : iface) : M unit := fun w =>
  if decide (0 <= i < Z.of_nat (s_len s))%Z
  then Ok tt (set_heap (store (heap w) s (Z.to_nat i) v) w)
  else Panic "index out of range".

(** [append(s, v)]: in place while the capacity lasts, else into a new,
    larger array. *)
Definition append (s : slice) (v : iface) : M slice := fun w =>
  if decide (s_len s < s_cap s)
  then Ok (Slice (s_arr s) (s_off s) (S (s_len s)) (s_cap s))
          (set_heap (store (heap w) s (s_len s) v) w)
  else
    let c := Nat.max (S (s_len s)) (growcap (s_cap s)) in
    let a := contents (heap w) s ++ v :: replicate (c - S (s_len s)) INil in
    Ok (Slice (length (heap w)) 0 (S (s_len s)) c)
       (set_heap (heap w ++ [a]) w).

(** [p := make(JsonPath, len(s)); copy(p, s)]. *)
Definition make_copy (s : slice) : M slice := fun w =>
  Ok (Slice (length (heap w)) 0 (s_len s) (s_len s))
     (set_heap (heap w ++ [contents (heap w) s]) w).

(** ** path.go *)

(** [func (p *JsonPath) push(n interface{})]; the new header is returned. *)
Definition push (p : slice) (n : iface) : M slice := append p n.

(** [func (p *JsonPath) pop()]: the slice is cut to its first
    [len - 1] elements, the capacity stays. *)
Definition pop (p : slice) : M slice :=
  if decide (s_len p = 0) then panic "slice bounds out of range"
  else ret (Slice (s_arr p) (s_off p) (s_len p - 1) (s_cap p)).

(** [func (p *JsonPath) incTop()]. *)
Definition incTop (p : slice) : M unit :=
  let top := (Z.of_nat (s_len p) - 1)%Z in
  t <- index p top ;;
  match t with
  | IInt i => assign p top (IInt (int_wrap (i + 1)))
  | _ => panic "interface conversion: not an int"
  end.

(** [func (p *JsonPath) nameTop(n string)]. *)
Definition nameTop (p : slice) (n : string) : M unit :=
  assign p (Z.of_nat (s_len p) - 1)%Z (IString n).

(** [func (p *JsonPath) inferContext() jsonContext]. *)
Definition inferContext (p : slice) : M jsonContext :=
  if decide (s_len p = 0) then ret none
  else
    t <- index p (Z.of_nat (s_len p) - 1)%Z ;;
    match t with
    | IString _ => ret objKey
    | IInt _ => ret arrValue
    | _ => panic "Invalid stack type"
    end.

(** [func (p *JsonPath) Equal(o JsonPath) bool]. *)
Fixpoint equal_from (h : Heap) (p o : slice) (i n : nat) : bool :=
  match n with
  | O => true
  | S n' =>
      if iface_eqb (load h p i) (load h o i)
      then equal_from h p o (S i) n'
      else false
  end.

Definition Equal (p o : slice) : M bool := fun w =>
  if decide (s_len p = s_len o)
  then Ok (equal_from (heap w) p o 0 (s_len p)) w
  else Ok false w.

(** The methods called on the field [d.path]: the header is read from
    the decoder and, where the method assigns to [*p], written back. *)
Definition d_path_push (n : iface) : M unit :=
  p <- get path ;; p' <- push p n ;; modify (set_path p').
Definition d_path_pop : M unit :=
  p <- get path ;; p' <- pop p ;; modify (set_path p').
Definition d_path_incTop : M unit :=
  p <- get path ;; incTop p.
Definition d_path_nameTop (n : string) : M unit :=
  p <- get path ;; nameTop p n.
Definition d_path_inferContext : M jsonContext :=
  p <- get path ;; inferContext p.
Definition d_path_Equal (o : slice) : M bool :=
  p <- get path ;; Equal p o.

(** ** encoding/json's Decoder, at the level of tokens *)

(** [d.Decoder.Token()]: the next result of the source; the token of a
    failed call is nil. *)
Definition json_Token : M (iface * option error) := fun w =>
  match src w with
  | [] => Ok (INil, Some EOF) w
  | EvTok t :: rest => Ok (t, None) (set_src rest w)
  | EvErr e _ :: rest => Ok (INil, Some e) (set_src rest w)
  end.

(** [d.Decoder.More()]: whether the next byte exists and is neither a
    closing bracket nor a closing brace; nothing is consumed. *)
Definition json_More : M bool := fun w =>
  match src w with
  | [] => Ok false w
  | EvTok (IDelim r) :: _ => Ok (negb (r =? rbrack)%Z && negb (r =? rbrace)%Z) w
  | EvTok _ :: _ => Ok true w
  | EvErr _ peekable :: _ => Ok peekable w
  end.

(** [d.Decoder.Decode(v)]: [v] is the pointer the value is stored
    through, here the update of the caller's state with the value. *)
Definition json_Decode_into (v : Value -> U -> U) : M (option error) := fun w =>
  match json_Decode (src w) with
  | (Some x, err, rest) => Ok err (set_user (v x (user w)) (set_src rest w))
  | (None, err, rest) => Ok err (set_src rest w)
  end.

(** ** decoder.go *)

(** [NewDecoder]: the zero [path] (a nil slice) and the zero [context]. *)
Definition NewDecoder (r : list SrcEvent) (u : U) : World :=
  MkWorld [[]] r nil_slice none u.

(** [func (d *Decoder) Decode(v interface{}) error]. *)
Definition Decode (v : Value -> U -> U) : M (option error) :=
  c <- get context ;;
  match c with
  | objValue => modify (set_context objKey)
  | arrValue => d_path_incTop
  | _ => ret tt
  end ;;;
  json_Decode_into v.

(** [func (d *Decoder) Path() JsonPath]. *)
Definition Path : M slice :=
  p <- get path ;;
  make_copy p.

(** [func (d *Decoder) Token() (json.Token, error)]. *)
Definition Token : M (iface * option error) :=
  r <- json_Token ;;
  let t := fst r in
  let err := snd r in
  match err with
  | Some _ => ret (t, err)
  | None =>
    match t with
    | INil =>
        c <- get context ;;
        match c with
        | objValue => modify (set_context objKey)
        | arrValue => d_path_incTop
        | _ => ret tt
        end ;;;
        ret (t, err)
    | IDelim r =>
        (if (r =? lbrace)%Z then
           c <- get context ;;
           (if decide (c = arrValue) then d_path_incTop else ret tt) ;;;
           d_path_push (IString "") ;;;
           modify (set_context objKey)
         else if (r =? rbrace)%Z then
           d_path_pop ;;;
           c <- d_path_inferContext ;;
           modify (set_context c)
         else if (r =? lbrack)%Z then
           c <- get context ;;
           (if decide (c = arrValue) then d_path_incTop else ret tt) ;;;
           d_path_push (IInt (-1)) ;;;
           modify (set_context arrValue)
         else if (r =? rbrack)%Z then
           d_path_pop ;;;
           c <- d_path_inferContext ;;
           modify (set_context c)
         else ret tt) ;;;
        ret (t, err)
    | IFloat64 _ | INumber _ | IBool _ =>
        c <- get context ;;
        match c with
        | objValue => modify (set_context objKey)
        | arrValue => d_path_incTop
        | _ => ret tt
        end ;;;
        ret (t, err)
    | IString s =>
        c <- get context ;;
        match c with
        | objKey =>
            d_path_nameTop s ;;;
            modify (set_context objValue) ;;;
            ret (IKeyString s, err)
        | objValue => modify (set_context objKey) ;;; ret (t, err)
        | arrValue => d_path_incTop ;;; ret (t, err)
        | none => ret (t, err)
        end
    | _ => ret (t, err)
    end
  end.

(** The [for] loop of [SeekTo].  Every turn but the last consumes one
    result of the source, so the loop is run on a bound that [SeekTo]
    takes from the length of the input. *)
Fixpoint seek_loop (fuel : nat) (target : slice) : M (bool * option error) :=
  match fuel with
  | O => fun _ => Diverge
  | S fuel' =>
      eq <- d_path_Equal target ;;
      if (eq : bool) then ret (true, None)
      else
        r <- Token ;;
        match snd r with
        | Some EOF => ret (false, None)
        | Some err => ret (false, Some err)
        | None => seek_loop fuel' target
        end
  end.

(** [func (w *Decoder) SeekTo(path ...interface{}) (bool, error)]: the
    variadic parameter is a slice; a caller that writes [SeekTo(s...)]
    passes its own slice [s], one that lists the arguments passes a
    fresh one ([SeekTo_args]). *)
Definition SeekTo (target : slice) : M (bool * option error) :=
  if decide (s_len target = 0) then
    p <- get path ;;
    ret (bool_decide (s_len p = 0), None)
  else
    let last := (Z.of_nat (s_len target) - 1)%Z in
    t <- index target last ;;
    match t with
    | IInt i => assign target last (IInt (int_wrap (i - 1)))
    | _ => ret tt
    end ;;;
    n <- get (fun w => length (src w)) ;;
    seek_loop (S n) target.

(** A slice literal: a new array holding the given elements. *)
Definition slice_of (l : list iface) : M slice := fun w =>
  Ok (Slice (length (heap w)) 0 (length l) (length l))
     (set_heap (heap w ++ [l]) w).

Definition SeekTo_args (l : list iface) : M (bool * option error) :=
  match l with
  | [] => SeekTo nil_slice
  | _ => target <- slice_of l ;; SeekTo target
  end.

(** Modelled from the spec: the registered actions.  [PathActions],
    its trie and the lookup [match] are declared in a file of the
    package that is not among the sources; [Scan] uses the lookup and
    the [action] of the node it finds, and these two are what a
    [PathActions] is here.  The lookup, a parameter, returns the node
    for a relative path, if any; a node may carry an action, a function
    on the decoder returning an [error]. *)
Record pathNode : Type := PathNode {
  action : option (M (option error))
}.

Record PathActions : Type := MkPathActions {
  node_match : list iface -> option pathNode
}.

(** [path[n:]]. *)
Definition slice_from (s : slice) (n : nat) : slice :=
  Slice (s_arr s) (s_off s + n) (s_len s - n) (s_cap s - n).

(** The [for] loop of [Scan] and its label [match].  A callback may
    leave the input where it is, and then the [goto] never ends: the
    loop runs on fuel. *)
Fixpoint scan_loop (fuel : nat) (ext : PathActions) (rootPath : slice)
    (matched : bool) : M (bool * option error) :=
  match fuel with
  | O => fun _ => Diverge
  | S fuel' =>
      r <- Token ;;
      match snd r with
      | Some err => ret (matched, Some err)
      | None => scan_match fuel' ext rootPath matched
      end
  end
with scan_match (fuel : nat) (ext : PathActions) (rootPath : slice)
    (matched : bool) : M (bool * option error) :=
  match fuel with
  | O => fun _ => Diverge
  | S fuel' =>
      path <- Path ;;
      if decide (s_len rootPath < s_len path) then
        relPath <- get (fun w => contents (heap w) (slice_from path (s_len rootPath))) ;;
        match node_match ext relPath with
        | Some node =>
            match action node with
            | Some act =>
                act ;;;
                c <- get context ;;
                again <- (if decide (c = arrValue) then json_More else ret false) ;;
                if (again : bool)
                then scan_match fuel' ext rootPath true
                else scan_loop fuel' ext rootPath true
            | None => scan_loop fuel' ext rootPath matched
            end
        | None => scan_loop fuel' ext rootPath matched
        end
      else ret (matched, None)
  end.

(** [func (d *Decoder) Scan(ext *PathActions) (bool, error)].  In the
    loop above, [More] is asked only when the context is [arrValue], as
    the [&&] of the source has it. *)
Definition Scan (fuel : nat) (ext : PathActions) : M (bool * option error) :=
  rootPath <- Path ;;
  c <- inferContext rootPath ;;
  (if decide (c = arrValue) then incTop rootPath else ret tt) ;;;
  scan_loop fuel ext rootPath false.

End Tracker.

Arguments MkWorld {U} _ _ _ _ _.
Arguments heap {U} _.
Arguments src {U} _.
Arguments path {U} _.
Arguments context {U} _.
Arguments user {U} _.
Arguments set_heap {U} _ _.
Arguments set_src {U} _ _.
Arguments set_path {U} _ _.
Arguments set_context {U} _ _.
Arguments set_user {U} _ _.
Arguments Ok {U A} _ _.
Arguments Panic {U A} _.
Arguments Diverge {U A}.
Arguments ret {U A} _ _.
Arguments bind {U A B} _ _ _.
Arguments panic {U A} _ _.
Arguments get {U A} _ _.
Arguments modify {U} _ _.
Arguments index {U} _ _ _.
Arguments assign {U} _ _ _ _.
Arguments append {U} _ _ _ _.
Arguments make_copy {U} _ _.
Arguments push {U} _ _ _ _.
Arguments pop {U} _ _.
Arguments incTop {U} _ _.
Arguments nameTop {U} _ _ _.
Arguments inferContext {U} _ _.
Arguments Equal {U} _ _ _.
Arguments d_path_push {U} _ _ _.
Arguments d_path_pop {U} _.
Arguments d_path_incTop {U} _.
Arguments d_path_nameTop {U} _ _.
Arguments d_path_inferContext {U} _.
Arguments d_path_Equal {U} _ _.
Arguments json_Token {U} _.
Arguments json_More {U} _.
Arguments json_Decode_into {U Value} _ _ _.
Arguments NewDecoder {U} _ _.
Arguments Decode {U Value} _ _ _.
Arguments Path {U} _.
Arguments Token {U} _ _.
Arguments seek_loop {U} _ _ _ _.
Arguments SeekTo {U} _ _ _.
Arguments slice_of {U} _ _.
Arguments SeekTo_args {U} _ _ _.
Arguments PathNode {U} _.
Arguments action {U} _.
Arguments MkPathActions {U} _.
Arguments node_match {U} _ _.
Arguments scan_loop {U} _ _ _ _ _ _.
Arguments scan_match {U} _ _ _ _ _ _.
Arguments Scan {U} _ _ _ _.

Notation "x <- m ;; k" := (bind m (fun x => k))
  (at level 100, m at next level, right associativity).
Notation "m ;;; k" := (bind m (fun _ => k))
  (at level 100, right associativity).

(** * What is observed of a state *)

(** The live path: the elements [d.path] denotes. *)
Definition cur {U} (w : World U) : list iface := contents (heap w) (path w).

(** [d.path] is a slice of the store. *)
Definition wf {U} (w : World U) : Prop := valid_slice (heap w) (path w).

(** What a run that writes only through the slice at array [a0] (and
    allocates) does to a store: arrays stay, keep their length, and all
    but [a0] keep their elements. *)
Definition heap_frame (a0 : nat) (h h' : Heap) : Prop :=
  length h <= length h' /\
  (forall a, a < length h -> length (array_at h' a) = length (array_at h a)) /\
  (forall a, a < length h -> a <> a0 -> array_at h' a = array_at h a).

(** A step of the decoder on its path: the result is well formed, the
    store is framed, and [d.path] stays in its array or moves to a new
    one. *)
Definition evolves {U} (w w' : World U) : Prop :=
  wf w' /\
  heap_frame (s_arr (path w)) (heap w) (heap w') /\
  (s_arr (path w') = s_arr (path w) \/ length (heap w) <= s_arr (path w')).

(** A step that leaves input and callback state alone and ends with the
    given context and live path. *)
Definition tracks {U} (w w' : World U) (c : jsonContext) (l : list iface) : Prop :=
  src w' = src w /\ user w' = user w /\ context w' = c /\ cur w' = l /\
  evolves w w'.

(** ** The path tracker on the elements of the path

    The effect of the four mutators and of [inferContext] on the list a
    path slice denotes ([None]: the method panics), and with them the
    effect of one token on context and live path.  [Token_refines]
    below shows that [Token] computes it. *)
Definition a_incTop (l : list iface) : option (list iface) :=
  match last l with
  | Some (IInt i) => Some (<[length l - 1 := IInt (int_wrap (i + 1))]> l)
  | _ => None
  end.

Definition a_nameTop (l : list iface) (n : string) : option (list iface) :=
  match l with
  | [] => None
  | _ => Some (<[length l - 1 := IString n]> l)
  end.

Definition a_pop (l : list iface) : option (list iface) :=
  match l with
  | [] => None
  | _ => Some (take (length l - 1) l)
  end.

Definition a_infer (l : list iface) : option jsonContext :=
  match last l with
  | None => Some none
  | Some (IString _) => Some objKey
  | Some (IInt _) => Some arrValue
  | Some _ => None
  end.

(** The transition of a consumed value: the [switch d.context] that
    [Token] has for nil, for numbers and booleans, and [Decode] too. *)
Definition a_value (c : jsonContext) (l : list iface) : option (jsonContext * list iface) :=
  match c with
  | objValue => Some (objKey, l)
  | arrValue => l' ← a_incTop l; Some (arrValue, l')
  | _ => Some (c, l)
  end.

Definition track (c : jsonContext) (l : list iface) (t : iface)
  : option (jsonContext * list iface * iface) :=
  match t with
  | INil | IFloat64 _ | INumber _ | IBool _ =>
      r ← a_value c l; Some (r.1, r.2, t)
  | IDelim r =>
      if (r =? lbrace)%Z then
        l1 ← (if decide (c = arrValue) then a_incTop l else Some l);
        Some (objKey, l1 ++ [IString ""], t)
      else if (r =? rbrace)%Z then
        l1 ← a_pop l; c' ← a_infer l1; Some (c', l1, t)
      else if (r =? lbrack)%Z then
        l1 ← (if decide (c = arrValue) then a_incTop l else Some l);
        Some (arrValue, l1 ++ [IInt (-1)], t)
      else if (r =? rbrack)%Z then
        l1 ← a_pop l; c' ← a_infer l1; Some (c', l1, t)
      else Some (c, l, t)
  | IString s =>
      match c with
      | objKey => l1 ← a_nameTop l s; Some (objValue, l1, IKeyString s)
      | objValue => Some (objKey, l, t)
      | arrValue => l1 ← a_incTop l; Some (arrValue, l1, t)
      | none => Some (none, l, t)
      end
  | _ => Some (c, l, t)
  end.

(** Context and live path as the decoder keeps them together: no
    context for the empty path, a key on top inside an object, an index
    on top inside an array. *)
Definition coherent (c : jsonContext) (l : list iface) : Prop :=
  match c with
  | none => l = []
  | objKey | objValue => exists l0 s, l = l0 ++ [IString s]
  | arrValue => exists l0 i, l = l0 ++ [IInt i]
  end.

(** The primitive tokens that are values: null, numbers ([float64] or
    [json.Number]), booleans, and strings where no key is expected. *)
Definition value_token (c : jsonContext) (t : iface) : bool :=
  match t with
  | INil | IFloat64 _ | INumber _ | IBool _ => true
  | IString _ => negb (bool_decide (c = objKey))
  | _ => false
  end.

(** The state after [k] calls of [Token] that all hand out a token. *)
Fixpoint after_tokens {U} (growcap : nat -> nat) (k : nat) (w : World U)
  : option (World U) :=
  match k with
  | O => Some w
  | S k' =>
      match Token growcap w with
      | Ok (_, None) w1 => after_tokens growcap k' w1
      | _ => None
      end
  end.

(** What [SeekTo] compares the live path with, for the target it is
    given: a final int is one less. *)
Definition seek_target (l : list iface) : list iface :=
  match last l with
  | Some (IInt i) => <[length l - 1 := IInt (int_wrap (i - 1))]> l
  | _ => l
  end.

(** The state in which the loop of [SeekTo] is entered. *)
Definition seek_entry {U} (target : slice) (w : World U) : World U :=
  match load (heap w) target (s_len target - 1) with
  | IInt i =>
      set_heap (store (heap w) target (s_len target - 1)
                  (IInt (int_wrap (i - 1)))) w
  | _ => w
  end.

(** A slice of the caller, apart from the array of [d.path]. *)
Definition apart {U} (t : slice) (w : World U) : Prop :=
  valid_slice (heap w) t /\ s_arr t <> s_arr (path w).

(** An array [a] of the store, other than the one of [d.path], holding
    [arr]; and the computations that keep it so. *)
Definition snap_inv {U} (a : nat) (arr : list iface) (w : World U) : Prop :=
  wf w /\ a < length (heap w) /\ a <> s_arr (path w) /\
  array_at (heap w) a = arr.

Definition keeps {U A} (a : nat) (m : M U A) : Prop :=
  forall arr w r w', snap_inv a arr w -> m w = Ok r w' -> snap_inv a arr w'.

(** The calls a program makes on a decoder. *)
Inductive call (U Value : Type) : Type :=
  | CToken
  | CDecode (v : Value -> U -> U)
  | CPath
  | CSeekTo (target : slice)
  | CSeekTo_args (l : list iface)
  | CScan (fuel : nat) (ext : PathActions U).
Arguments CToken {U Value}.
Arguments CDecode {U Value} v.
Arguments CPath {U Value}.
Arguments CSeekTo {U Value} target.
Arguments CSeekTo_args {U Value} l.
Arguments CScan {U Value} fuel ext.

Definition run_call {U Value}
    (json_Decode : list SrcEvent -> option Value * option error * list SrcEvent)
    (growcap : nat -> nat) (c : call U Value) : M U unit :=
  match c with
  | CToken => Token growcap ;;; ret tt
  | CDecode v => Decode json_Decode v ;;; ret tt
  | CPath => Path ;;; ret tt
  | CSeekTo target => SeekTo growcap target ;;; ret tt
  | CSeekTo_args l => SeekTo_args growcap l ;;; ret tt
  | CScan fuel ext => Scan growcap fuel ext ;;; ret tt
  end.

Fixpoint run_calls {U Value}
    (json_Decode : list SrcEvent -> option Value * option error * list SrcEvent)
    (growcap : nat -> nat) (cs : list (call U Value)) : M U unit :=
  match cs with
  | [] => ret tt
  | c :: cs' => run_call json_Decode growcap c ;;; run_calls json_Decode growcap cs'
  end.

(** A call that does not itself write to array [a]: a [SeekTo] that is
    not handed a slice of [a], a [Scan] whose callbacks keep [a]. *)
Definition call_keeps {U Value} (a : nat) (c : call U Value) : Prop :=
  match c with
  | CSeekTo target => s_arr target <> a
  | CScan _ ext =>
      forall rel node act,
        node_match ext rel = Some node -> action node = Some act -> keeps a act
  | _ => True
  end.

(** The state [Path] leaves: the copy is a new array of the store. *)
Definition after_Path {U} (w : World U) : World U :=
  set_heap (heap w ++ [cur w]) w.

(** Two states in which the decoder stands at the same place. *)
Definition same_position {U} (w w' : World U) : Prop :=
  src w' = src w /\ cur w' = cur w /\ context w' = context w /\
  user w' = user w.



(** * Tokens, documents and runs of the tracker *)

(** The delimiters that open and that close a container, and the
    tokens that are a value by themselves. *)
Definition opening (t : iface) : bool :=
  match t with
  | IDelim r => (r =? lbrace)%Z || (r =? lbrack)%Z
  | _ => false
  end.

Definition closing (t : iface) : bool :=
  match t with
  | IDelim r => (r =? rbrace)%Z || (r =? rbrack)%Z
  | _ => false
  end.

Definition scalar (t : iface) : bool :=
  match t with
  | INil | IBool _ | IFloat64 _ | INumber _ | IString _ => true
  | _ => false
  end.

(** What [push] and [nameTop] put into a path: strings and ints. *)
Definition is_segment (x : iface) : bool :=
  match x with
  | IString _ | IInt _ => true
  | _ => false
  end.

(** The state of a decoder that has only been driven through its
    methods: context and top segment agree, and every segment is a key
    or an index. *)
Definition tracked (c : jsonContext) (l : list iface) : Prop :=
  coherent c l /\ Forall (fun x => is_segment x = true) l.

(** The tokens of one JSON value, of the elements of an array and of the
    members of an object, as encoding/json hands them out (commas and
    colons are no tokens). *)
Inductive value_toks : list iface -> Prop :=
  | vt_scalar t : scalar t = true -> value_toks [t]
  | vt_array es :
      elems_toks es -> value_toks (IDelim lbrack :: es ++ [IDelim rbrack])
  | vt_object ms :
      members_toks ms -> value_toks (IDelim lbrace :: ms ++ [IDelim rbrace])
with elems_toks : list iface -> Prop :=
  | et_nil : elems_toks []
  | et_cons v es : value_toks v -> elems_toks es -> elems_toks (v ++ es)
with members_toks : list iface -> Prop :=
  | mt_nil : members_toks []
  | mt_cons k v ms :
      value_toks v -> members_toks ms -> members_toks (IString k :: v ++ ms).

Scheme value_toks_mut := Minimality for value_toks Sort Prop
  with elems_toks_mut := Minimality for elems_toks Sort Prop
  with members_toks_mut := Minimality for members_toks Sort Prop.

Combined Scheme toks_mutind from value_toks_mut, elems_toks_mut, members_toks_mut.

(** The tracker run over a list of tokens ([None]: it panics). *)
Fixpoint track_all (c : jsonContext) (l : list iface) (ts : list iface)
  : option (jsonContext * list iface) :=
  match ts with
  | [] => Some (c, l)
  | t :: ts' =>
      match track c l t with
      | Some (c', l', _) => track_all c' l' ts'
      | None => None
      end
  end.

(** The same run, required to keep the live path longer than [n] after
    every token. *)
Fixpoint descend (n : nat) (c : jsonContext) (l : list iface) (ts : list iface)
  : option (jsonContext * list iface) :=
  match ts with
  | [] => Some (c, l)
  | t :: ts' =>
      match track c l t with
      | Some (c', l', _) =>
          if decide (n < length l') then descend n c' l' ts' else None
      | None => None
      end
  end.

(** The run that stops after the first token that leaves a live path not
    longer than [n]; what is left of the tokens is returned. *)
Fixpoint skip (n : nat) (c : jsonContext) (l : list iface) (ts : list iface)
  : option (jsonContext * list iface * list iface) :=
  match ts with
  | [] => None
  | t :: ts' =>
      match track c l t with
      | Some (c', l', _) =>
          if decide (n < length l') then skip n c' l' ts' else Some (c', l', ts')
      | None => None
      end
  end.

(** Actions none of which is ever run: no lookup finds a node with an
    action. *)
Definition silent {U} (ext : PathActions U) : Prop :=
  forall rel node, node_match ext rel = Some node -> action node = None.

(** The action [Scan] runs at a relative path, if any; two computations
    that act alike on the decoder, whatever they return; and two
    registrations whose actions act alike at every path. *)
Definition applicable {U} (ext : PathActions U) (rel : list iface)
  : option (M U (option error)) :=
  match node_match ext rel with
  | Some node => action node
  | None => None
  end.

Definition same_effect {U A} (m m' : M U A) : Prop :=
  forall w,
    match m w, m' w with
    | Ok _ w1, Ok _ w2 => w1 = w2
    | Panic msg, Panic msg' => msg = msg'
    | Diverge, Diverge => True
    | _, _ => False
    end.

Definition same_actions {U} (ext ext' : PathActions U) : Prop :=
  forall rel,
    match applicable ext rel, applicable ext' rel with
    | Some act, Some act' => same_effect act act'
    | None, None => True
    | _, _ => False
    end.

(** A decoder as its methods keep it, and the computations that keep a
    property of the state. *)
Definition sound {U} (w : World U) : Prop :=
  wf w /\ tracked (context w) (cur w).

Definition preserves {U A} (I : World U -> Prop) (m : M U A) : Prop :=
  forall w r w', I w -> m w = Ok r w' -> I w'.

(** A result of the source that is a token. *)
Definition is_tok (ev : SrcEvent) : bool :=
  match ev with
  | EvTok _ => true
  | EvErr _ _ => false
  end.

(** How many tokens of a list satisfy a test. *)
Definition count (f : iface -> bool) (ts : list iface) : nat :=
  length (filter (fun t => f t = true) ts).

(** * A concrete setting for examples

    A growth policy for [append] (doubling), and a value decoder on
    token runs: a primitive token is a value, an opening delimiter
    starts a value that ends with the closing delimiter at the same
    depth; the decoded value is the tokens read.  A closing delimiter
    where a value should start is an error and is left in the input. *)
Definition double (c : nat) : nat := 2 * c.

Fixpoint take_value (depth : nat) (acc : list iface) (l : list SrcEvent)
  : option (list iface) * option error * list SrcEvent :=
  match l with
  | [] => (None, Some EOF, [])
  | EvErr e _ :: rest => (None, Some e, rest)
  | EvTok t :: rest =>
      match t with
      | IDelim r =>
          if ((r =? lbrace) || (r =? lbrack))%Z
          then take_value (S depth) (acc ++ [t]) rest
          else match depth with
               | O => (None, Some (ErrOther "invalid character"), l)
               | S O => (Some (acc ++ [t]), None, rest)
               | S d => take_value d (acc ++ [t]) rest
               end
      | _ =>
          match depth with
          | O => (Some (acc ++ [t]), None, rest)
          | _ => take_value depth (acc ++ [t]) rest
          end
      end
  end.

Definition decode_tokens : list SrcEvent -> option (list iface) * option error * list SrcEvent :=
  take_value 0 [].

(** A callback state that collects decoded values, and the pointer
    argument of [Decode] that appends to it. *)
Definition collect (v : list iface) (u : list (list iface)) : list (list iface) :=
  u ++ [v].

(** An action registered for every index of the array the scan starts
    in: it decodes the element it stands before. *)
Definition decode_any_index : PathActions (list (list iface)) :=
  MkPathActions (fun rel =>
    match rel with
    | [IInt _] => Some (PathNode (Some (Decode decode_tokens collect)))
    | _ => None
    end).

Definition no_actions : PathActions unit := MkPathActions (fun _ => None).

Definition obj_open : SrcEvent := EvTok (IDelim lbrace).
Definition obj_close : SrcEvent := EvTok (IDelim rbrace).
Definition arr_open : SrcEvent := EvTok (IDelim lbrack).
Definition arr_close : SrcEvent := EvTok (IDelim rbrack).
Definition str (s : string) : SrcEvent := EvTok (IString s).
Definition num (bits : Z) : SrcEvent := EvTok (IFloat64 bits).

(** The document of the README (numbers stand for themselves):
    [[{"Space":"YCbCr","Point":{"Y":255,"Cb":0,"Cr":-10}},
      {"Space":"RGB","Point":{"R":98,"G":218,"B":255}}]]. *)
Definition readme_doc : list SrcEvent :=
  [arr_open;
   obj_open; str "Space"; str "YCbCr"; str "Point";
     obj_open; str "Y"; num 255; str "Cb"; num 0; str "Cr"; num (-10); obj_close;
   obj_close;
   obj_open; str "Space"; str "RGB"; str "Point";
     obj_open; str "R"; num 98; str "G"; num 218; str "B"; num 255; obj_close;
   obj_close;
   arr_close].

(** States to try single steps in: just inside an object, where a key
    is expected; inside an array whose first element has been consumed;
    a new decoder in a store that also holds a caller's slice [[1]]. *)
Definition at_key : World unit :=
  MkWorld [[]; [IString ""]] [str "a"; num 1; obj_close] (Slice 1 0 1 1) objKey tt.

Definition at_index : World (list (list iface)) :=
  MkWorld [[]; [IInt 0]] [num 7; arr_close] (Slice 1 0 1 1) arrValue [].

Definition seek_world : World unit :=
  MkWorld [[]; [IInt 1]] [arr_open; num 10; num 20; num 30; arr_close]
          nil_slice none tt.

Definition caller_slice : slice := Slice 1 0 1 1.

(** [{"a":[0,"s",120000,{"b":0,"v":35}]}]. *)
Definition doc_a : list SrcEvent :=
  [obj_open; str "a"; arr_open; num 0; str "s"; num 120000;
   obj_open; str "b"; num 0; str "v"; num 35; obj_close; arr_close; obj_close].

(** A new decoder in a store that also holds a caller's slice
    [["a"]], in front of [{"b":1,"a":2}]. *)
Definition key_world : World unit :=
  MkWorld [[]; [IString "a"]]
          [obj_open; str "b"; num 1; str "a"; num 2; obj_close]
          nil_slice none tt.


Definition decode_and_fail : PathActions (list (list iface)) :=
  MkPathActions (fun rel =>
    match rel with
    | [IInt _] =>
        Some (PathNode (Some (Decode decode_tokens collect ;;;
                              ret (Some (ErrOther "stop")))))
    | _ => None
    end).

(** What is looked at in the result of a run. *)
Definition observe {U A} (o : Outcome U A)
  : option (A * list iface * jsonContext * list SrcEvent * U) :=
  match o with
  | Ok a w => Some (a, cur w, context w, src w, user w)
  | _ => None
  end.

(** * Facts about the store *)

Section StoreFacts.

Implicit Types (h : Heap) (s t : slice) (v : iface) (a i : nat).

Lemma lookup_contents h s i :
  contents h s !! i =
  if decide (i < s_len s) then array_at h (s_arr s) !! (s_off s + i) else None.
Proof.
  unfold contents. rewrite lookup_take. case_decide; [|done].
  by rewrite lookup_drop.
Qed.

Lemma length_contents h s : valid_slice h s -> length (contents h s) = s_len s.
Proof.
  intros (_ & Hl & Hc). unfold contents.
  rewrite length_take, length_drop. lia.
Qed.

Lemma load_contents h s i :
  i < s_len s -> load h s i = default INil (contents h s !! i).
Proof.
  intros Hi. unfold load. rewrite lookup_contents.
  by rewrite decide_True by done.
Qed.

Lemma length_store h s i v : length (store h s i v) = length h.
Proof. unfold store. apply length_alter. Qed.

Lemma array_at_store h s i v a :
  array_at (store h s i v) a =
  if decide (a = s_arr s) then <[s_off s + i := v]> (array_at h a)
  else array_at h a.
Proof.
  unfold array_at, store. case_decide as Ha.
  - subst a. rewrite list_lookup_alter_eq.
    by destruct (h !! s_arr s).
  - by rewrite list_lookup_alter_ne.
Qed.

Lemma contents_store_same h s i v :
  i < s_len s -> contents (store h s i v) s = <[i := v]> (contents h s).
Proof.
  intros Hi. unfold contents. rewrite array_at_store, decide_True by done.
  rewrite drop_insert_ge by lia. rewrite take_insert_lt by lia.
  f_equal. lia.
Qed.

Lemma contents_store_other h s t i v :
  s_arr t <> s_arr s -> contents (store h s i v) t = contents h t.
Proof.
  intros Hne. unfold contents. by rewrite array_at_store, decide_False.
Qed.

Lemma valid_store h s t i v :
  valid_slice h t -> valid_slice (store h s i v) t.
Proof.
  intros (Ha & Hl & Hc). unfold valid_slice.
  rewrite length_store, array_at_store.
  case_decide; rewrite ?length_insert; auto.
Qed.

Lemma array_at_alloc h arr a : a < length h -> array_at (h ++ [arr]) a = array_at h a.
Proof. intros Ha. unfold array_at. by rewrite lookup_app_l. Qed.

Lemma array_at_fresh h arr : array_at (h ++ [arr]) (length h) = arr.
Proof.
  unfold array_at. rewrite lookup_app_r by lia.
  by rewrite Nat.sub_diag.
Qed.

Lemma contents_alloc h arr t :
  s_arr t < length h -> contents (h ++ [arr]) t = contents h t.
Proof. intros Ha. unfold contents. by rewrite array_at_alloc. Qed.

Lemma valid_alloc h arr t : valid_slice h t -> valid_slice (h ++ [arr]) t.
Proof.
  intros (Ha & Hl & Hc). unfold valid_slice.
  rewrite length_app, array_at_alloc by done. simpl. lia.
Qed.

(** A fresh array holding [l] (and possibly more) is a valid slice
    denoting [l]. *)
Lemma contents_fresh h l k c :
  contents (h ++ [l ++ k]) (Slice (length h) 0 (length l) c) = l.
Proof.
  unfold contents. simpl. rewrite array_at_fresh, drop_0.
  apply take_app_length.
Qed.

Lemma valid_fresh h arr n c :
  n <= c -> c <= length arr -> valid_slice (h ++ [arr]) (Slice (length h) 0 n c).
Proof.
  intros Hn Hc. unfold valid_slice. simpl.
  rewrite length_app, array_at_fresh. simpl. lia.
Qed.

(** Appending in place. *)
Lemma contents_store_push h s v :
  valid_slice h s -> s_len s < s_cap s ->
  contents (store h s (s_len s) v)
           (Slice (s_arr s) (s_off s) (S (s_len s)) (s_cap s))
  = contents h s ++ [v].
Proof.
  intros (Ha & Hl & Hc) Hlt. unfold contents. simpl.
  rewrite array_at_store, decide_True by done.
  rewrite drop_insert_ge by lia.
  replace (s_off s + s_len s - s_off s) with (s_len s) by lia.
  erewrite take_S_r.
  2:{ apply list_lookup_insert_eq. rewrite length_drop. lia. }
  by rewrite take_insert_ge by lia.
Qed.

(** Cutting the last element off. *)
Lemma contents_pop h s :
  contents h (Slice (s_arr s) (s_off s) (s_len s - 1) (s_cap s))
  = take (s_len s - 1) (contents h s).
Proof.
  unfold contents. simpl. rewrite take_take. f_equal. lia.
Qed.

Lemma contents_slice_from h s n :
  contents h (slice_from s n) = drop n (contents h s).
Proof.
  unfold contents, slice_from. simpl.
  rewrite take_drop_commute, (take_drop_commute _ (s_len s)).
  rewrite drop_drop.
  destruct (decide (n <= s_len s)) as [Hn|Hn].
  - replace (s_off s + n + (s_len s - n)) with (s_off s + s_len s) by lia.
    done.
  - replace (s_len s - n) with 0 by lia.
    rewrite Nat.add_0_r.
    rewrite (drop_ge (take (s_off s + s_len s) _)).
    2:{ rewrite length_take. lia. }
    rewrite drop_ge; [done|]. rewrite length_take. lia.
Qed.

End StoreFacts.

(** * The path methods on the store *)

Section PathFacts.

Context {U : Type}.
Variable growcap : nat -> nat.
Implicit Types (w : World U) (h : Heap) (p : slice) (l : list iface).

Lemma heap_frame_refl a0 h : heap_frame a0 h h.
Proof. unfold heap_frame. auto. Qed.

Lemma heap_frame_store h p i v : heap_frame (s_arr p) h (store h p i v).
Proof.
  unfold heap_frame. rewrite length_store. split; [done|].
  split; intros a Ha; rewrite array_at_store; case_decide;
    rewrite ?length_insert; congruence.
Qed.

Lemma heap_frame_alloc a0 h arr : heap_frame a0 h (h ++ [arr]).
Proof.
  unfold heap_frame. rewrite length_app. simpl. split; [lia|].
  split; intros a Ha; by rewrite array_at_alloc.
Qed.

Lemma heap_frame_valid a0 h h' t :
  heap_frame a0 h h' -> valid_slice h t -> valid_slice h' t.
Proof.
  intros (Hlen & Hsz & _) (Ha & Hl & Hc). unfold valid_slice.
  rewrite Hsz by done. repeat split; lia.
Qed.

Lemma heap_frame_contents a0 h h' t :
  heap_frame a0 h h' -> s_arr t < length h -> s_arr t <> a0 ->
  contents h' t = contents h t.
Proof.
  intros (_ & _ & Heq) Ha Hne. unfold contents. by rewrite Heq.
Qed.

Lemma heap_frame_trans a0 a1 h h1 h2 :
  heap_frame a0 h h1 -> heap_frame a1 h1 h2 ->
  a1 = a0 \/ length h <= a1 ->
  heap_frame a0 h h2.
Proof.
  intros (Hl1 & Hs1 & He1) (Hl2 & Hs2 & He2) Ha. unfold heap_frame.
  split; [lia|]. split; intros a Hlt.
  - rewrite Hs2 by lia. by apply Hs1.
  - intros Hne. rewrite He2 by (try lia; destruct Ha; lia || congruence).
    by apply He1.
Qed.

Lemma evolves_refl w : wf w -> evolves w w.
Proof.
  intros Hwf. unfold evolves. split; [done|].
  split; [apply heap_frame_refl | by left].
Qed.

Lemma evolves_trans w w1 w2 : evolves w w1 -> evolves w1 w2 -> evolves w w2.
Proof.
  intros (Hwf1 & Hf1 & Ha1) (Hwf2 & Hf2 & Ha2). unfold evolves.
  split; [done|]. split.
  - eapply heap_frame_trans; eauto.
  - destruct Hf1 as (Hlen & _). destruct Ha2 as [->|]; [done | right; lia].
Qed.

Lemma tracks_refl w : wf w -> tracks w w (context w) (cur w).
Proof.
  intros Hwf. unfold tracks. split_and!; [done..|by apply evolves_refl].
Qed.

Lemma tracks_trans w w1 w2 c1 l1 c2 l2 :
  tracks w w1 c1 l1 -> tracks w1 w2 c2 l2 -> tracks w w2 c2 l2.
Proof.
  intros (Hs1 & Hu1 & _ & _ & He1) (Hs2 & Hu2 & Hc2 & Hl2 & He2).
  unfold tracks. split_and!; [congruence..|].
  eapply evolves_trans; eauto.
Qed.

Lemma tracks_set_context w w1 c l c' :
  tracks w w1 c l -> tracks w (set_context c' w1) c' l.
Proof. intros (Hs & Hu & _ & Hl & He). by unfold tracks. Qed.

(** The top of a path slice. *)
Lemma contents_nil_iff h p :
  valid_slice h p -> (contents h p = [] <-> s_len p = 0).
Proof.
  intros Hv. rewrite <- (length_contents h p Hv).
  destruct (contents h p); simpl; split; intros; done || lia.
Qed.

Lemma last_contents h p :
  valid_slice h p -> s_len p <> 0 ->
  last (contents h p) = Some (load h p (s_len p - 1)).
Proof.
  intros Hv Hne. rewrite last_lookup, (length_contents h p Hv).
  rewrite load_contents by lia.
  replace (pred (s_len p)) with (s_len p - 1) by lia.
  destruct (lookup_lt_is_Some_2 (contents h p) (s_len p - 1)) as [x Hx].
  { rewrite length_contents by done. lia. }
  by rewrite Hx.
Qed.

Lemma to_nat_top (n : nat) : Z.to_nat (Z.of_nat n - 1) = n - 1.
Proof. lia. Qed.

(** [incTop] on any slice of the store. *)
Lemma incTop_spec w p :
  valid_slice (heap w) p ->
  match a_incTop (contents (heap w) p) with
  | Some l => exists h', incTop p w = Ok tt (set_heap h' w) /\
                contents h' p = l /\ heap_frame (s_arr p) (heap w) h'
  | None => exists msg, incTop p w = Panic msg
  end.
Proof.
  intros Hv. unfold a_incTop, incTop, bind, index, assign.
  destruct (decide (s_len p = 0)) as [Hz|Hnz].
  - rewrite (proj2 (contents_nil_iff _ _ Hv) Hz). simpl.
    rewrite decide_False by lia. eauto.
  - rewrite (last_contents _ _ Hv Hnz).
    rewrite decide_True by lia. rewrite ?to_nat_top.
    destruct (load (heap w) p (s_len p - 1)); eauto.
    rewrite decide_True by lia. rewrite ?to_nat_top.
    eexists. split; [reflexivity|]. simpl. split.
    + rewrite contents_store_same by lia.
      by rewrite (length_contents _ _ Hv).
    + apply heap_frame_store.
Qed.

Lemma nameTop_spec w p n :
  valid_slice (heap w) p ->
  match a_nameTop (contents (heap w) p) n with
  | Some l => exists h', nameTop p n w = Ok tt (set_heap h' w) /\
                contents h' p = l /\ heap_frame (s_arr p) (heap w) h'
  | None => exists msg, nameTop p n w = Panic msg
  end.
Proof.
  intros Hv. unfold a_nameTop, nameTop, assign.
  destruct (decide (s_len p = 0)) as [Hz|Hnz].
  - rewrite (proj2 (contents_nil_iff _ _ Hv) Hz).
    rewrite decide_False by lia. eauto.
  - destruct (contents (heap w) p) as [|x l] eqn:Hc.
    { exfalso. by apply Hnz, (contents_nil_iff _ _ Hv). }
    rewrite <- Hc. rewrite decide_True by lia. rewrite ?to_nat_top.
    eexists. split; [reflexivity|]. split.
    + rewrite contents_store_same by lia.
      by rewrite (length_contents _ _ Hv).
    + apply heap_frame_store.
Qed.

Lemma inferContext_spec w p :
  valid_slice (heap w) p ->
  match a_infer (contents (heap w) p) with
  | Some c => inferContext p w = Ok c w
  | None => exists msg, inferContext p w = Panic msg
  end.
Proof.
  intros Hv. unfold a_infer, inferContext, bind, index.
  destruct (decide (s_len p = 0)) as [Hz|Hnz].
  - by rewrite (proj2 (contents_nil_iff _ _ Hv) Hz).
  - rewrite (last_contents _ _ Hv Hnz).
    rewrite decide_True by lia. rewrite ?to_nat_top.
    destruct (load (heap w) p (s_len p - 1)); eauto.
Qed.

(** A write through [d.path] seen from outside. *)
Lemma tracks_set_heap w h' l :
  wf w -> contents h' (path w) = l ->
  heap_frame (s_arr (path w)) (heap w) h' ->
  tracks w (set_heap h' w) (context w) l.
Proof.
  intros Hwf Hl Hf. unfold tracks, evolves, wf, cur. simpl.
  split_and!; auto. eapply heap_frame_valid; eauto.
Qed.

Lemma d_path_incTop_spec w :
  wf w ->
  match a_incTop (cur w) with
  | Some l => exists w', d_path_incTop w = Ok tt w' /\ tracks w w' (context w) l
  | None => exists msg, d_path_incTop w = Panic msg
  end.
Proof.
  intros Hwf. pose proof (incTop_spec w (path w) Hwf) as H.
  unfold d_path_incTop, bind, get, cur.
  destruct (a_incTop _); [|done].
  destruct H as (h' & -> & Hl & Hf). eauto using tracks_set_heap.
Qed.

Lemma d_path_nameTop_spec w n :
  wf w ->
  match a_nameTop (cur w) n with
  | Some l => exists w', d_path_nameTop n w = Ok tt w' /\ tracks w w' (context w) l
  | None => exists msg, d_path_nameTop n w = Panic msg
  end.
Proof.
  intros Hwf. pose proof (nameTop_spec w (path w) n Hwf) as H.
  unfold d_path_nameTop, bind, get, cur.
  destruct (a_nameTop _ _); [|done].
  destruct H as (h' & -> & Hl & Hf). eauto using tracks_set_heap.
Qed.

Lemma d_path_inferContext_spec w :
  wf w ->
  match a_infer (cur w) with
  | Some c => d_path_inferContext w = Ok c w
  | None => exists msg, d_path_inferContext w = Panic msg
  end.
Proof.
  intros Hwf. exact (inferContext_spec w (path w) Hwf).
Qed.

Lemma d_path_push_spec w v :
  wf w ->
  exists w', d_path_push growcap v w = Ok tt w' /\
             tracks w w' (context w) (cur w ++ [v]).
Proof.
  intros Hwf. unfold d_path_push, push, append, bind, get, modify.
  pose proof Hwf as (Ha & Hl & Hc).
  case_decide as Hlt; eexists; (split; [reflexivity|]);
    unfold tracks, evolves, wf, cur; simpl.
  - split_and!; auto.
    + by apply contents_store_push.
    + unfold valid_slice. simpl. rewrite length_store, array_at_store.
      rewrite decide_True, length_insert by done. lia.
    + apply heap_frame_store.
  - set (c := Nat.max _ _).
    set (l := contents (heap w) (path w)).
    assert (Hlen : length l = s_len (path w)) by by apply length_contents.
    replace (l ++ v :: replicate (c - S (s_len (path w))) INil)
      with ((l ++ [v]) ++ replicate (c - S (s_len (path w))) INil)
      by by rewrite <- app_assoc.
    replace (S (s_len (path w))) with (length (l ++ [v]))
      by (rewrite length_app; simpl; lia).
    split_and!; auto.
    + apply contents_fresh.
    + apply valid_fresh.
      * rewrite length_app. simpl. lia.
      * rewrite !length_app, length_replicate. simpl. lia.
    + apply heap_frame_alloc.
Qed.

Lemma d_path_pop_spec w :
  wf w ->
  match a_pop (cur w) with
  | Some l => exists w', d_path_pop w = Ok tt w' /\ tracks w w' (context w) l
  | None => exists msg, d_path_pop w = Panic msg
  end.
Proof.
  intros Hwf. unfold a_pop, d_path_pop, pop, bind, get, modify, panic, ret.
  pose proof Hwf as (Ha & Hl & Hc).
  destruct (decide (s_len (path w) = 0)) as [Hz|Hnz].
  - unfold cur. rewrite (proj2 (contents_nil_iff _ _ Hwf) Hz). eauto.
  - destruct (cur w) as [|x l] eqn:Hcur.
    { exfalso. by apply Hnz, (contents_nil_iff _ _ Hwf). }
    rewrite <- Hcur. eexists. split; [reflexivity|].
    unfold tracks, evolves, wf, cur. simpl. split_and!; auto.
    + rewrite contents_pop. by rewrite (length_contents _ _ Hwf).
    + unfold valid_slice. simpl. lia.
    + apply heap_frame_refl.
Qed.

(** [Equal] compares what the two slices denote. *)
Lemma equal_from_spec h p o n i :
  equal_from h p o i n = true <->
  (forall j, i <= j < i + n -> load h p j = load h o j).
Proof.
  revert i. induction n as [|n IH]; intros i; simpl.
  - split; [intros _ j; lia | done].
  - unfold iface_eqb. case_bool_decide as Heq.
    + rewrite IH. split; intros H j Hj.
      * destruct (decide (j = i)) as [->|]; [done | apply H; lia].
      * apply H. lia.
    + split; [done|]. intros H. exfalso. apply Heq, H. lia.
Qed.

Lemma Equal_spec w p o :
  valid_slice (heap w) p -> valid_slice (heap w) o ->
  Equal p o w = Ok (bool_decide (contents (heap w) p = contents (heap w) o)) w.
Proof.
  intros Hp Ho. unfold Equal. case_decide as Hlen.
  - f_equal. destruct (equal_from _ _ _ _ _) eqn:He; symmetry.
    + apply bool_decide_eq_true.
      pose proof (proj1 (equal_from_spec _ _ _ _ _) He) as Hall.
      apply list_eq. intros j.
      rewrite !lookup_contents. rewrite <- Hlen.
      case_decide as Hj; [|done].
      pose proof (Hall j ltac:(lia)) as Hld. unfold load in Hld.
      destruct Hp as (_ & ? & ?), Ho as (_ & ? & ?).
      destruct (lookup_lt_is_Some_2 (array_at (heap w) (s_arr p)) (s_off p + j))
        as [x Hx]; [lia|].
      destruct (lookup_lt_is_Some_2 (array_at (heap w) (s_arr o)) (s_off o + j))
        as [y Hy]; [lia|].
      rewrite Hx, Hy in Hld |- *. simpl in Hld. congruence.
    + apply bool_decide_eq_false. intros Heq.
      assert (equal_from (heap w) p o 0 (s_len p) = true) as Ht; [|congruence].
      apply equal_from_spec. intros j Hj.
      rewrite !load_contents by lia. by rewrite Heq.
  - f_equal. symmetry. apply bool_decide_eq_false. intros Heq.
    apply Hlen. by rewrite <- (length_contents _ _ Hp), <- (length_contents _ _ Ho), Heq.
Qed.

End PathFacts.

(** * One token *)

Section TokenFacts.

Context {U : Type}.
Variable growcap : nat -> nat.
Implicit Types (w : World U) (l : list iface).

Lemma bind_Ok {A B} (m : M U A) (k : A -> M U B) w a w' :
  m w = Ok a w' -> bind m k w = k a w'.
Proof. intros H. unfold bind. by rewrite H. Qed.

Lemma bind_get {A B} (f : World U -> A) (k : A -> M U B) w :
  bind (get f) k w = k (f w) w.
Proof. reflexivity. Qed.

Lemma bind_Panic {A B} (m : M U A) (k : A -> M U B) w msg :
  m w = Panic msg -> bind m k w = Panic msg.
Proof. intros H. unfold bind. by rewrite H. Qed.

(** The [switch d.context] of a consumed value. *)
Lemma value_switch_spec w :
  wf w ->
  match a_value (context w) (cur w) with
  | Some (c', l') =>
      exists w', (c <- get context ;;
                  match c with
                  | objValue => modify (set_context objKey)
                  | arrValue => d_path_incTop
                  | _ => ret tt
                  end) w = Ok tt w' /\ tracks w w' c' l'
  | None =>
      exists msg, (c <- get context ;;
                   match c with
                   | objValue => modify (set_context objKey)
                   | arrValue => d_path_incTop
                   | _ => ret tt
                   end) w = Panic msg
  end.
Proof.
  intros Hwf. unfold bind at 1 2, get, a_value.
  destruct (context w) eqn:Hc; simpl.
  - exists w. split; [done|]. rewrite <- Hc. by apply tracks_refl.
  - exists w. split; [done|]. rewrite <- Hc. by apply tracks_refl.
  - eexists. split; [reflexivity|].
    apply tracks_set_context with (c := context w). by apply tracks_refl.
  - pose proof (d_path_incTop_spec w Hwf) as H. rewrite Hc in H.
    destruct (a_incTop (cur w)); simpl; [|done].
    destruct H as (w' & -> & Ht). eauto.
Qed.

(** Entering a container. *)
Lemma enter_spec w v c0 :
  wf w ->
  match (if decide (context w = arrValue) then a_incTop (cur w) else Some (cur w)) with
  | Some l1 =>
      exists w', (c <- get context ;;
                  (if decide (c = arrValue) then d_path_incTop else ret tt) ;;;
                  d_path_push growcap v ;;;
                  modify (set_context c0)) w = Ok tt w' /\
                 tracks w w' c0 (l1 ++ [v])
  | None =>
      exists msg, (c <- get context ;;
                   (if decide (c = arrValue) then d_path_incTop else ret tt) ;;;
                   d_path_push growcap v ;;;
                   modify (set_context c0)) w = Panic msg
  end.
Proof.
  intros Hwf. unfold bind at 1 4, get.
  assert (Hpush : forall w1 l1, tracks w w1 (context w) l1 ->
            exists w', (d_path_push growcap v ;;; modify (set_context c0)) w1 = Ok tt w' /\
                       tracks w w' c0 (l1 ++ [v])).
  { intros w1 l1 Ht. pose proof Ht as (_ & _ & Hc1 & Hl1 & (Hwf1 & _)).
    destruct (d_path_push_spec growcap w1 v Hwf1) as (w2 & Hp & Ht2).
    eexists. split.
    - rewrite (bind_Ok _ _ _ _ _ Hp). reflexivity.
    - apply tracks_set_context with (c := context w1).
      rewrite <- Hl1. eapply tracks_trans; eauto. }
  case_decide as Hc.
  - pose proof (d_path_incTop_spec w Hwf) as H.
    destruct (a_incTop (cur w)); simpl.
    + destruct H as (w1 & H1 & Ht). rewrite (bind_Ok _ _ _ _ _ H1). eauto.
    + destruct H as (msg & H1). rewrite (bind_Panic _ _ _ _ H1). eauto.
  - unfold bind at 1, ret at 1. apply Hpush. by apply tracks_refl.
Qed.

(** Leaving a container. *)
Lemma leave_spec w :
  wf w ->
  match l1 ← a_pop (cur w); c' ← a_infer l1; Some (c', l1) with
  | Some (c', l1) =>
      exists w', (d_path_pop ;;;
                  c <- d_path_inferContext ;;
                  modify (set_context c)) w = Ok tt w' /\
                 tracks w w' c' l1
  | None =>
      exists msg, (d_path_pop ;;;
                   c <- d_path_inferContext ;;
                   modify (set_context c)) w = Panic msg
  end.
Proof.
  intros Hwf. pose proof (d_path_pop_spec w Hwf) as H.
  destruct (a_pop (cur w)) as [l1|]; simpl.
  - destruct H as (w1 & H1 & Ht). rewrite !(bind_Ok _ _ _ _ _ H1).
    pose proof Ht as (_ & _ & _ & Hl1 & (Hwf1 & _)).
    pose proof (d_path_inferContext_spec w1 Hwf1) as Hi. rewrite Hl1 in Hi.
    destruct (a_infer l1) as [c'|]; simpl.
    + rewrite (bind_Ok _ _ _ _ _ Hi). eexists. split; [reflexivity|].
      by eapply tracks_set_context.
    + destruct Hi as (msg & Hi). rewrite (bind_Panic _ _ _ _ Hi). eauto.
  - destruct H as (msg & H1). rewrite !(bind_Panic _ _ _ _ H1). eauto.
Qed.

Lemma tracks_after_read w rest w' c l :
  tracks (set_src rest w) w' c l ->
  src w' = rest /\ user w' = user w /\ context w' = c /\ cur w' = l /\
  evolves w w'.
Proof. intros (? & ? & ? & ? & ?). by split_and!. Qed.

(** [Token] computes [track] on the live path. *)
Lemma Token_refines w t rest :
  wf w -> src w = EvTok t :: rest ->
  match track (context w) (cur w) t with
  | Some (c', l', t') =>
      exists w', Token growcap w = Ok (t', None) w' /\
                 src w' = rest /\ user w' = user w /\
                 context w' = c' /\ cur w' = l' /\ evolves w w'
  | None => exists msg, Token growcap w = Panic msg
  end.
Proof.
  intros Hwf Hsrc. set (w1 := set_src rest w).
  assert (Hwf1 : wf w1) by exact Hwf.
  assert (Hjt : json_Token w = Ok (t, None) w1).
  { unfold json_Token. by rewrite Hsrc. }
  unfold Token. rewrite (bind_Ok _ _ _ _ _ Hjt). cbn [fst snd].
  change (context w) with (context w1). change (cur w) with (cur w1).
  assert (Hval : forall t0 : iface,
    match r ← a_value (context w1) (cur w1); Some (r.1, r.2, t0) with
    | Some (c', l', t') =>
        exists w', ((c <- get context ;;
                     match c with
                     | objValue => modify (set_context objKey)
                     | arrValue => d_path_incTop
                     | _ => ret tt
                     end) ;;; ret (t0, @None error)) w1 = Ok (t', None) w' /\
                   src w' = rest /\ user w' = user w /\
                   context w' = c' /\ cur w' = l' /\ evolves w w'
    | None =>
        exists msg, ((c <- get context ;;
                      match c with
                      | objValue => modify (set_context objKey)
                      | arrValue => d_path_incTop
                      | _ => ret tt
                      end) ;;; ret (t0, @None error)) w1 = Panic msg
    end).
  { intros t0. pose proof (value_switch_spec w1 Hwf1) as H.
    destruct (a_value _ _) as [[c' l']|]; simpl.
    - destruct H as (w' & H1 & Ht). rewrite (bind_Ok _ _ _ _ _ H1).
      eexists. split; [reflexivity|]. by apply tracks_after_read.
    - destruct H as (msg & H1). rewrite (bind_Panic _ _ _ _ H1). eauto. }
  destruct t; cbn [track]; try apply Hval.
  - (* string *)
    rewrite !bind_get. destruct (context w1) eqn:Hc; cbv beta iota.
    + eexists. split; [reflexivity|]. split_and!; [done..|exact (evolves_refl w Hwf)].
    + pose proof (d_path_nameTop_spec w1 s Hwf1) as H.
      destruct (a_nameTop (cur w1) s); simpl.
      * destruct H as (w2 & H1 & Ht). rewrite (bind_Ok _ _ _ _ _ H1).
        eexists. split; [reflexivity|].
        apply tracks_after_read. by eapply tracks_set_context.
      * destruct H as (msg & H1). rewrite (bind_Panic _ _ _ _ H1). eauto.
    + eexists. split; [reflexivity|]. split_and!; [done..|exact (evolves_refl w Hwf)].
    + pose proof (d_path_incTop_spec w1 Hwf1) as H. rewrite Hc in H.
      destruct (a_incTop (cur w1)); simpl.
      * destruct H as (w2 & H1 & Ht). rewrite (bind_Ok _ _ _ _ _ H1).
        eexists. split; [reflexivity|]. by apply tracks_after_read.
      * destruct H as (msg & H1). rewrite (bind_Panic _ _ _ _ H1). eauto.
  - (* int: not a token of the source, passed through *)
    eexists. split; [reflexivity|]. split_and!; [done..|exact (evolves_refl w Hwf)].
  - eexists. split; [reflexivity|]. split_and!; [done..|exact (evolves_refl w Hwf)].
  - (* delimiter *)
    destruct (r =? lbrace)%Z; [|destruct (r =? rbrace)%Z;
      [|destruct (r =? lbrack)%Z; [|destruct (r =? rbrack)%Z]]].
    + pose proof (enter_spec w1 (IString "") objKey Hwf1) as H.
      destruct (if decide (context w1 = arrValue) then _ else _); simpl.
      * destruct H as (w2 & H1 & Ht). rewrite (bind_Ok _ _ _ _ _ H1).
        eexists. split; [reflexivity|]. by apply tracks_after_read.
      * destruct H as (msg & H1). rewrite (bind_Panic _ _ _ _ H1). eauto.
    + pose proof (leave_spec w1 Hwf1) as H.
      destruct (a_pop (cur w1)) as [l1|]; simpl in *;
        [destruct (a_infer l1) as [c'|]; simpl in *|].
      * destruct H as (w2 & H1 & Ht). rewrite (bind_Ok _ _ _ _ _ H1).
        eexists. split; [reflexivity|]. by apply tracks_after_read.
      * destruct H as (msg & H1). rewrite (bind_Panic _ _ _ _ H1). eauto.
      * destruct H as (msg & H1). rewrite (bind_Panic _ _ _ _ H1). eauto.
    + pose proof (enter_spec w1 (IInt (-1)) arrValue Hwf1) as H.
      destruct (if decide (context w1 = arrValue) then _ else _); simpl.
      * destruct H as (w2 & H1 & Ht). rewrite (bind_Ok _ _ _ _ _ H1).
        eexists. split; [reflexivity|]. by apply tracks_after_read.
      * destruct H as (msg & H1). rewrite (bind_Panic _ _ _ _ H1). eauto.
    + pose proof (leave_spec w1 Hwf1) as H.
      destruct (a_pop (cur w1)) as [l1|]; simpl in *;
        [destruct (a_infer l1) as [c'|]; simpl in *|].
      * destruct H as (w2 & H1 & Ht). rewrite (bind_Ok _ _ _ _ _ H1).
        eexists. split; [reflexivity|]. by apply tracks_after_read.
      * destruct H as (msg & H1). rewrite (bind_Panic _ _ _ _ H1). eauto.
      * destruct H as (msg & H1). rewrite (bind_Panic _ _ _ _ H1). eauto.
    + eexists. split; [reflexivity|]. split_and!; [done..|exact (evolves_refl w Hwf)].
  - eexists. split; [reflexivity|]. split_and!; [done..|exact (evolves_refl w Hwf)].
Qed.

End TokenFacts.

(** * The transitions of the path tracker *)

Section TrackerProperties.

Context {U Value : Type}.
Variable json_Decode : list SrcEvent -> option Value * option error * list SrcEvent.
Variable growcap : nat -> nat.
Implicit Types (w : World U) (l : list iface).

Lemma int_wrap_id z : (int_min <= z <= int_max)%Z -> int_wrap z = z.
Proof.
  unfold int_min, int_max, int_wrap. intros Hz.
  rewrite Z.mod_small by lia. lia.
Qed.

Lemma a_incTop_snoc l i :
  a_incTop (l ++ [IInt i]) = Some (l ++ [IInt (int_wrap (i + 1))]).
Proof.
  unfold a_incTop. rewrite last_snoc. f_equal.
  rewrite length_app. simpl.
  replace (length l + 1 - 1) with (length l + 0) by lia.
  by rewrite insert_app_r.
Qed.

Lemma a_nameTop_snoc l x n : a_nameTop (l ++ [x]) n = Some (l ++ [IString n]).
Proof.
  unfold a_nameTop. destruct (l ++ [x]) eqn:E.
  { by destruct l. }
  rewrite <- E. f_equal. rewrite length_app. simpl.
  replace (length l + 1 - 1) with (length l + 0) by lia.
  by rewrite insert_app_r.
Qed.

Lemma a_pop_snoc l x : a_pop (l ++ [x]) = Some l.
Proof.
  unfold a_pop. destruct (l ++ [x]) eqn:E.
  { by destruct l. }
  rewrite <- E. f_equal. rewrite length_app. simpl.
  replace (length l + 1 - 1) with (length l) by lia.
  apply take_app_length.
Qed.

Lemma Token_eof w : src w = [] -> Token growcap w = Ok (INil, Some EOF) w.
Proof. intros H. unfold Token, bind, json_Token. by rewrite H. Qed.

Lemma Token_err w e pk rest :
  src w = EvErr e pk :: rest ->
  Token growcap w = Ok (INil, Some e) (set_src rest w).
Proof. intros H. unfold Token, bind, json_Token. by rewrite H. Qed.

Lemma a_incTop_Some l l' :
  a_incTop l = Some l' ->
  exists l0 i, l = l0 ++ [IInt i] /\ l' = l0 ++ [IInt (int_wrap (i + 1))].
Proof.
  intros H. assert (exists l0 i, l = l0 ++ [IInt i]) as (l0 & i & ->).
  { unfold a_incTop in H. destruct (last l) as [[]|] eqn:Hl; try done.
    apply last_Some in Hl as [l0 ->]. eauto. }
  rewrite a_incTop_snoc in H. injection H as <-. eauto.
Qed.

Lemma a_nameTop_Some l n l' :
  a_nameTop l n = Some l' -> exists l0 x, l = l0 ++ [x] /\ l' = l0 ++ [IString n].
Proof.
  intros H. destruct l as [|y l] using rev_ind; [done|].
  rewrite a_nameTop_snoc in H. injection H as <-. eauto.
Qed.

Lemma a_pop_Some l l' : a_pop l = Some l' -> exists x, l = l' ++ [x].
Proof.
  intros H. destruct l as [|y l] using rev_ind; [done|].
  rewrite a_pop_snoc in H. injection H as <-. eauto.
Qed.

Lemma a_infer_coherent l c : a_infer l = Some c -> coherent c l.
Proof.
  unfold a_infer. destruct (last l) as [x|] eqn:Hl.
  - apply last_Some in Hl as [l0 ->].
    destruct x; intros H; simplify_eq; simpl; eauto.
  - apply last_None in Hl as ->. by intros [= <-].
Qed.

(** [Token] keeps context and live path coherent. *)
Lemma track_coherent c l t c' l' t' :
  coherent c l -> track c l t = Some (c', l', t') -> coherent c' l'.
Proof.
  intros Hco H.
  assert (Hval : forall r, a_value c l = Some r -> coherent r.1 r.2).
  { unfold a_value. intros [c1 l1] Hr.
    destruct c; simplify_eq; simpl in *; try exact Hco.
    destruct (a_incTop l) as [l2|] eqn:Hi; simpl in *; simplify_eq.
    apply a_incTop_Some in Hi as (l0 & i & -> & ->). simpl. eauto. }
  assert (Hleave : forall l1 c1,
            a_pop l = Some l1 -> a_infer l1 = Some c1 -> coherent c1 l1).
  { intros l1 c1 _ Hi. by apply a_infer_coherent. }
  destruct t; cbn [track] in H;
    try (destruct (a_value c l) as [r|] eqn:Hr; simpl in *; simplify_eq;
         by apply (Hval r));
    try (by simplify_eq).
  - destruct c; simpl in H; simplify_eq; try done.
    + destruct (a_nameTop l s) as [l1|] eqn:Hn; simpl in *; simplify_eq.
      apply a_nameTop_Some in Hn as (l0 & x & -> & ->). simpl. eauto.
    + destruct (a_incTop l) as [l1|] eqn:Hi; simpl in *; simplify_eq.
      apply a_incTop_Some in Hi as (l0 & i & -> & ->). simpl. eauto.
  - destruct (r =? lbrace)%Z; [|destruct (r =? rbrace)%Z;
      [|destruct (r =? lbrack)%Z; [|destruct (r =? rbrack)%Z]]].
    + destruct (if decide (c = arrValue) then _ else _) as [l1|];
        simpl in *; simplify_eq. simpl. eauto.
    + destruct (a_pop l) as [l1|] eqn:Hp; simpl in *; simplify_eq.
      destruct (a_infer l1) as [c1|] eqn:Hi; simpl in *; simplify_eq. by eapply Hleave.
    + destruct (if decide (c = arrValue) then _ else _) as [l1|];
        simpl in *; simplify_eq. simpl. eauto.
    + destruct (a_pop l) as [l1|] eqn:Hp; simpl in *; simplify_eq.
      destruct (a_infer l1) as [c1|] eqn:Hi; simpl in *; simplify_eq. by eapply Hleave.
    + by simplify_eq.
Qed.

(** A token after which the live path is longer has pushed one segment
    onto the path, the top index of which it has first incremented in
    an array. *)
Lemma track_grows c l t c' l' t' :
  track c l t = Some (c', l', t') -> length l < length l' ->
  exists l1 x,
    l' = l1 ++ [x] /\
    (if decide (c = arrValue) then a_incTop l else Some l) = Some l1.
Proof.
  intros H Hlen.
  assert (Hinc : forall l1, a_incTop l = Some l1 -> length l1 = length l).
  { intros l1 Hi. apply a_incTop_Some in Hi as (l0 & i & -> & ->).
    by rewrite !length_app. }
  assert (Hval : forall r, a_value c l = Some r -> length r.2 = length l).
  { unfold a_value. intros [c1 l1] Hr. destruct c; simplify_eq; try done.
    destruct (a_incTop l) as [l2|] eqn:Hi; simpl in *; simplify_eq. simpl. by apply Hinc. }
  assert (Hpop : forall l1, a_pop l = Some l1 -> length l1 <= length l).
  { intros l1 Hp. apply a_pop_Some in Hp as (x & ->). rewrite length_app. lia. }
  destruct t; cbn [track] in H;
    try (destruct (a_value c l) as [r|] eqn:Hr;
         [pose proof (Hval r eq_refl)|]; simpl in *; simplify_eq; lia);
    try (simplify_eq; lia).
  - destruct c; simpl in H; simplify_eq; try lia.
    + destruct (a_nameTop l s) as [l1|] eqn:Hn; simpl in *; simplify_eq.
      apply a_nameTop_Some in Hn as (l0 & x & -> & ->).
      rewrite !length_app in Hlen. simpl in Hlen. lia.
    + destruct (a_incTop l) as [l1|] eqn:Hi; simpl in *; simplify_eq.
      pose proof (Hinc _ eq_refl). lia.
  - destruct (r =? lbrace)%Z; [|destruct (r =? rbrace)%Z;
      [|destruct (r =? lbrack)%Z; [|destruct (r =? rbrack)%Z]]].
    + destruct (if decide (c = arrValue) then _ else _) as [l1|] eqn:E;
        simpl in *; simplify_eq. eauto.
    + destruct (a_pop l) as [l1|] eqn:Hp; simpl in *; simplify_eq.
      destruct (a_infer l1) as [c1|] eqn:Hi; simpl in *; simplify_eq.
      pose proof (Hpop _ eq_refl). lia.
    + destruct (if decide (c = arrValue) then _ else _) as [l1|] eqn:E;
        simpl in *; simplify_eq. eauto.
    + destruct (a_pop l) as [l1|] eqn:Hp; simpl in *; simplify_eq.
      destruct (a_infer l1) as [c1|] eqn:Hi; simpl in *; simplify_eq.
      pose proof (Hpop _ eq_refl). lia.
    + simplify_eq. lia.
Qed.

(** What a call of [Token] that hands out a token has done. *)
Lemma Token_Ok_inv w t w1 :
  wf w -> Token growcap w = Ok (t, None) w1 ->
  exists t0 rest,
    src w = EvTok t0 :: rest /\
    track (context w) (cur w) t0 = Some (context w1, cur w1, t) /\
    src w1 = rest /\ user w1 = user w /\ evolves w w1.
Proof.
  intros Hwf Ht. destruct (src w) as [|[t0|e pk] rest] eqn:Hsrc.
  - by rewrite (Token_eof w Hsrc) in Ht.
  - pose proof (Token_refines growcap w t0 rest Hwf Hsrc) as H.
    destruct (track _ _ _) as [[[c' l'] t']|] eqn:Htr.
    + destruct H as (w' & H & Hs & Hu & Hc & Hl & Hev).
      rewrite H in Ht. injection Ht as <- <-. subst.
      exists t0, (src w'). by split_and!.
    + destruct H as (msg & H). by rewrite H in Ht.
  - by rewrite (Token_err w e pk rest Hsrc) in Ht.
Qed.

(** A new decoder is well formed and coherent, and [Token] and [Decode]
    keep a decoder so. *)
Lemma NewDecoder_wf r (u : U) : wf (NewDecoder r u).
Proof. unfold wf, valid_slice. simpl. lia. Qed.

Lemma NewDecoder_coherent r (u : U) :
  coherent (context (NewDecoder r u)) (cur (NewDecoder r u)).
Proof. reflexivity. Qed.

Lemma Token_keeps_coherent w r w1 :
  wf w -> coherent (context w) (cur w) ->
  Token growcap w = Ok r w1 ->
  wf w1 /\ coherent (context w1) (cur w1).
Proof.
  intros Hwf Hco Ht. destruct r as [t [e|]].
  - destruct (src w) as [|[t0|e0 pk] rest] eqn:Hsrc.
    + rewrite (Token_eof w Hsrc) in Ht. by injection Ht as _ _ <-.
    + pose proof (Token_refines growcap w t0 rest Hwf Hsrc) as H.
      destruct (track _ _ _) as [[[c' l'] t']|].
      * destruct H as (w' & H & _). by rewrite H in Ht.
      * destruct H as (msg & H). by rewrite H in Ht.
    + rewrite (Token_err w e0 pk rest Hsrc) in Ht. by injection Ht as _ _ <-.
  - destruct (Token_Ok_inv w t w1 Hwf Ht) as (t0 & rest & _ & Htr & _ & _ & (Hwf1 & _)).
    split; [done|]. by eapply track_coherent.
Qed.

Lemma Decode_keeps_coherent w (v : Value -> U -> U) r w1 :
  wf w -> coherent (context w) (cur w) ->
  Decode json_Decode v w = Ok r w1 ->
  wf w1 /\ coherent (context w1) (cur w1).
Proof.
  intros Hwf Hco Hd.
  assert (HD : Decode json_Decode v w =
               ((c <- get context ;;
                 match c with
                 | objValue => modify (set_context objKey)
                 | arrValue => d_path_incTop
                 | _ => ret tt
                 end) ;;; json_Decode_into json_Decode v) w) by reflexivity.
  rewrite HD in Hd. clear HD.
  pose proof (value_switch_spec w Hwf) as Hsw.
  destruct (a_value (context w) (cur w)) as [[c' l']|] eqn:Hav.
  - destruct Hsw as (w0 & Hsw & (_ & _ & Hc0 & Hl0 & (Hwf0 & _))).
    rewrite (bind_Ok _ _ _ _ _ Hsw) in Hd.
    assert (Hco0 : coherent c' l').
    { apply (track_coherent (context w) (cur w) INil c' l' INil Hco).
      cbn [track]. by rewrite Hav. }
    unfold json_Decode_into in Hd.
    destruct (json_Decode (src w0)) as [[[x|] e] rest];
      injection Hd as _ <-; unfold cur; simpl; fold (cur w0);
      rewrite Hc0, Hl0; by split.
  - destruct Hsw as (msg & Hsw). by rewrite (bind_Panic _ _ _ _ Hsw) in Hd.
Qed.

(** C4.  [Token] on a delimiter.  With [l1] the live path after the
    increment of its top index that is made when the context is
    [arrValue] (Go's [+ 1] on an [int]): an opening brace pushes the
    placeholder key [""] onto [l1] and sets the context to [objKey]; an
    opening bracket pushes the index [-1] and sets the context to
    [arrValue]; a closing brace or bracket pops the top segment and sets
    the context from the new top: [none] for the empty path, [objKey]
    for a key, [arrValue] for an index. *)
Theorem Token_delimiter_transitions w d rest :
  wf w ->
  src w = EvTok (IDelim d) :: rest ->
  (forall l1,
      (context w = arrValue ->
       exists l i, cur w = l ++ [IInt i] /\ l1 = l ++ [IInt (int_wrap (i + 1))]) ->
      (context w <> arrValue -> l1 = cur w) ->
      (d = lbrace ->
       exists w', Token growcap w = Ok (IDelim d, None) w' /\ src w' = rest /\
                  cur w' = l1 ++ [IString ""] /\ context w' = objKey) /\
      (d = lbrack ->
       exists w', Token growcap w = Ok (IDelim d, None) w' /\ src w' = rest /\
                  cur w' = l1 ++ [IInt (-1)] /\ context w' = arrValue)) /\
  (forall l x c',
      cur w = l ++ [x] ->
      d = rbrace \/ d = rbrack ->
      (l = [] /\ c' = none) \/
      (exists l0 s, l = l0 ++ [IString s] /\ c' = objKey) \/
      (exists l0 i, l = l0 ++ [IInt i] /\ c' = arrValue) ->
      exists w', Token growcap w = Ok (IDelim d, None) w' /\ src w' = rest /\
                 cur w' = l /\ context w' = c').
Proof.
  intros Hwf Hsrc. pose proof (Token_refines growcap w _ _ Hwf Hsrc) as H.
  cbn [track] in H. split.
  - intros l1 Harr Hother.
    assert (Hl1 : (if decide (context w = arrValue) then a_incTop (cur w)
                   else Some (cur w)) = Some l1).
    { case_decide as Hc.
      - destruct (Harr Hc) as (l & i & -> & ->). apply a_incTop_snoc.
      - by rewrite Hother. }
    split; intros ->; cbn in H; rewrite Hl1 in H; cbn in H;
      destruct H as (w' & ? & ? & ? & ? & ? & ?); eauto 10.
  - intros l x c' Hcur Hd Hshape.
    assert (Hinf : a_infer l = Some c').
    { unfold a_infer.
      destruct Hshape as [[-> ->]|[(l0 & s & -> & ->)|(l0 & i & -> & ->)]];
        by rewrite ?last_snoc. }
    destruct Hd as [-> | ->]; cbn in H;
      rewrite Hcur, a_pop_snoc in H; cbn in H; rewrite Hinf in H; cbn in H;
      destruct H as (w' & ? & ? & ? & ? & ? & ?); eauto 10.
Qed.

(** C5.  A string token consumed in context [objKey]: the top segment
    of the live path becomes the string, the context becomes
    [objValue], and the token handed out is a [KeyString], whose
    dynamic type is not [string] and which is equal to no [string]
    value, the same text included. *)
Theorem Token_key_string w s rest l x :
  wf w ->
  src w = EvTok (IString s) :: rest ->
  context w = objKey ->
  cur w = l ++ [x] ->
  exists w' t',
    Token growcap w = Ok (t', None) w' /\
    t' = IKeyString s /\
    type_of t' = TyKeyString /\
    type_of t' <> TyString /\
    (forall s', iface_eqb t' (IString s') = false) /\
    src w' = rest /\
    cur w' = l ++ [IString s] /\
    context w' = objValue.
Proof.
  intros Hwf Hsrc Hc Hcur.
  pose proof (Token_refines growcap w _ _ Hwf Hsrc) as H.
  cbn [track] in H. rewrite Hc, Hcur, a_nameTop_snoc in H. cbn in H.
  destruct H as (w' & ? & ? & ? & ? & ? & ?).
  exists w', (IKeyString s). split_and!; try done.
Qed.

(** C7.  [Decode] first makes the transition that [Token] makes for a
    primitive value token (null, number, boolean, a string that is not
    a key) in the same state: the value decoder of encoding/json is run
    in a state [w0] whose context and live path are those [Token] would
    leave, that is [objKey] for [objValue], the top index incremented
    for [arrValue], and the state as it was otherwise.  Neither the
    input nor the value decoder has a part in it. *)
Theorem Decode_value_transition w (v : Value -> U -> U) t rest :
  wf w ->
  value_token (context w) t = true ->
  match Token growcap (set_src (EvTok t :: rest) w) with
  | Ok _ w1 =>
      exists w0,
        Decode json_Decode v w = json_Decode_into json_Decode v w0 /\
        src w0 = src w /\ user w0 = user w /\
        context w0 = context w1 /\ cur w0 = cur w1 /\
        (context w = objValue -> context w0 = objKey /\ cur w0 = cur w) /\
        (context w = arrValue ->
         exists l i, cur w = l ++ [IInt i] /\
                     cur w0 = l ++ [IInt (int_wrap (i + 1))] /\
                     context w0 = arrValue) /\
        (context w <> objValue -> context w <> arrValue -> w0 = w)
  | Panic _ => exists msg, Decode json_Decode v w = Panic msg
  | Diverge => False
  end.
Proof.
  intros Hwf Hprim.
  pose proof (Token_refines growcap (set_src (EvTok t :: rest) w) t rest Hwf eq_refl) as H.
  change (context (set_src _ w)) with (context w) in H.
  change (cur (set_src _ w)) with (cur w) in H.
  assert (Ht : track (context w) (cur w) t =
               match a_value (context w) (cur w) with
               | Some (c', l') => Some (c', l', t)
               | None => None
               end).
  { destruct t; try done; cbn [track]; try by destruct (a_value _ _) as [[]|].
    unfold a_value. simpl in Hprim.
    destruct (context w); try done; simpl.
    by destruct (a_incTop (cur w)). }
  rewrite Ht in H. clear Ht.
  pose proof (value_switch_spec w Hwf) as Hsw.
  assert (HD : Decode json_Decode v w =
               ((c <- get context ;;
                 match c with
                 | objValue => modify (set_context objKey)
                 | arrValue => d_path_incTop
                 | _ => ret tt
                 end) ;;; json_Decode_into json_Decode v) w) by reflexivity.
  rewrite HD. clear HD.
  destruct (a_value (context w) (cur w)) as [[c' l']|] eqn:Hav.
  - destruct H as (w1 & -> & _ & _ & Hc1 & Hl1 & _).
    destruct Hsw as (w0 & Hsw & (Hs0 & Hu0 & Hc0 & Hl0 & _)).
    exists w0. rewrite (bind_Ok _ _ _ _ _ Hsw).
    split_and!; try congruence.
    + intros Hc. unfold a_value in Hav. rewrite Hc in Hav.
      split; congruence.
    + intros Hc. unfold a_value in Hav. rewrite Hc in Hav.
      destruct (a_incTop (cur w)) as [l2|] eqn:Hinc; [|done].
      injection Hav as <- <-.
      assert (exists l i, cur w = l ++ [IInt i]) as (l & i & Hl).
      { unfold a_incTop in Hinc.
        destruct (last (cur w)) as [[]|] eqn:Hlast; try done.
        apply last_Some in Hlast as [l Hl]. eauto. }
      exists l, i. rewrite Hl, a_incTop_snoc in Hinc.
      split_and!; congruence.
    + intros Hc1' Hc2'. rewrite bind_get in Hsw.
      destruct (context w); try done; by injection Hsw.
  - destruct H as (msg & ->).
    destruct Hsw as (msg' & Hsw). rewrite (bind_Panic _ _ _ _ Hsw). eauto.
Qed.

End TrackerProperties.

(** * SeekTo *)

Section SeekFacts.

Context {U : Type}.
Variable growcap : nat -> nat.
Implicit Types (w : World U) (l : list iface) (target : slice).

Lemma apart_evolves target w w' :
  apart target w -> evolves w w' ->
  apart target w' /\ contents (heap w') target = contents (heap w) target.
Proof.
  intros (Hv & Hne) (Hwf' & Hf & Ha). pose proof Hv as (Hlt & _).
  split; [split|].
  - eapply heap_frame_valid; eauto.
  - destruct Ha as [->|]; [done | lia].
  - eapply heap_frame_contents; eauto.
Qed.

Lemma SeekTo_unfold target w :
  s_len target <> 0 ->
  SeekTo growcap target w =
  seek_loop growcap (S (length (src w))) target (seek_entry target w).
Proof.
  intros Hnz. unfold SeekTo. rewrite decide_False by done.
  unfold bind at 1, index. rewrite decide_True by lia. rewrite to_nat_top.
  unfold seek_entry.
  destruct (load (heap w) target (s_len target - 1)); try reflexivity.
  unfold bind at 1, assign. rewrite decide_True by lia. by rewrite to_nat_top.
Qed.

Lemma seek_entry_fields target w :
  src (seek_entry target w) = src w /\ path (seek_entry target w) = path w /\
  context (seek_entry target w) = context w /\ user (seek_entry target w) = user w.
Proof. unfold seek_entry. by destruct (load _ _ _). Qed.

Lemma seek_entry_heap_frame target w :
  heap_frame (s_arr target) (heap w) (heap (seek_entry target w)).
Proof.
  unfold seek_entry. destruct (load _ _ _);
    apply heap_frame_refl || apply heap_frame_store.
Qed.

Lemma seek_entry_wf target w : wf w -> wf (seek_entry target w).
Proof.
  intros Hwf. unfold wf.
  destruct (seek_entry_fields target w) as (_ & -> & _).
  eapply heap_frame_valid; [apply seek_entry_heap_frame | done].
Qed.

Lemma seek_entry_cur target w :
  wf w -> apart target w -> cur (seek_entry target w) = cur w.
Proof.
  intros (Hlt & _) (_ & Hne). unfold cur.
  destruct (seek_entry_fields target w) as (_ & -> & _).
  eapply heap_frame_contents; [apply seek_entry_heap_frame | done | done].
Qed.

Lemma seek_entry_apart target w :
  apart target w -> apart target (seek_entry target w).
Proof.
  intros (Hv & Hne). split.
  - eapply heap_frame_valid; [apply seek_entry_heap_frame | done].
  - by destruct (seek_entry_fields target w) as (_ & -> & _).
Qed.

Lemma seek_entry_target target w :
  valid_slice (heap w) target -> s_len target <> 0 ->
  contents (heap (seek_entry target w)) target
  = seek_target (contents (heap w) target).
Proof.
  intros Hv Hnz. unfold seek_entry, seek_target.
  rewrite (last_contents _ _ Hv Hnz).
  destruct (load (heap w) target (s_len target - 1)); try done.
  simpl. rewrite contents_store_same by lia.
  by rewrite (length_contents _ _ Hv).
Qed.

(** The loop of [SeekTo], for a target apart from [d.path]: it stops
    with [true] at the first state, counted in tokens, whose live path is
    the target, and never runs out of its bound. *)
Lemma seek_loop_spec target fuel w :
  wf w -> apart target w -> length (src w) < fuel ->
  let T := contents (heap w) target in
  match seek_loop growcap fuel target w with
  | Ok (true, None) w' =>
      exists k, after_tokens growcap k w = Some w' /\ cur w' = T /\
                forall j wj, j < k -> after_tokens growcap j w = Some wj -> cur wj <> T
  | Ok (true, Some _) _ => False
  | Ok (false, e) w' =>
      e <> Some EOF /\
      forall k wk, after_tokens growcap k w = Some wk -> cur wk <> T
  | Panic _ => forall k wk, after_tokens growcap k w = Some wk -> cur wk <> T
  | Diverge => False
  end.
Proof.
  revert w. induction fuel as [|fuel IH]; intros w Hwf Hap Hfuel; [lia|].
  pose proof Hap as (Hv & Hne). simpl.
  unfold bind at 1, d_path_Equal. rewrite bind_get.
  rewrite (Equal_spec _ _ _ Hwf Hv). fold (cur w).
  case_bool_decide as Heq.
  { exists 0. split_and!; [done..|]. intros j wj Hj. lia. }
  assert (H0 : forall k wk, after_tokens growcap k w = Some wk ->
               k = 0 \/ exists k' t w1, k = S k' /\
                 Token growcap w = Ok (t, None) w1 /\
                 after_tokens growcap k' w1 = Some wk).
  { intros [|k'] wk Hk; [by left|right]. simpl in Hk.
    destruct (Token growcap w) as [[t [e|]] w1| |] eqn:Ht; try done.
    eauto 10. }
  destruct (src w) as [|[t|e pk] rest] eqn:Hsrc.
  - rewrite (bind_Ok _ _ _ _ _ (Token_eof growcap w Hsrc)). simpl.
    split; [done|].
    intros k wk Hk. destruct (H0 k wk Hk) as [->|(k' & t & w1 & _ & Ht & _)].
    + by injection Hk as <-.
    + by rewrite (Token_eof growcap w Hsrc) in Ht.
  - pose proof (Token_refines growcap w t rest Hwf Hsrc) as Ht.
    destruct (track (context w) (cur w) t) as [[[c' l'] t']|].
    + destruct Ht as (w1 & Ht & Hs1 & _ & _ & _ & Hev).
      rewrite (bind_Ok _ _ _ _ _ Ht). simpl.
      destruct (apart_evolves _ _ _ Hap Hev) as (Hap1 & Hc1).
      pose proof Hev as (Hwf1 & _).
      assert (Hfuel1 : length (src w1) < fuel) by (rewrite Hs1; simpl in Hfuel; lia).
      specialize (IH w1 Hwf1 Hap1 Hfuel1). simpl in IH. rewrite Hc1 in IH.
      assert (Hshift : forall k wk, after_tokens growcap (S k) w = Some wk <->
                         after_tokens growcap k w1 = Some wk).
      { intros k wk. simpl. by rewrite Ht. }
      assert (Hall : (forall k wk, after_tokens growcap k w1 = Some wk ->
                        cur wk <> contents (heap w) target) ->
                     forall k wk, after_tokens growcap k w = Some wk ->
                        cur wk <> contents (heap w) target).
      { intros Hn [|k] wk Hk.
        - by injection Hk as <-.
        - apply (Hn k). by apply Hshift. }
      destruct (seek_loop growcap fuel target w1) as [[[] [e|]] w'| |]; try done.
      * destruct IH as (k & Hk & Hcur & Hfirst). exists (S k).
        split_and!; [by apply Hshift | done |].
        intros [|j] wj Hj Hwj.
        -- by injection Hwj as <-.
        -- apply (Hfirst j); [lia | by apply Hshift].
      * destruct IH as (He & Hn). split; [done | by apply Hall].
      * destruct IH as (He & Hn). split; [done | by apply Hall].
      * by apply Hall.
    + destruct Ht as (msg & Ht). rewrite (bind_Panic _ _ _ _ Ht).
      intros k wk Hk. destruct (H0 k wk Hk) as [->|(k' & t0 & w1 & _ & Ht' & _)].
      * by injection Hk as <-.
      * by rewrite Ht in Ht'.
  - rewrite (bind_Ok _ _ _ _ _ (Token_err growcap w e pk rest Hsrc)). simpl.
    assert (Hn : forall k wk, after_tokens growcap k w = Some wk ->
                 cur wk <> contents (heap w) target).
    { intros k wk Hk. destruct (H0 k wk Hk) as [->|(k' & t & w1 & _ & Ht & _)].
      - by injection Hk as <-.
      - by rewrite (Token_err growcap w e pk rest Hsrc) in Ht. }
    destruct e; simpl; by split.
Qed.

(** [SeekTo] returns or panics: the bound it runs its loop on is never
    used up, whatever slice it is handed. *)
Lemma seek_loop_returns target fuel w :
  wf w -> length (src w) < fuel -> seek_loop growcap fuel target w <> Diverge.
Proof.
  revert w. induction fuel as [|fuel IH]; intros w Hwf Hfuel; [lia|].
  simpl. unfold bind at 1, d_path_Equal. rewrite bind_get.
  assert (exists b, Equal (path w) target w = Ok b w) as (b & ->).
  { unfold Equal. case_decide; eauto. }
  destruct b; [done|].
  destruct (src w) as [|[t|e pk] rest] eqn:Hsrc.
  - by rewrite (bind_Ok _ _ _ _ _ (Token_eof growcap w Hsrc)).
  - pose proof (Token_refines growcap w t rest Hwf Hsrc) as Ht.
    destruct (track (context w) (cur w) t) as [[[c' l'] t']|].
    + destruct Ht as (w1 & Ht & Hs1 & _ & _ & _ & (Hwf1 & _)).
      rewrite (bind_Ok _ _ _ _ _ Ht). simpl. apply IH; [done|].
      rewrite Hs1. simpl in Hfuel. lia.
    + destruct Ht as (msg & Ht). by rewrite (bind_Panic _ _ _ _ Ht).
  - rewrite (bind_Ok _ _ _ _ _ (Token_err growcap w e pk rest Hsrc)).
    by destruct e.
Qed.

Lemma SeekTo_returns target w : wf w -> SeekTo growcap target w <> Diverge.
Proof.
  intros Hwf. destruct (decide (s_len target = 0)) as [Hz|Hnz].
  - unfold SeekTo. by rewrite decide_True.
  - rewrite (SeekTo_unfold target w Hnz).
    apply seek_loop_returns; [by apply seek_entry_wf|].
    destruct (seek_entry_fields target w) as (-> & _). lia.
Qed.

End SeekFacts.

(** * Framing: what the decoder does not write to *)

Section Frame.

Context {U Value : Type}.
Variable json_Decode : list SrcEvent -> option Value * option error * list SrcEvent.
Variable growcap : nat -> nat.
Implicit Types (w : World U) (l : list iface) (a : nat).

Lemma snap_inv_evolves a arr w w' :
  snap_inv a arr w -> evolves w w' -> snap_inv a arr w'.
Proof.
  intros (Hwf & Hlt & Hne & Harr) (Hwf' & (Hlen & Hsz & Heq) & Ha).
  unfold snap_inv. split_and!; [done | lia | |].
  - destruct Ha as [->|]; [done | lia].
  - by rewrite Heq.
Qed.

Lemma Token_evolves w r w' :
  wf w -> Token growcap w = Ok r w' ->
  evolves w w' /\ user w' = user w /\ length (src w') <= length (src w).
Proof.
  intros Hwf Ht. destruct (src w) as [|[t|e pk] rest] eqn:Hsrc.
  - rewrite (Token_eof growcap w Hsrc) in Ht. injection Ht as <- <-.
    rewrite Hsrc. split_and!; [by apply evolves_refl | done | done].
  - pose proof (Token_refines growcap w t rest Hwf Hsrc) as H.
    destruct (track _ _ _) as [[[c' l'] t']|].
    + destruct H as (w1 & H1 & Hs & Hu & _ & _ & Hev).
      rewrite H1 in Ht. injection Ht as <- <-.
      rewrite Hs. simpl. split_and!; [done | done | lia].
    + destruct H as (msg & H1). by rewrite H1 in Ht.
  - rewrite (Token_err growcap w e pk rest Hsrc) in Ht. injection Ht as <- <-.
    simpl. split_and!; [exact (evolves_refl w Hwf) | done | lia].
Qed.

Lemma keeps_ret {A} a (x : A) : keeps a (ret (U := U) x).
Proof. intros arr w r w' Hi H. by injection H as <- <-. Qed.

Lemma keeps_bind {A B} a (m : M U A) (k : A -> M U B) :
  keeps a m -> (forall x, keeps a (k x)) -> keeps a (bind m k).
Proof.
  intros Hm Hk arr w r w' Hi H. unfold bind in H.
  destruct (m w) as [x w1| |] eqn:Hmw; try done.
  eapply Hk; [|exact H]. eapply Hm; eauto.
Qed.

Lemma keeps_get {A} a (f : World U -> A) : keeps a (get f).
Proof. intros arr w r w' Hi H. by injection H as <- <-. Qed.

Lemma keeps_Token a : keeps a (Token (U := U) growcap).
Proof.
  intros arr w r w' Hi H. pose proof Hi as (Hwf & _).
  destruct (Token_evolves w r w' Hwf H) as (Hev & _).
  eapply snap_inv_evolves; eauto.
Qed.

Lemma keeps_Decode a (v : Value -> U -> U) : keeps a (Decode json_Decode v).
Proof.
  intros arr w r w' Hi H. pose proof Hi as (Hwf & _).
  assert (HD : Decode json_Decode v w =
               ((c <- get context ;;
                 match c with
                 | objValue => modify (set_context objKey)
                 | arrValue => d_path_incTop
                 | _ => ret tt
                 end) ;;; json_Decode_into json_Decode v) w) by reflexivity.
  rewrite HD in H. clear HD.
  pose proof (value_switch_spec w Hwf) as Hsw.
  destruct (a_value _ _) as [[c' l']|].
  - destruct Hsw as (w0 & Hsw & (_ & _ & _ & _ & Hev)).
    rewrite (bind_Ok _ _ _ _ _ Hsw) in H.
    assert (Hi0 : snap_inv a arr w0) by (eapply snap_inv_evolves; eauto).
    unfold json_Decode_into in H.
    destruct (json_Decode (src w0)) as [[[x|] e] rest];
      injection H as <- <-; exact Hi0.
  - destruct Hsw as (msg & Hsw). by rewrite (bind_Panic _ _ _ _ Hsw) in H.
Qed.

(** An allocation keeps every array there is. *)
Lemma snap_inv_alloc a arr w new :
  snap_inv a arr w -> snap_inv a arr (set_heap (heap w ++ [new]) w).
Proof.
  intros (Hwf & Hlt & Hne & Harr). unfold snap_inv, wf. simpl.
  split_and!; [by apply valid_alloc | rewrite length_app; lia | done |].
  by rewrite array_at_alloc.
Qed.

Lemma keeps_Path a : keeps a (Path (U := U)).
Proof.
  intros arr w r w' Hi H. unfold Path, make_copy in H. rewrite bind_get in H.
  injection H as <- <-. by apply snap_inv_alloc.
Qed.

Lemma keeps_d_path_Equal a o : keeps a (d_path_Equal (U := U) o).
Proof.
  intros arr w r w' Hi H. unfold d_path_Equal, Equal in H.
  rewrite bind_get in H. by case_decide; injection H as <- <-.
Qed.

Lemma keeps_seek_loop a fuel target :
  keeps a (seek_loop (U := U) growcap fuel target).
Proof.
  induction fuel as [|fuel IH]; [by intros arr w r w' Hi H|].
  simpl. apply keeps_bind; [apply keeps_d_path_Equal|]. intros [].
  - apply keeps_ret.
  - apply keeps_bind; [apply keeps_Token|]. intros [t [[]|]]; simpl;
      apply keeps_ret || apply IH.
Qed.

(** A write through a slice of another array. *)
Lemma snap_inv_store a arr w s i v :
  s_arr s <> a -> snap_inv a arr w ->
  snap_inv a arr (set_heap (store (heap w) s i v) w).
Proof.
  intros Hs (Hwf & Hlt & Hne & Harr). unfold snap_inv, wf. simpl.
  split_and!; [by apply valid_store | by rewrite length_store | done |].
  by rewrite array_at_store, decide_False.
Qed.

Lemma snap_inv_seek_entry a arr w target :
  s_arr target <> a -> snap_inv a arr w -> snap_inv a arr (seek_entry target w).
Proof.
  intros Hs Hi. unfold seek_entry.
  destruct (load _ _ _); try done. by apply snap_inv_store.
Qed.

Lemma keeps_SeekTo a target :
  s_arr target <> a -> keeps a (SeekTo (U := U) growcap target).
Proof.
  intros Hs arr w r w' Hi H.
  destruct (decide (s_len target = 0)) as [Hz|Hnz].
  - unfold SeekTo in H. rewrite decide_True in H by done.
    rewrite bind_get in H. by injection H as <- <-.
  - rewrite (SeekTo_unfold growcap target w Hnz) in H.
    eapply keeps_seek_loop; [|exact H]. by apply snap_inv_seek_entry.
Qed.

Lemma keeps_SeekTo_args a l : keeps a (SeekTo_args (U := U) growcap l).
Proof.
  intros arr w r w' Hi H. pose proof Hi as (_ & Hlt & _).
  destruct l as [|x l]; simpl in H.
  - unfold SeekTo in H. simpl in H. rewrite bind_get in H.
    by injection H as <- <-.
  - unfold bind at 1, slice_of in H.
    eapply keeps_SeekTo; [| |exact H]; simpl; [lia|].
    by apply snap_inv_alloc.
Qed.

Lemma keeps_index a p i : keeps a (index (U := U) p i).
Proof.
  intros arr w r w' Hi H. unfold index in H.
  case_decide; [by injection H as <- <-|done].
Qed.

Lemma keeps_assign a p i v : s_arr p <> a -> keeps a (assign (U := U) p i v).
Proof.
  intros Hs arr w r w' Hi H. unfold assign in H.
  case_decide; [|done]. injection H as <- <-. by apply snap_inv_store.
Qed.

Lemma keeps_panic {A} a msg : keeps a (panic (U := U) (A := A) msg).
Proof. by intros arr w r w' Hi H. Qed.

Lemma keeps_incTop a p : s_arr p <> a -> keeps a (incTop (U := U) p).
Proof.
  intros Hs. unfold incTop. apply keeps_bind; [apply keeps_index|].
  intros []; try apply keeps_panic. by apply keeps_assign.
Qed.

Lemma keeps_inferContext a p : keeps a (inferContext (U := U) p).
Proof.
  unfold inferContext. case_decide; [apply keeps_ret|].
  apply keeps_bind; [apply keeps_index|].
  intros []; apply keeps_panic || apply keeps_ret.
Qed.

Lemma keeps_json_More a : keeps a (json_More (U := U)).
Proof.
  intros arr w r w' Hi H. unfold json_More in H.
  destruct (src w) as [|[[]|] ?]; by injection H as <- <-.
Qed.

Lemma keeps_scan a ext :
  (forall rel node act,
     node_match ext rel = Some node -> action node = Some act -> keeps a act) ->
  forall fuel rootPath matched,
    keeps a (scan_loop (U := U) growcap fuel ext rootPath matched) /\
    keeps a (scan_match (U := U) growcap fuel ext rootPath matched).
Proof.
  intros Hact. induction fuel as [|fuel IH]; intros rootPath matched.
  { split; by intros arr w r w' Hi H. }
  split; simpl.
  - apply keeps_bind; [apply keeps_Token|]. intros [t [e|]]; simpl.
    + apply keeps_ret.
    + apply IH.
  - apply keeps_bind; [apply keeps_Path|]. intros p.
    case_decide; [|apply keeps_ret].
    apply keeps_bind; [apply keeps_get|]. intros rel.
    destruct (node_match ext rel) as [node|] eqn:Hn; [|apply IH].
    destruct (action node) as [act|] eqn:Ha; [|apply IH].
    apply keeps_bind; [by eapply Hact|]. intros _.
    apply keeps_bind; [apply keeps_get|]. intros c.
    apply keeps_bind.
    { case_decide; [apply keeps_json_More | apply keeps_ret]. }
    intros []; apply IH.
Qed.

Lemma keeps_Scan a fuel ext :
  (forall rel node act,
     node_match ext rel = Some node -> action node = Some act -> keeps a act) ->
  keeps a (Scan (U := U) growcap fuel ext).
Proof.
  intros Hact arr w r w' Hi H. pose proof Hi as (_ & Hlt & _).
  unfold Scan in H. unfold bind at 1 in H.
  unfold Path in H. rewrite bind_get in H. unfold make_copy in H.
  set (root := Slice (length (heap w)) 0 (s_len (path w)) (s_len (path w))) in H.
  assert (Hroot : s_arr root <> a) by (simpl; lia).
  revert H. apply keeps_bind; [| |by apply snap_inv_alloc].
  - apply keeps_inferContext.
  - intros c. apply keeps_bind.
    + case_decide; [by apply keeps_incTop | apply keeps_ret].
    + intros _. by apply keeps_scan.
Qed.

Lemma keeps_run_call a (c : call U Value) :
  call_keeps a c -> keeps a (run_call json_Decode growcap c).
Proof.
  intros Hc. destruct c; simpl in *;
    (apply keeps_bind; [|intros; apply keeps_ret]).
  - apply keeps_Token.
  - apply keeps_Decode.
  - apply keeps_Path.
  - by apply keeps_SeekTo.
  - apply keeps_SeekTo_args.
  - by apply keeps_Scan.
Qed.

Lemma keeps_run_calls a (cs : list (call U Value)) :
  Forall (call_keeps a) cs -> keeps a (run_calls json_Decode growcap cs).
Proof.
  induction 1 as [|c cs Hc _ IH]; simpl; [apply keeps_ret|].
  apply keeps_bind; [by apply keeps_run_call | by intros _].
Qed.

End Frame.


(** * SeekTo, Path and the end of the stream *)

Section SeekProperties.

Context {U Value : Type}.
Variable json_Decode : list SrcEvent -> option Value * option error * list SrcEvent.
Variable growcap : nat -> nat.
Implicit Types (w : World U) (l : list iface) (target : slice).

Lemma last_nonempty_slice h target x :
  valid_slice h target -> last (contents h target) = Some x -> s_len target <> 0.
Proof.
  intros Hv Hl Hz. apply (contents_nil_iff _ _ Hv) in Hz.
  by rewrite Hz in Hl.
Qed.

Lemma seek_target_index l i :
  last l = Some (IInt i) ->
  seek_target l = <[length l - 1 := IInt (int_wrap (i - 1))]> l.
Proof. intros Hl. unfold seek_target. by rewrite Hl. Qed.

Lemma snap_inv_apart target w :
  wf w -> apart target w ->
  snap_inv (s_arr target) (array_at (heap w) (s_arr target)) w.
Proof. intros Hwf ((Hlt & _) & Hne). by unfold snap_inv. Qed.

Lemma snap_inv_contents target w w' :
  snap_inv (s_arr target) (array_at (heap w) (s_arr target)) w' ->
  valid_slice (heap w) target ->
  wf w' /\ apart target w' /\ contents (heap w') target = contents (heap w) target.
Proof.
  intros (Hwf' & Hlt & Hne & Harr) (_ & Hl & Hc).
  split; [done|]. split; [split; [|done]|].
  - unfold valid_slice. rewrite Harr. done.
  - unfold contents. by rewrite Harr.
Qed.


(** C8.  [SeekTo] returns [(true, nil)] without consuming a token when
    its match condition holds at the call: for a target of length zero
    the answer is whether the live path is empty, and the state is left
    as it is; for any other target, if the live path equals what the
    target is compared with, the call succeeds at once; and after a
    call that succeeded, a call with the same target (a slice holding
    what the first one held when it was passed) succeeds at once. *)
Theorem SeekTo_already_there w target :
  wf w ->
  (s_len target = 0 ->
   SeekTo growcap target w = Ok (bool_decide (cur w = []), None) w) /\
  (apart target w -> s_len target <> 0 ->
   cur w = seek_target (contents (heap w) target) ->
   exists w', SeekTo growcap target w = Ok (true, None) w' /\
              src w' = src w /\ cur w' = cur w /\
              context w' = context w /\ user w' = user w) /\
  (apart target w ->
   forall w1, SeekTo growcap target w = Ok (true, None) w1 ->
   forall t2, apart t2 w1 ->
     contents (heap w1) t2 = contents (heap w) target ->
     exists w2, SeekTo growcap t2 w1 = Ok (true, None) w2 /\
                src w2 = src w1 /\ cur w2 = cur w1 /\
                context w2 = context w1 /\ user w2 = user w1).
Proof.
  intros Hwf.
  assert (Hzero : forall w0 t0, wf w0 -> s_len t0 = 0 ->
            SeekTo growcap t0 w0 = Ok (bool_decide (cur w0 = []), None) w0).
  { intros w0 t0 Hwf0 Hz. unfold SeekTo. rewrite decide_True by done.
    rewrite bind_get. unfold ret. do 2 f_equal.
    apply bool_decide_ext. symmetry. by apply contents_nil_iff. }
  assert (Hthere : forall w0 t0, wf w0 -> apart t0 w0 -> s_len t0 <> 0 ->
            cur w0 = seek_target (contents (heap w0) t0) ->
            exists w', SeekTo growcap t0 w0 = Ok (true, None) w' /\
                       src w' = src w0 /\ cur w' = cur w0 /\
                       context w' = context w0 /\ user w' = user w0).
  { intros w0 t0 Hwf0 Hap0 Hnz Hcur. pose proof Hap0 as (Hv & Hne).
    exists (seek_entry t0 w0).
    destruct (seek_entry_fields t0 w0) as (Hs & Hp & Hc & Hu).
    split_and!; try done; [|by apply seek_entry_cur].
    rewrite (SeekTo_unfold growcap t0 w0 Hnz). simpl.
    unfold bind at 1, d_path_Equal. rewrite bind_get.
    destruct (seek_entry_apart _ _ Hap0) as (Hv' & _).
    rewrite (Equal_spec _ _ _ (seek_entry_wf _ _ Hwf0) Hv').
    fold (cur (seek_entry t0 w0)).
    rewrite (seek_entry_cur _ _ Hwf0 Hap0), (seek_entry_target _ _ Hv Hnz).
    by rewrite bool_decide_eq_true_2. }
  split; [by apply Hzero|]. split; [by apply Hthere|].
  intros Hap w1 Hrun t2 Hap2 Hsame. pose proof Hap as (Hv & Hne).
  pose proof Hap2 as (Hv2 & _).
  destruct (decide (s_len target = 0)) as [Hz|Hnz].
  - rewrite (Hzero w target Hwf Hz) in Hrun. injection Hrun as Hb <-.
    assert (Hz2 : s_len t2 = 0).
    { rewrite <- (length_contents _ _ Hv2), Hsame, (length_contents _ _ Hv). done. }
    exists w. rewrite (Hzero w t2 Hwf Hz2), <- Hb. done.
  - rewrite (SeekTo_unfold growcap target w Hnz) in Hrun.
    pose proof (seek_loop_spec growcap target (S (length (src w)))
                  (seek_entry target w) (seek_entry_wf _ _ Hwf)
                  (seek_entry_apart _ _ Hap)) as Hspec.
    destruct (seek_entry_fields target w) as (Hs & _).
    rewrite Hs in Hspec. specialize (Hspec ltac:(lia)). cbv zeta in Hspec.
    rewrite Hrun, (seek_entry_target _ _ Hv Hnz) in Hspec.
    destruct Hspec as (k & _ & Hcur & _).
    pose proof (keeps_seek_loop growcap (s_arr target) _ target _ _ _ _
                  (snap_inv_apart _ _ (seek_entry_wf _ _ Hwf)
                     (seek_entry_apart _ _ Hap)) Hrun) as (Hwf1 & _).
    apply Hthere; try done.
    + rewrite <- (length_contents _ _ Hv2), Hsame, (length_contents _ _ Hv). done.
    + by rewrite Hsame.
Qed.

(** C10.  A target ending in the int [i], passed as a slice of the
    caller: the loop of [SeekTo] is entered in a store in which the last
    element of that slice is [i - 1] (Go's [-]), and that is what the
    caller's slice holds when the call returns. *)
Theorem SeekTo_overwrites_final_index w target i :
  wf w -> apart target w ->
  last (contents (heap w) target) = Some (IInt i) ->
  (exists w0,
     SeekTo growcap target w = seek_loop growcap (S (length (src w))) target w0 /\
     heap w0 = store (heap w) target (s_len target - 1) (IInt (int_wrap (i - 1))) /\
     contents (heap w0) target
     = <[s_len target - 1 := IInt (int_wrap (i - 1))]> (contents (heap w) target)) /\
  (forall r w',
     SeekTo growcap target w = Ok r w' ->
     contents (heap w') target
     = <[s_len target - 1 := IInt (int_wrap (i - 1))]> (contents (heap w) target)).
Proof.
  intros Hwf Hap Hlast. pose proof Hap as (Hv & Hne).
  pose proof (last_nonempty_slice _ _ _ Hv Hlast) as Hnz.
  pose proof (seek_entry_target _ w Hv Hnz) as Ht.
  rewrite (seek_target_index _ _ Hlast), (length_contents _ _ Hv) in Ht.
  split.
  - exists (seek_entry target w). split_and!; [by apply SeekTo_unfold| |done].
    unfold seek_entry. rewrite (last_contents _ _ Hv Hnz) in Hlast.
    injection Hlast as ->. done.
  - intros r w' Hrun. rewrite (SeekTo_unfold growcap target w Hnz) in Hrun.
    pose proof (keeps_seek_loop growcap (s_arr target) _ target _ _ _ _
                  (snap_inv_apart _ _ (seek_entry_wf _ _ Hwf)
                     (seek_entry_apart _ _ Hap)) Hrun) as Hi.
    destruct (seek_entry_apart _ _ Hap) as (Hv0 & _).
    destruct (snap_inv_contents _ _ _ Hi Hv0) as (_ & _ & ->). done.
Qed.

(** C9, as the code has it.  The slice [Path] returns is a copy in an
    array of its own: it
    holds the live path of the moment, it holds it still after any run
    of calls on the decoder that are not themselves handed that array
    (a [SeekTo] passed another slice, a [Scan] whose callbacks leave it
    alone), and a write through it leaves the live path as it is. *)
Theorem Path_snapshot_independent w p w1 :
  wf w ->
  Path w = Ok p w1 ->
  contents (heap w1) p = cur w /\
  cur w1 = cur w /\
  (forall (calls : list (call U Value)) w2,
     Forall (call_keeps (s_arr p)) calls ->
     run_calls json_Decode growcap calls w1 = Ok tt w2 ->
     contents (heap w2) p = cur w) /\
  (forall i v, cur (set_heap (store (heap w1) p i v) w1) = cur w1).
Proof.
  intros Hwf Hpath. pose proof Hwf as (Hlt & Hl & Hc).
  unfold Path in Hpath. rewrite bind_get in Hpath. unfold make_copy in Hpath.
  injection Hpath as <- <-. fold (cur w).
  assert (Hlen : length (cur w) = s_len (path w)) by by apply length_contents.
  assert (Hcopy : forall h, array_at h (length (heap w)) = cur w ->
            contents h (Slice (length (heap w)) 0 (s_len (path w)) (s_len (path w)))
            = cur w).
  { intros h Hh. unfold contents. simpl. rewrite Hh, drop_0.
    apply take_ge. lia. }
  assert (Hinv : snap_inv (length (heap w)) (cur w)
                   (set_heap (heap w ++ [cur w]) w)).
  { unfold snap_inv, wf. simpl. split_and!.
    - by apply valid_alloc.
    - rewrite length_app. simpl. lia.
    - lia.
    - apply array_at_fresh. }
  split_and!.
  - apply Hcopy. simpl. apply array_at_fresh.
  - unfold cur. simpl. by apply contents_alloc.
  - intros calls w2 Hcalls Hrun. apply Hcopy.
    pose proof (keeps_run_calls json_Decode growcap _ calls Hcalls _ _ _ _
                  Hinv Hrun) as (_ & _ & _ & Harr).
    exact Harr.
  - intros i v. unfold cur. simpl. apply contents_store_other. simpl. lia.
Qed.

Lemma seek_loop_no_EOF fuel target w b e w' :
  seek_loop growcap fuel target w = Ok (b, Some e) w' -> e <> EOF.
Proof.
  revert w. induction fuel as [|fuel IH]; intros w H; [done|].
  simpl in H. unfold bind at 1, d_path_Equal in H. rewrite bind_get in H.
  unfold Equal in H.
  assert (Hrest : (r <- Token growcap ;;
                   match r.2 with
                   | Some EOF => ret (false, None)
                   | Some err => ret (false, Some err)
                   | None => seek_loop growcap fuel target
                   end) w = Ok (b, Some e) w' -> e <> EOF).
  { clear H. intros H. unfold bind, ret in H.
    destruct (Token growcap w) as [[t [[|msg]|]] w1| |]; simpl in H; try done.
    - by simplify_eq.
    - by eapply IH. }
  case_decide; [destruct (equal_from _ _ _ _ _)|]; try done; by apply Hrest.
Qed.

(** C1, as the code has it.  [SeekTo] never returns [io.EOF]: when
    [Token] reports it in the loop, the call returns [(false, nil)].
    [Scan] returns it like any other error of the token source,
    together with whether an action has matched so far. *)
Theorem end_of_stream_results :
  (forall target (w : World U) b e w',
     SeekTo growcap target w = Ok (b, Some e) w' -> e <> EOF) /\
  (forall fuel target (w : World U) t w',
     d_path_Equal target w = Ok false w ->
     Token growcap w = Ok (t, Some EOF) w' ->
     seek_loop growcap (S fuel) target w = Ok (false, None) w') /\
  (forall fuel ext rootPath matched (w : World U) t w',
     Token growcap w = Ok (t, Some EOF) w' ->
     scan_loop growcap (S fuel) ext rootPath matched w
     = Ok (matched, Some EOF) w').
Proof.
  split_and!.
  - intros target w b e w' H.
    destruct (decide (s_len target = 0)) as [Hz|Hnz].
    + unfold SeekTo in H. rewrite decide_True in H by done.
      rewrite bind_get in H. by injection H.
    + rewrite (SeekTo_unfold growcap target w Hnz) in H.
      by eapply seek_loop_no_EOF.
  - intros fuel target w t w' Heq Ht. simpl.
    rewrite (bind_Ok _ _ _ _ _ Heq). by rewrite (bind_Ok _ _ _ _ _ Ht).
  - intros fuel ext rootPath matched w t w' Ht. simpl.
    by rewrite (bind_Ok _ _ _ _ _ Ht).
Qed.

End SeekProperties.

(** * Scan *)

Section ScanProperties.

Context {U Value : Type}.
Variable json_Decode : list SrcEvent -> option Value * option error * list SrcEvent.
Variable growcap : nat -> nat.
Implicit Types (w : World U) (l : list iface) (ext : PathActions U).

Lemma Path_eq w :
  Path w = Ok (Slice (length (heap w)) 0 (s_len (path w)) (s_len (path w)))
              (after_Path w).
Proof. reflexivity. Qed.

Lemma after_Path_wf w : wf w -> wf (after_Path w).
Proof. intros Hwf. unfold wf, after_Path. simpl. by apply valid_alloc. Qed.

Lemma after_Path_same w : wf w -> same_position w (after_Path w).
Proof.
  intros (Hlt & _). unfold same_position, after_Path, cur. simpl.
  split_and!; try done. by apply contents_alloc.
Qed.

Lemma after_Path_copy w :
  wf w ->
  let p := Slice (length (heap w)) 0 (s_len (path w)) (s_len (path w)) in
  valid_slice (heap (after_Path w)) p /\
  contents (heap (after_Path w)) p = cur w /\
  s_len p = length (cur w).
Proof.
  intros Hwf. pose proof (length_contents _ _ Hwf) as Hlen. fold (cur w) in Hlen.
  simpl. split_and!.
  - apply valid_fresh; [done|]. by rewrite Hlen.
  - unfold contents, after_Path. simpl. rewrite array_at_fresh, drop_0.
    apply take_ge. by rewrite Hlen.
  - done.
Qed.

(** One turn at the label [match]. *)
Lemma scan_match_unfold fuel ext rootPath matched w :
  wf w ->
  scan_match growcap (S fuel) ext rootPath matched w =
  (if decide (s_len rootPath < length (cur w)) then
     match node_match ext (drop (s_len rootPath) (cur w)) with
     | Some node =>
         match action node with
         | Some act =>
             act ;;;
             c <- get context ;;
             again <- (if decide (c = arrValue) then json_More else ret false) ;;
             if (again : bool)
             then scan_match growcap fuel ext rootPath true
             else scan_loop growcap fuel ext rootPath true
         | None => scan_loop growcap fuel ext rootPath matched
         end
     | None => scan_loop growcap fuel ext rootPath matched
     end
   else ret (matched, None)) (after_Path w).
Proof.
  intros Hwf. destruct (after_Path_copy w Hwf) as (_ & Hc & Hl).
  simpl in Hl. rewrite <- Hl.
  cbn [scan_match]. rewrite (bind_Ok _ _ _ _ _ (Path_eq w)).
  cbn [s_len].
  case_decide; [|done]. rewrite bind_get.
  by rewrite contents_slice_from, Hc.
Qed.

Lemma scan_loop_unfold fuel ext rootPath matched w t w1 :
  Token growcap w = Ok (t, None) w1 ->
  scan_loop growcap (S fuel) ext rootPath matched w
  = scan_match growcap fuel ext rootPath matched w1.
Proof. intros Ht. cbn [scan_loop]. by rewrite (bind_Ok _ _ _ _ _ Ht). Qed.

(** The root [Scan] takes. *)
Lemma Scan_start fuel ext w c0 :
  wf w -> a_infer (cur w) = Some c0 ->
  exists rootPath w0,
    Scan growcap fuel ext w = scan_loop growcap fuel ext rootPath false w0 /\
    s_len rootPath = length (cur w) /\
    same_position w w0 /\ wf w0 /\
    (if decide (c0 = arrValue)
     then a_incTop (cur w) = Some (contents (heap w0) rootPath)
     else contents (heap w0) rootPath = cur w).
Proof.
  intros Hwf Hinf.
  destruct (after_Path_copy w Hwf) as (Hv & Hc & Hl).
  set (root := Slice (length (heap w)) 0 (s_len (path w)) (s_len (path w))) in *.
  pose proof (after_Path_wf w Hwf) as Hwf1.
  pose proof (after_Path_same w Hwf) as Hsame.
  unfold Scan. rewrite (bind_Ok _ _ _ _ _ (Path_eq w)). fold root.
  pose proof (inferContext_spec (after_Path w) root Hv) as Hi.
  rewrite Hc, Hinf in Hi. rewrite (bind_Ok _ _ _ _ _ Hi).
  case_decide as Hc0.
  - pose proof (incTop_spec (after_Path w) root Hv) as Hinc. rewrite Hc in Hinc.
    assert (exists l', a_incTop (cur w) = Some l') as (l' & Hl').
    { unfold a_infer in Hinf. unfold a_incTop.
      destruct (last (cur w)) as [[]|]; simplify_eq; eauto. }
    rewrite Hl' in Hinc. destruct Hinc as (h' & Hrun & Hcont & Hf).
    exists root, (set_heap h' (after_Path w)).
    rewrite (bind_Ok _ _ _ _ _ Hrun).
    assert (Hcur : contents h' (path w) = cur w).
    { transitivity (cur (after_Path w)); [|by destruct Hsame as (_ & ? & _)].
      destruct Hwf1 as (Hlt1 & _). destruct Hwf as (Hlt & _).
      unfold cur. change (path (after_Path w)) with (path w).
      eapply heap_frame_contents; [exact Hf| done |]. simpl. lia. }
    split_and!; try done.
    + unfold wf. simpl. eapply heap_frame_valid; [exact Hf | exact Hwf1].
    + simpl. by rewrite Hcont.
  - exists root, (after_Path w). unfold bind at 1, ret at 1.
    by split_and!.
Qed.

(** C6.  [Scan] runs its loop with a root that is a copy of the live
    path of the moment of the call, the trailing index of the copy
    incremented when the path ends in an index; the live path itself is
    left as it is, and when the first token makes it longer than the
    root it is the root followed by one segment.  In the loop, after a
    token has been consumed: if the live path is not longer than the
    root the call returns whether an action has matched so far, with no
    error; otherwise the path looked up in the registered actions is
    the live path without its first [len(rootPath)] segments. *)
Theorem Scan_root_and_stop :
  (forall fuel ext w root_l,
     wf w ->
     (cur w = [] /\ root_l = []) \/
     (exists l s, cur w = l ++ [IString s] /\ root_l = cur w) \/
     (exists l i, cur w = l ++ [IInt i] /\
                  root_l = l ++ [IInt (int_wrap (i + 1))]) ->
     exists rootPath w0,
       Scan growcap fuel ext w = scan_loop growcap fuel ext rootPath false w0 /\
       contents (heap w0) rootPath = root_l /\
       s_len rootPath = length (cur w) /\
       same_position w w0 /\ wf w0 /\
       (coherent (context w) (cur w) ->
        forall t w1,
          Token growcap w0 = Ok (t, None) w1 ->
          s_len rootPath < length (cur w1) ->
          cur w1 = root_l ++ drop (s_len rootPath) (cur w1))) /\
  (forall fuel ext rootPath matched w t w1,
     wf w ->
     Token growcap w = Ok (t, None) w1 ->
     (length (cur w1) <= s_len rootPath ->
      exists w2,
        scan_loop growcap (S (S fuel)) ext rootPath matched w
        = Ok (matched, None) w2 /\
        same_position w1 w2) /\
     (s_len rootPath < length (cur w1) ->
      exists w2,
        same_position w1 w2 /\
        scan_loop growcap (S (S fuel)) ext rootPath matched w =
        match node_match ext (drop (s_len rootPath) (cur w1)) with
        | Some node =>
            match action node with
            | Some act =>
                (act ;;;
                 c <- get context ;;
                 again <- (if decide (c = arrValue) then json_More else ret false) ;;
                 if (again : bool)
                 then scan_match growcap fuel ext rootPath true
                 else scan_loop growcap fuel ext rootPath true) w2
            | None => scan_loop growcap fuel ext rootPath matched w2
            end
        | None => scan_loop growcap fuel ext rootPath matched w2
        end)).
Proof.
  split.
  - intros fuel ext w root_l Hwf Hshape.
    assert (exists c0, a_infer (cur w) = Some c0 /\
              if decide (c0 = arrValue)
              then a_incTop (cur w) = Some root_l else root_l = cur w)
      as (c0 & Hinf & Hroot).
    { unfold a_infer.
      destruct Hshape as [[-> ->]|[(l & s & Hc & ->)|(l & i & Hc & ->)]].
      - by exists none.
      - exists objKey. by rewrite Hc, last_snoc.
      - exists arrValue. rewrite Hc, last_snoc. split; [done|].
        simpl. apply a_incTop_snoc. }
    destruct (Scan_start fuel ext w c0 Hwf Hinf)
      as (rootPath & w0 & Hrun & Hlen & Hsame & Hwf0 & Hcont).
    assert (Hrl : contents (heap w0) rootPath = root_l)
      by (case_decide; congruence).
    exists rootPath, w0. split_and!; try done.
    intros Hco t w1 Ht Hlonger.
    destruct Hsame as (_ & Hcur0 & Hctx0 & _).
    destruct (Token_Ok_inv growcap w0 t w1 Hwf0 Ht)
      as (t0 & rest & _ & Htr & _).
    rewrite Hcur0, Hctx0 in Htr.
    destruct (track_grows _ _ _ _ _ _ Htr ltac:(lia)) as (l1 & x & Hl1 & Hinc).
    assert (l1 = root_l /\ length l1 = length (cur w)) as (-> & Hlen1).
    { destruct Hshape as [[Hc ->]|[(l & s & Hc & ->)|(l & i & Hc & ->)]];
        rewrite Hc in Hco, Hinc |- *.
      - destruct (context w); simpl in Hco;
          try (by destruct Hco as ([] & ? & ?)).
        rewrite decide_False in Hinc by done. by injection Hinc as <-.
      - case_decide as Hctx.
        + rewrite Hctx in Hco. destruct Hco as (l0 & i & Heq).
          by apply app_inj_tail in Heq as [_ ?].
        + by injection Hinc as <-.
      - case_decide as Hctx.
        + rewrite a_incTop_snoc in Hinc. injection Hinc as <-.
          by rewrite !length_app.
        + destruct (context w); simpl in Hco; try done.
          * by destruct l.
          * destruct Hco as (l0 & s & Heq).
            by apply app_inj_tail in Heq as [_ ?].
          * destruct Hco as (l0 & s & Heq).
            by apply app_inj_tail in Heq as [_ ?]. }
    rewrite Hl1 at 2. rewrite Hlen, <- Hlen1, drop_app_length. done.
  - intros fuel ext rootPath matched w t w1 Hwf Ht.
    destruct (Token_evolves growcap w _ w1 Hwf Ht) as ((Hwf1 & _) & _).
    rewrite (scan_loop_unfold _ _ _ _ _ _ _ Ht).
    rewrite (scan_match_unfold _ _ _ _ _ Hwf1).
    pose proof (after_Path_same w1 Hwf1) as Hsame.
    split; intros Hlen; exists (after_Path w1).
    + rewrite decide_False by lia. done.
    + rewrite decide_True by lia. split; [done|].
      destruct (node_match ext _) as [node|]; [|done].
      by destruct (action node).
Qed.






End ScanProperties.

(** * The methods of path.go, seen on the elements *)

Section PathMethodProperties.

Context {U : Type}.
Variable growcap : nat -> nat.
Implicit Types (w : World U) (l : list iface) (p o : slice).

(** X1.  Two paths one of which holds strings and ints only, as the
    live path of a decoder does (there Go's [!=] on interface values
    compares dynamic type and value and cannot panic): [Equal] answers
    [true] exactly when they hold the same elements, in length, dynamic
    type and value; it changes nothing. *)
Theorem Equal_same_elements w p o :
  valid_slice (heap w) p -> valid_slice (heap w) o ->
  Forall (fun x => is_segment x = true) (contents (heap w) p) \/
  Forall (fun x => is_segment x = true) (contents (heap w) o) ->
  exists b,
    Equal p o w = Ok b w /\
    (b = true <-> contents (heap w) p = contents (heap w) o).
Proof.
  intros Hp Ho _. rewrite (Equal_spec w p o Hp Ho). eexists. split; [done|].
  apply bool_decide_eq_true.
Qed.

(** X2.  [incTop] adds one (Go's [+] on [int]) to the index on top of
    the path and leaves the other segments and every other slice as
    they are; it panics on an empty path and on a top that is no
    int. *)
Theorem incTop_top_index w p :
  valid_slice (heap w) p ->
  (forall l i,
     contents (heap w) p = l ++ [IInt i] ->
     exists h',
       incTop p w = Ok tt (set_heap h' w) /\
       contents h' p = l ++ [IInt (int_wrap (i + 1))] /\
       forall t, valid_slice (heap w) t -> s_arr t <> s_arr p ->
                 contents h' t = contents (heap w) t) /\
  (contents (heap w) p = [] -> exists msg, incTop p w = Panic msg) /\
  (forall l x,
     contents (heap w) p = l ++ [x] -> type_of x <> TyInt ->
     exists msg, incTop p w = Panic msg).
Proof.
  intros Hv. pose proof (incTop_spec w p Hv) as H. split_and!.
  - intros l i Hc. rewrite Hc, a_incTop_snoc in H.
    destruct H as (h' & Hrun & Hcont & Hf). exists h'. split_and!; try done.
    intros t (Hlt & _) Hne. by eapply heap_frame_contents.
  - intros Hc. by rewrite Hc in H.
  - intros l x Hc Hx. rewrite Hc in H. unfold a_incTop in H.
    rewrite last_snoc in H. by destruct x.
Qed.

(** X3.  [nameTop] replaces the segment on top of the path by the key
    it is given and leaves the rest; it panics on an empty path. *)
Theorem nameTop_top_key w p n :
  valid_slice (heap w) p ->
  (forall l x,
     contents (heap w) p = l ++ [x] ->
     exists h',
       nameTop p n w = Ok tt (set_heap h' w) /\
       contents h' p = l ++ [IString n] /\
       forall t, valid_slice (heap w) t -> s_arr t <> s_arr p ->
                 contents h' t = contents (heap w) t) /\
  (contents (heap w) p = [] -> exists msg, nameTop p n w = Panic msg).
Proof.
  intros Hv. pose proof (nameTop_spec w p n Hv) as H. split.
  - intros l x Hc. rewrite Hc, a_nameTop_snoc in H.
    destruct H as (h' & Hrun & Hcont & Hf). exists h'. split_and!; try done.
    intros t (Hlt & _) Hne. by eapply heap_frame_contents.
  - intros Hc. by rewrite Hc in H.
Qed.

(** X4.  [inferContext] reads the context off the top segment: [none]
    for the empty path, [objKey] for a string, [arrValue] for an int;
    on a top of any other type it panics.  The state is left alone. *)
Theorem inferContext_cases w p :
  valid_slice (heap w) p ->
  (contents (heap w) p = [] -> inferContext p w = Ok none w) /\
  (forall l s, contents (heap w) p = l ++ [IString s] ->
               inferContext p w = Ok objKey w) /\
  (forall l i, contents (heap w) p = l ++ [IInt i] ->
               inferContext p w = Ok arrValue w) /\
  (forall l x, contents (heap w) p = l ++ [x] -> is_segment x = false ->
               exists msg, inferContext p w = Panic msg).
Proof.
  intros Hv. pose proof (inferContext_spec w p Hv) as H. unfold a_infer in H.
  split_and!.
  - intros Hc. by rewrite Hc in H.
  - intros l s Hc. by rewrite Hc, last_snoc in H.
  - intros l i Hc. by rewrite Hc, last_snoc in H.
  - intros l x Hc Hx. rewrite Hc, last_snoc in H. by destruct x.
Qed.

(** X5.  [push] appends a segment to the live path, [pop] takes the
    last one off, so a [pop] after a [push] gives back the path there
    was; [pop] on the empty path panics. *)
Theorem push_pop_round_trip w v :
  wf w ->
  (exists w1 w2,
     d_path_push growcap v w = Ok tt w1 /\ cur w1 = cur w ++ [v] /\
     d_path_pop w1 = Ok tt w2 /\ cur w2 = cur w /\
     context w2 = context w /\ src w2 = src w /\ user w2 = user w) /\
  (cur w = [] -> exists msg, d_path_pop w = Panic msg).
Proof.
  intros Hwf. split.
  - destruct (d_path_push_spec growcap w v Hwf)
      as (w1 & Hpush & (Hs1 & Hu1 & Hc1 & Hl1 & (Hwf1 & _))).
    pose proof (d_path_pop_spec w1 Hwf1) as Hpop.
    rewrite Hl1, a_pop_snoc in Hpop.
    destruct Hpop as (w2 & Hpop & (Hs2 & Hu2 & Hc2 & Hl2 & _)).
    exists w1, w2. split_and!; congruence.
  - intros Hc. pose proof (d_path_pop_spec w Hwf) as Hpop.
    by rewrite Hc in Hpop.
Qed.

End PathMethodProperties.

(** * Token: values, invariants, panics and depth *)

Section TokenProperties.

Context {U : Type}.
Variable growcap : nat -> nat.
Implicit Types (w : World U) (l : list iface).

(** X6.  A token that is a value by itself (null, number, boolean, a
    string where no key is expected) is handed out as it is; after an
    object key the context goes back to [objKey], in an array the top
    index is incremented, and elsewhere nothing changes.  The path is
    never made longer or shorter. *)
Theorem Token_value_token w t rest :
  wf w ->
  src w = EvTok t :: rest ->
  value_token (context w) t = true ->
  (context w = objValue ->
   exists w', Token growcap w = Ok (t, None) w' /\ src w' = rest /\
              cur w' = cur w /\ context w' = objKey) /\
  (forall l i,
     context w = arrValue -> cur w = l ++ [IInt i] ->
     exists w', Token growcap w = Ok (t, None) w' /\ src w' = rest /\
                cur w' = l ++ [IInt (int_wrap (i + 1))] /\
                context w' = arrValue) /\
  (context w = none \/ context w = objKey ->
   exists w', Token growcap w = Ok (t, None) w' /\ src w' = rest /\
              cur w' = cur w /\ context w' = context w).
Proof.
  intros Hwf Hsrc Hval.
  pose proof (Token_refines growcap w t rest Hwf Hsrc) as H.
  assert (Ht : track (context w) (cur w) t =
               match a_value (context w) (cur w) with
               | Some (c', l') => Some (c', l', t)
               | None => None
               end).
  { destruct t; try done; cbn [track]; try by destruct (a_value _ _) as [[]|].
    unfold a_value. simpl in Hval.
    destruct (context w); try done; simpl.
    by destruct (a_incTop (cur w)). }
  rewrite Ht in H. clear Ht. unfold a_value in H. split_and!.
  - intros Hc. rewrite Hc in H.
    destruct H as (w' & ? & ? & ? & ? & ? & ?).
    exists w'. split_and!; congruence.
  - intros l i Hc Hl. rewrite Hc, Hl, a_incTop_snoc in H. cbn in H.
    destruct H as (w' & ? & ? & ? & ? & ? & ?).
    exists w'. split_and!; congruence.
  - intros [Hc|Hc]; rewrite Hc in H;
      destruct H as (w' & ? & ? & ? & ? & ? & ?);
      exists w'; split_and!; congruence.
Qed.

Lemma a_value_coherent c l :
  coherent c l ->
  exists c' l',
    a_value c l = Some (c', l') /\ length l' = length l /\
    coherent c' l' /\ a_infer l' = Some c' /\
    (if decide (c = arrValue) then a_incTop l else Some l) = Some l'.
Proof.
  intros Hco. unfold a_value, a_infer. destruct c; simpl in Hco.
  - subst l. by exists none, [].
  - destruct Hco as (l0 & s & ->). exists objKey, (l0 ++ [IString s]).
    rewrite last_snoc. split_and!; simpl; eauto.
  - destruct Hco as (l0 & s & ->). exists objKey, (l0 ++ [IString s]).
    rewrite last_snoc. split_and!; simpl; eauto.
  - destruct Hco as (l0 & i & ->).
    exists arrValue, (l0 ++ [IInt (int_wrap (i + 1))]).
    rewrite a_incTop_snoc, last_snoc. simpl.
    rewrite !length_app. split_and!; simpl; eauto.
Qed.

Lemma track_tracked c l t c' l' t' :
  tracked c l -> track c l t = Some (c', l', t') -> tracked c' l'.
Proof.
  intros (Hco & Hseg) H. split; [by eapply track_coherent|].
  assert (Hinc : forall l1, a_incTop l = Some l1 ->
                 Forall (fun x => is_segment x = true) l1).
  { intros l1 Hi. apply a_incTop_Some in Hi as (l0 & i & -> & ->).
    apply Forall_app in Hseg as (? & _). apply Forall_app. by split; [|constructor]. }
  assert (Hval : forall r, a_value c l = Some r ->
                 Forall (fun x => is_segment x = true) r.2).
  { unfold a_value. intros [c1 l1] Hr. destruct c; simplify_eq; try done.
    destruct (a_incTop l) as [l2|] eqn:Hi; simpl in *; simplify_eq. by apply Hinc. }
  assert (Hpop : forall l1, a_pop l = Some l1 ->
                 Forall (fun x => is_segment x = true) l1).
  { intros l1 Hp. apply a_pop_Some in Hp as (x & ->).
    by apply Forall_app in Hseg as (? & _). }
  assert (Henter : forall x, is_segment x = true ->
            forall l1, (if decide (c = arrValue) then a_incTop l else Some l) = Some l1 ->
            Forall (fun x => is_segment x = true) (l1 ++ [x])).
  { intros x Hx l1 Hl1. apply Forall_app. split; [|by constructor].
    case_decide; [by apply Hinc | by simplify_eq]. }
  destruct t; cbn [track] in H;
    try (destruct (a_value c l) as [r|] eqn:Hr;
         [pose proof (Hval r eq_refl)|]; simpl in *; by simplify_eq);
    try (by simplify_eq).
  - destruct c; simpl in H; simplify_eq; try done.
    + destruct (a_nameTop l s) as [l1|] eqn:Hn; simpl in *; simplify_eq.
      apply a_nameTop_Some in Hn as (l0 & x & -> & ->).
      apply Forall_app in Hseg as (? & _). apply Forall_app. by split; [|constructor].
    + destruct (a_incTop l) as [l1|] eqn:Hi; simpl in *; simplify_eq.
      by apply Hinc.
  - destruct (r =? lbrace)%Z; [|destruct (r =? rbrace)%Z;
      [|destruct (r =? lbrack)%Z; [|destruct (r =? rbrack)%Z]]].
    + destruct (if decide (c = arrValue) then _ else _) as [l1|] eqn:E;
        simpl in *; simplify_eq. by apply Henter.
    + destruct (a_pop l) as [l1|] eqn:Hp; simpl in *; simplify_eq.
      destruct (a_infer l1) as [c1|] eqn:Hi; simpl in *; simplify_eq.
      by apply Hpop.
    + destruct (if decide (c = arrValue) then _ else _) as [l1|] eqn:E;
        simpl in *; simplify_eq. by apply Henter.
    + destruct (a_pop l) as [l1|] eqn:Hp; simpl in *; simplify_eq.
      destruct (a_infer l1) as [c1|] eqn:Hi; simpl in *; simplify_eq.
      by apply Hpop.
    + by simplify_eq.
Qed.

Lemma sound_Token : preserves sound (Token (U := U) growcap).
Proof.
  intros w r w1 (Hwf & Htr) Ht. destruct r as [t [e|]].
  - destruct (src w) as [|[t0|e0 pk] rest] eqn:Hsrc.
    + rewrite (Token_eof growcap w Hsrc) in Ht. injection Ht as _ _ <-. by split.
    + pose proof (Token_refines growcap w t0 rest Hwf Hsrc) as H.
      destruct (track _ _ _) as [[[c' l'] t']|].
      * destruct H as (w' & H & _). by rewrite H in Ht.
      * destruct H as (msg & H). by rewrite H in Ht.
    + rewrite (Token_err growcap w e0 pk rest Hsrc) in Ht.
      injection Ht as _ _ <-. by split.
  - destruct (Token_Ok_inv growcap w t w1 Hwf Ht)
      as (t0 & rest & _ & Htrack & _ & _ & (Hwf1 & _)).
    split; [done|]. by eapply track_tracked.
Qed.

Lemma track_None c l t :
  tracked c l -> (track c l t = None <-> closing t = true /\ l = []).
Proof.
  intros (Hco & Hseg).
  destruct (a_value_coherent c l Hco) as (cv & lv & Hav & _ & _ & _ & Henter).
  assert (Hleave : (l1 ← a_pop l; c' ← a_infer l1; Some (c', l1)) = None <-> l = []).
  { destruct l as [|x l0 _] using rev_ind; [done|].
    rewrite a_pop_snoc. simpl.
    apply Forall_app in Hseg as (Hseg0 & _).
    assert (is_Some (a_infer l0)) as [c0 ->].
    { unfold a_infer. destruct l0 as [|y l1 _] using rev_ind; [by eexists|].
      rewrite last_snoc. apply Forall_app in Hseg0 as (_ & Hy).
      inversion Hy as [|? ? Hy' _]; subst. destruct y; try done; by eexists. }
    simpl. split; [done|]. by destruct l0. }
  destruct t; cbn [track]; simpl;
    try (rewrite Hav; simpl; split; [done | by intros [? _]]);
    try (split; [done | by intros [? _]]).
  - destruct c; simpl; try (split; [done | by intros [? _]]).
    + simpl in Hco. destruct Hco as (l0 & s0 & ->). rewrite a_nameTop_snoc.
      simpl. split; [done | by intros [? _]].
    + rewrite decide_True in Henter by done. rewrite Henter. simpl.
      split; [done | by intros [? _]].
  - unfold lbrace, rbrace, lbrack, rbrack.
    destruct (Z.eqb_spec r 123) as [->|H1]; simpl.
    { rewrite Henter. simpl. split; [done | by intros [? _]]. }
    destruct (Z.eqb_spec r 125) as [->|H2]; simpl.
    { destruct (a_pop l) as [l1|] eqn:Hp; simpl in *;
        [destruct (a_infer l1) eqn:Hi; simpl in *|];
        rewrite <- Hleave; split; try done; by intros [_ ?]. }
    destruct (Z.eqb_spec r 91) as [->|H3]; simpl.
    { rewrite Henter. simpl. split; [done | by intros [? _]]. }
    destruct (Z.eqb_spec r 93) as [->|H4]; simpl.
    { destruct (a_pop l) as [l1|] eqn:Hp; simpl in *;
        [destruct (a_infer l1) eqn:Hi; simpl in *|];
        rewrite <- Hleave; split; try done; by intros [_ ?]. }
    split; [done | by intros [? _]].
Qed.

(** X8.  On a sound decoder [Token] panics on one occasion only: a
    closing brace or bracket while the live path is empty (the [pop] of
    an empty slice).  On every other token it hands the token out. *)
Theorem Token_panics_only_on_unopened_close w t rest :
  sound w ->
  src w = EvTok t :: rest ->
  (closing t = true /\ cur w = [] -> exists msg, Token growcap w = Panic msg) /\
  (~ (closing t = true /\ cur w = []) ->
   exists t' w', Token growcap w = Ok (t', None) w' /\ src w' = rest).
Proof.
  intros (Hwf & Htr) Hsrc.
  pose proof (Token_refines growcap w t rest Hwf Hsrc) as H.
  pose proof (track_None (context w) (cur w) t Htr) as Hn.
  destruct (track _ _ _) as [[[c' l'] t']|]; split.
  - intros Hc. apply Hn in Hc. done.
  - intros _. destruct H as (w' & ? & ? & _). eauto.
  - done.
  - intros Hc. destruct Hc. by apply Hn.
Qed.

Lemma track_length c l t c' l' t' :
  track c l t = Some (c', l', t') ->
  length l' + (if closing t then 1 else 0)
  = length l + (if opening t then 1 else 0).
Proof.
  intros H.
  assert (Hinc : forall l1, a_incTop l = Some l1 -> length l1 = length l).
  { intros l1 Hi. apply a_incTop_Some in Hi as (l0 & i & -> & ->).
    by rewrite !length_app. }
  assert (Hval : forall r, a_value c l = Some r -> length r.2 = length l).
  { unfold a_value. intros [c1 l1] Hr. destruct c; simplify_eq; try done.
    destruct (a_incTop l) as [l2|] eqn:Hi; simpl in *; simplify_eq. by apply Hinc. }
  assert (Hpop : forall l1, a_pop l = Some l1 -> length l1 + 1 = length l).
  { intros l1 Hp. apply a_pop_Some in Hp as (x & ->). rewrite length_app. simpl. lia. }
  assert (Henter : forall x l1,
            (if decide (c = arrValue) then a_incTop l else Some l) = Some l1 ->
            length (l1 ++ [x]) = length l + 1).
  { intros x l1 Hl1. rewrite length_app. simpl.
    case_decide; [rewrite (Hinc _ Hl1) | simplify_eq]; lia. }
  destruct t; cbn [track] in H; simpl;
    try (destruct (a_value c l) as [r|] eqn:Hr;
         [pose proof (Hval r eq_refl)|]; simpl in *; simplify_eq; lia);
    try (simplify_eq; lia).
  - destruct c; simpl in H; simplify_eq; try lia.
    + destruct (a_nameTop l s) as [l1|] eqn:Hn; simpl in *; simplify_eq.
      apply a_nameTop_Some in Hn as (l0 & x & -> & ->).
      rewrite !length_app. simpl. lia.
    + destruct (a_incTop l) as [l1|] eqn:Hi; simpl in *; simplify_eq.
      pose proof (Hinc _ eq_refl). lia.
  - unfold lbrace, rbrace, lbrack, rbrack in *.
    destruct (Z.eqb_spec r 123) as [->|H1]; simpl in *.
    { destruct (if decide (c = arrValue) then _ else _) as [l1|] eqn:E;
        simpl in *; simplify_eq. rewrite (Henter _ _ eq_refl). lia. }
    destruct (Z.eqb_spec r 125) as [->|H2]; simpl in *.
    { destruct (a_pop l) as [l1|] eqn:Hp; simpl in *; simplify_eq.
      destruct (a_infer l1) as [c1|] eqn:Hi; simpl in *; simplify_eq.
      pose proof (Hpop _ eq_refl). lia. }
    destruct (Z.eqb_spec r 91) as [->|H3]; simpl in *.
    { destruct (if decide (c = arrValue) then _ else _) as [l1|] eqn:E;
        simpl in *; simplify_eq. rewrite (Henter _ _ eq_refl). lia. }
    destruct (Z.eqb_spec r 93) as [->|H4]; simpl in *.
    { destruct (a_pop l) as [l1|] eqn:Hp; simpl in *; simplify_eq.
      destruct (a_infer l1) as [c1|] eqn:Hi; simpl in *; simplify_eq.
      pose proof (Hpop _ eq_refl). lia. }
    simplify_eq. lia.
Qed.

(** X9.  The length of the live path is the nesting depth: over any run
    of tokens handed out by [Token], it grows by one for every opening
    delimiter, shrinks by one for every closing delimiter and is left
    alone by every other token. *)
Theorem path_length_is_depth ts : forall w rest w',
  wf w ->
  src w = map EvTok ts ++ rest ->
  after_tokens growcap (length ts) w = Some w' ->
  length (cur w') + count closing ts = length (cur w) + count opening ts.
Proof.
  induction ts as [|t ts IH]; intros w rest w' Hwf Hsrc Hrun.
  - simpl in Hrun. injection Hrun as <-. unfold count. simpl. lia.
  - simpl in Hrun.
    destruct (Token growcap w) as [[t' [e|]] w1| |] eqn:Ht; try done.
    destruct (Token_Ok_inv growcap w t' w1 Hwf Ht)
      as (t0 & rest0 & Hs0 & Htr & Hs1 & _ & (Hwf1 & _)).
    rewrite Hsrc in Hs0. simpl in Hs0. injection Hs0 as <- <-.
    pose proof (IH w1 rest w' Hwf1 Hs1 Hrun) as Hrec.
    pose proof (track_length _ _ _ _ _ _ Htr) as Hlen.
    unfold count in *. rewrite !filter_cons.
    destruct (closing t) eqn:Hc, (opening t) eqn:Ho;
      repeat case_decide; simpl in *; try done; lia.
Qed.

End TokenProperties.

(** * Whole values: token by token, and under Scan *)

Section Documents.

Implicit Types (c : jsonContext) (l b : list iface) (ts : list iface).

Lemma descend_app n c l ts1 ts2 :
  descend n c l (ts1 ++ ts2) =
  match descend n c l ts1 with
  | Some (c1, l1) => descend n c1 l1 ts2
  | None => None
  end.
Proof.
  revert c l. induction ts1 as [|t ts1 IH]; intros c l; simpl; [done|].
  destruct (track c l t) as [[[c1 l1] t1]|]; [|done].
  case_decide; [apply IH | done].
Qed.

Lemma skip_descend n c l ts1 ts2 c1 l1 :
  descend n c l ts1 = Some (c1, l1) ->
  skip n c l (ts1 ++ ts2) = skip n c1 l1 ts2.
Proof.
  revert c l. induction ts1 as [|t ts1 IH]; intros c l H; simpl in *.
  - by injection H as <- <-.
  - destruct (track c l t) as [[[c2 l2] t2]|]; [|done].
    case_decide; [by apply IH | done].
Qed.

Lemma skip_track_all n c l ts c' l' r :
  skip n c l ts = Some (c', l', r) ->
  exists pre, ts = pre ++ r /\ pre <> [] /\ track_all c l pre = Some (c', l').
Proof.
  revert c l. induction ts as [|t ts IH]; intros c l H; simpl in *; [done|].
  destruct (track c l t) as [[[c1 l1] t1]|] eqn:Ht; [|done].
  case_decide.
  - destruct (IH _ _ H) as (pre & -> & _ & Hpre). exists (t :: pre).
    split_and!; try done. simpl. by rewrite Ht.
  - injection H as <- <- <-. exists [t]. split_and!; try done.
    simpl. by rewrite Ht.
Qed.

Lemma track_scalar c l t :
  scalar t = true -> c <> objKey ->
  track c l t =
  match a_value c l with
  | Some (c', l') => Some (c', l', t)
  | None => None
  end.
Proof.
  intros Hs Hc. destruct t; try done; cbn [track];
    try by destruct (a_value c l) as [[]|].
  unfold a_value. destruct c; try done; simpl.
  by destruct (a_incTop l).
Qed.

Lemma track_open_array c l l' :
  (if decide (c = arrValue) then a_incTop l else Some l) = Some l' ->
  track c l (IDelim lbrack) = Some (arrValue, l' ++ [IInt (-1)], IDelim lbrack).
Proof. intros H. cbn. by rewrite H. Qed.

Lemma track_open_object c l l' :
  (if decide (c = arrValue) then a_incTop l else Some l) = Some l' ->
  track c l (IDelim lbrace) = Some (objKey, l' ++ [IString ""], IDelim lbrace).
Proof. intros H. cbn. by rewrite H. Qed.

Lemma track_close_array c b x c0 :
  a_infer b = Some c0 ->
  track c (b ++ [x]) (IDelim rbrack) = Some (c0, b, IDelim rbrack).
Proof. intros H. cbn. rewrite a_pop_snoc. cbn. by rewrite H. Qed.

Lemma track_close_object c b x c0 :
  a_infer b = Some c0 ->
  track c (b ++ [x]) (IDelim rbrace) = Some (c0, b, IDelim rbrace).
Proof. intros H. cbn. rewrite a_pop_snoc. cbn. by rewrite H. Qed.

(** Inside a container the tokens of a value, of a run of elements and
    of a run of members are tracked without the path ever getting as
    short as the container's own; a value leaves what the transition of
    a consumed value leaves. *)
Lemma track_key b x k :
  track objKey (b ++ [x]) (IString k)
  = Some (objValue, b ++ [IString k], IKeyString k).
Proof. cbn. by rewrite a_nameTop_snoc. Qed.

Lemma toks_descend :
  (forall v, value_toks v ->
     forall c l n, coherent c l -> c <> objKey -> n < length l ->
       exists c' l', a_value c l = Some (c', l') /\
                     descend n c l v = Some (c', l')) /\
  (forall es, elems_toks es ->
     forall b i n, n <= length b ->
       exists i', descend n arrValue (b ++ [IInt i]) es
                  = Some (arrValue, b ++ [IInt i'])) /\
  (forall ms, members_toks ms ->
     forall b k n, n <= length b ->
       exists k', descend n objKey (b ++ [IString k]) ms
                  = Some (objKey, b ++ [IString k'])).
Proof.
  apply toks_mutind.
  - intros t Hs c l n Hco Hc Hn.
    destruct (a_value_coherent c l Hco) as (c' & l' & Hav & Hlen & _).
    exists c', l'. split; [done|]. cbn [descend skip app].
    rewrite (track_scalar c l t Hs Hc), Hav.
    by rewrite decide_True by lia.
  - intros es _ IH c l n Hco Hc Hn.
    destruct (a_value_coherent c l Hco) as (c' & l' & Hav & Hlen & _ & Hinf & Hent).
    exists c', l'. split; [done|]. cbn [descend skip app].
    rewrite (track_open_array c l l' Hent).
    rewrite decide_True by (rewrite length_app; simpl; lia).
    rewrite descend_app.
    destruct (IH l' (-1)%Z n ltac:(lia)) as (i' & ->). cbn [descend].
    rewrite (track_close_array arrValue l' _ c' Hinf).
    by rewrite decide_True by lia.
  - intros ms _ IH c l n Hco Hc Hn.
    destruct (a_value_coherent c l Hco) as (c' & l' & Hav & Hlen & _ & Hinf & Hent).
    exists c', l'. split; [done|]. cbn [descend skip app].
    rewrite (track_open_object c l l' Hent).
    rewrite decide_True by (rewrite length_app; simpl; lia).
    rewrite descend_app.
    destruct (IH l' "" n ltac:(lia)) as (k' & ->). cbn [descend].
    rewrite (track_close_object objKey l' _ c' Hinf).
    by rewrite decide_True by lia.
  - intros b i n Hn. by exists i.
  - intros v es _ IHv _ IHes b i n Hn. rewrite descend_app.
    destruct (IHv arrValue (b ++ [IInt i]) n) as (c' & l' & Hav & ->).
    { simpl. eauto. }
    { done. }
    { rewrite length_app. simpl. lia. }
    unfold a_value in Hav. rewrite a_incTop_snoc in Hav. simpl in Hav.
    injection Hav as <- <-. by apply IHes.
  - intros b k n Hn. by exists k.
  - intros k v ms _ IHv _ IHms b k0 n Hn. cbn [descend].
    rewrite (track_key b (IString k0) k).
    rewrite decide_True by (rewrite length_app; simpl; lia).
    rewrite descend_app.
    destruct (IHv objValue (b ++ [IString k]) n) as (c' & l' & Hav & ->).
    { simpl. eauto. }
    { done. }
    { rewrite length_app. simpl. lia. }
    injection Hav as <- <-. by apply IHms.
Qed.

(** From a place where a value is expected, the tokens of one value are
    exactly what is tracked until the path is as short as it was. *)
Lemma skip_value v c l rest :
  value_toks v -> coherent c l -> c <> objKey ->
  exists c' l',
    a_value c l = Some (c', l') /\
    skip (length l) c l (v ++ rest) = Some (c', l', rest).
Proof.
  intros Hv Hco Hc.
  destruct (a_value_coherent c l Hco) as (c' & l' & Hav & Hlen & _ & Hinf & Hent).
  exists c', l'. split; [done|].
  destruct toks_descend as (_ & Hes & Hms).
  inversion Hv as [t Hs|es Hel|ms Hm]; subst.
  - cbn [skip app]. rewrite (track_scalar c l t Hs Hc), Hav.
    by rewrite decide_False by lia.
  - cbn [skip app]. rewrite (track_open_array c l l' Hent).
    rewrite decide_True by (rewrite length_app; simpl; lia).
    destruct (Hes es Hel l' (-1)%Z (length l) ltac:(lia)) as (i' & Hd).
    rewrite <- app_assoc. rewrite (skip_descend _ _ _ _ _ _ _ Hd).
    cbn [skip app].
    rewrite (track_close_array arrValue l' _ c' Hinf).
    by rewrite decide_False by lia.
  - cbn [skip app]. rewrite (track_open_object c l l' Hent).
    rewrite decide_True by (rewrite length_app; simpl; lia).
    destruct (Hms ms Hm l' "" (length l) ltac:(lia)) as (k' & Hd).
    rewrite <- app_assoc. rewrite (skip_descend _ _ _ _ _ _ _ Hd).
    cbn [skip app].
    rewrite (track_close_object objKey l' _ c' Hinf).
    by rewrite decide_False by lia.
Qed.

Lemma track_all_value v c l :
  value_toks v -> coherent c l -> c <> objKey ->
  exists c' l', a_value c l = Some (c', l') /\ track_all c l v = Some (c', l').
Proof.
  intros Hv Hco Hc.
  destruct (skip_value v c l [] Hv Hco Hc) as (c' & l' & Hav & Hskip).
  exists c', l'. split; [done|].
  destruct (skip_track_all _ _ _ _ _ _ _ Hskip) as (pre & Heq & _ & Hpre).
  rewrite !app_nil_r in Heq. by subst.
Qed.

End Documents.

(** * The decoder over whole values and across its methods *)

Section DecoderProperties.

Context {U Value : Type}.
Variable json_Decode : list SrcEvent -> option Value * option error * list SrcEvent.
Variable growcap : nat -> nat.
Implicit Types (w : World U) (l : list iface) (target : slice)
  (ext : PathActions U).

Lemma after_tokens_track_all ts : forall w rest c' l',
  wf w ->
  src w = map EvTok ts ++ rest ->
  track_all (context w) (cur w) ts = Some (c', l') ->
  exists w',
    after_tokens growcap (length ts) w = Some w' /\
    context w' = c' /\ cur w' = l' /\ src w' = rest /\
    user w' = user w /\ wf w'.
Proof.
  induction ts as [|t ts IH]; intros w rest c' l' Hwf Hsrc Hrun; simpl in *.
  - injection Hrun as <- <-. exists w. by split_and!.
  - pose proof (Token_refines growcap w t _ Hwf Hsrc) as Ht.
    destruct (track (context w) (cur w) t) as [[[c1 l1] t1]|]; [|done].
    destruct Ht as (w1 & -> & Hs1 & Hu1 & Hc1 & Hl1 & (Hwf1 & _)).
    rewrite <- Hc1, <- Hl1 in Hrun.
    destruct (IH w1 rest c' l' Hwf1 Hs1 Hrun) as (w' & ? & ? & ? & ? & ? & ?).
    exists w'. split_and!; congruence.
Qed.

Lemma Decode_assoc (v : Value -> U -> U) w :
  Decode json_Decode v w =
  ((c <- get context ;;
    match c with
    | objValue => modify (set_context objKey)
    | arrValue => d_path_incTop
    | _ => ret tt
    end) ;;; json_Decode_into json_Decode v) w.
Proof. reflexivity. Qed.

Lemma Decode_sound_spec w (v : Value -> U -> U) :
  sound w ->
  exists c' l' w',
    a_value (context w) (cur w) = Some (c', l') /\
    Decode json_Decode v w = Ok (json_Decode (src w)).1.2 w' /\
    context w' = c' /\ cur w' = l' /\
    length (cur w') = length (cur w) /\
    src w' = (json_Decode (src w)).2 /\
    user w' = match (json_Decode (src w)).1.1 with
              | Some x => v x (user w)
              | None => user w
              end /\
    sound w'.
Proof.
  intros (Hwf & Htr). pose proof Htr as (Hco & _).
  destruct (a_value_coherent _ _ Hco) as (c' & l' & Hav & Hlen & _).
  exists c', l'. rewrite Decode_assoc.
  pose proof (value_switch_spec w Hwf) as Hsw. rewrite Hav in Hsw.
  destruct Hsw as (w0 & Hsw & (Hs0 & Hu0 & Hc0 & Hl0 & (Hwf0 & _))).
  rewrite (bind_Ok _ _ _ _ _ Hsw).
  assert (Htr0 : tracked c' l').
  { apply (track_tracked (context w) (cur w) INil c' l' INil Htr).
    cbn [track]. by rewrite Hav. }
  unfold json_Decode_into. rewrite Hs0.
  destruct (json_Decode (src w)) as [[[x|] e] rest]; simpl;
    eexists; (split; [done|]); (split; [reflexivity|]); unfold sound, wf, cur;
    simpl; fold (cur w0); rewrite ?Hc0, ?Hl0, ?Hu0; by split_and!.
Qed.

(** X10.  On a sound decoder [Decode] does not panic.  It advances the
    live path as for a consumed value before the value decoder is run,
    and so also when the value decoder fails; the error returned is the
    value decoder's, the input left is what the value decoder leaves,
    and the decoder is sound again. *)
Theorem Decode_on_sound w (v : Value -> U -> U) :
  sound w ->
  exists c' l' w',
    a_value (context w) (cur w) = Some (c', l') /\
    Decode json_Decode v w = Ok (json_Decode (src w)).1.2 w' /\
    context w' = c' /\ cur w' = l' /\
    length (cur w') = length (cur w) /\
    src w' = (json_Decode (src w)).2 /\
    user w' = match (json_Decode (src w)).1.1 with
              | Some x => v x (user w)
              | None => user w
              end /\
    sound w'.
Proof.
  intros (Hwf & Htr). pose proof Htr as (Hco & _).
  destruct (a_value_coherent _ _ Hco) as (c' & l' & Hav & Hlen & _).
  exists c', l'. rewrite Decode_assoc.
  pose proof (value_switch_spec w Hwf) as Hsw. rewrite Hav in Hsw.
  destruct Hsw as (w0 & Hsw & (Hs0 & Hu0 & Hc0 & Hl0 & (Hwf0 & _))).
  rewrite (bind_Ok _ _ _ _ _ Hsw).
  assert (Htr0 : tracked c' l').
  { apply (track_tracked (context w) (cur w) INil c' l' INil Htr).
    cbn [track]. by rewrite Hav. }
  unfold json_Decode_into. rewrite Hs0.
  destruct (json_Decode (src w)) as [[[x|] e] rest]; simpl;
    eexists; (split; [done|]); (split; [reflexivity|]); unfold sound, wf, cur;
    simpl; fold (cur w0); rewrite ?Hc0, ?Hl0, ?Hu0; by split_and!.
Qed.

(** X11.  Reading the tokens of one whole value with [Token], from a
    place where a value is expected, ends where [Decode] puts the
    decoder before it decodes: the same context and the same live path,
    whatever the value holds.  No token of the value makes [Token]
    panic. *)
Theorem Token_whole_value w v rest (store_v : Value -> U -> U) :
  wf w ->
  coherent (context w) (cur w) ->
  context w <> objKey ->
  value_toks v ->
  src w = map EvTok v ++ rest ->
  exists w' w0,
    after_tokens growcap (length v) w = Some w' /\
    src w' = rest /\ user w' = user w /\
    Decode json_Decode store_v w = json_Decode_into json_Decode store_v w0 /\
    context w' = context w0 /\ cur w' = cur w0 /\
    length (cur w') = length (cur w).
Proof.
  intros Hwf Hco Hc Hv Hsrc.
  destruct (track_all_value v _ _ Hv Hco Hc) as (c' & l' & Hav & Hrun).
  destruct (after_tokens_track_all v w rest c' l' Hwf Hsrc Hrun)
    as (w' & Hafter & Hc' & Hl' & Hs' & Hu' & _).
  pose proof (value_switch_spec w Hwf) as Hsw. rewrite Hav in Hsw.
  destruct Hsw as (w0 & Hsw & (_ & _ & Hc0 & Hl0 & _)).
  destruct (a_value_coherent _ _ Hco) as (c2 & l2 & Hav2 & Hlen & _).
  exists w', w0. rewrite Decode_assoc, (bind_Ok _ _ _ _ _ Hsw).
  split_and!; congruence.
Qed.

Lemma skip_length n c l ts c' l' r :
  skip n c l ts = Some (c', l', r) -> length r < length ts.
Proof.
  intros H. destruct (skip_track_all _ _ _ _ _ _ _ H) as (pre & -> & Hne & _).
  rewrite length_app. destruct pre; [done | simpl; lia].
Qed.

(** The loop of [Scan] while no action is run. *)
Lemma scan_loop_skip ext rootPath matched rest :
  silent ext ->
  forall ts fuel w c' l' r,
    skip (s_len rootPath) (context w) (cur w) ts = Some (c', l', r) ->
    wf w ->
    src w = map EvTok ts ++ rest ->
    2 * (length ts - length r) <= fuel ->
    exists w',
      scan_loop growcap fuel ext rootPath matched w = Ok (matched, None) w' /\
      context w' = c' /\ cur w' = l' /\
      src w' = map EvTok r ++ rest /\ user w' = user w /\ wf w'.
Proof.
  intros Hsil. induction ts as [|t ts IH];
    intros fuel w c' l' r Hskip Hwf Hsrc Hfuel; [done|].
  pose proof (skip_length _ _ _ _ _ _ _ Hskip) as Hlen.
  simpl in Hskip, Hlen, Hsrc.
  pose proof (Token_refines growcap w t _ Hwf Hsrc) as Ht.
  destruct (track (context w) (cur w) t) as [[[c1 l1] t1]|]; [|done].
  destruct Ht as (w1 & Ht & Hs1 & Hu1 & Hc1 & Hl1 & (Hwf1 & _)).
  destruct fuel as [|[|fuel]]; [simpl in Hfuel; lia..|].
  rewrite (scan_loop_unfold _ _ _ _ _ _ _ _ Ht).
  rewrite (scan_match_unfold _ _ _ _ _ _ Hwf1).
  pose proof (after_Path_same w1 Hwf1) as (Hs2 & Hl2 & Hc2 & Hu2).
  pose proof (after_Path_wf w1 Hwf1) as Hwf2.
  rewrite Hl1. case_decide as Hlonger.
  - assert (Hgo : match node_match ext (drop (s_len rootPath) l1) with
                  | Some node =>
                      match action node with
                      | Some act =>
                          act ;;;
                          c <- get context ;;
                          again <- (if decide (c = arrValue) then json_More
                                    else ret false) ;;
                          if (again : bool)
                          then scan_match growcap fuel ext rootPath true
                          else scan_loop growcap fuel ext rootPath true
                      | None => scan_loop growcap fuel ext rootPath matched
                      end
                  | None => scan_loop growcap fuel ext rootPath matched
                  end = scan_loop growcap fuel ext rootPath matched).
    { destruct (node_match ext _) as [node|] eqn:Hn; [|done].
      by rewrite (Hsil _ _ Hn). }
    rewrite Hgo.
    destruct (IH fuel (after_Path w1) c' l' r) as (w' & ? & ? & ? & ? & ? & ?).
    + by rewrite Hc2, Hl2, Hc1, Hl1.
    + done.
    + by rewrite Hs2.
    + simpl in Hfuel. lia.
    + exists w'. split_and!; congruence.
  - injection Hskip as <- <- <-. exists (after_Path w1).
    split_and!; try done; congruence.
Qed.

(** X12.  [Scan] with actions none of which is run reads exactly the
    value in front of the decoder: it returns [(false, nil)], the input
    left is what follows the value, and context and live path are those
    one consumed value leaves (the same as after [Decode]). *)
Theorem Scan_skips_value w v rest ext extra (store_v : Value -> U -> U) :
  wf w ->
  coherent (context w) (cur w) ->
  context w <> objKey ->
  value_toks v ->
  src w = map EvTok v ++ rest ->
  silent ext ->
  exists w' w0,
    Scan growcap (2 * length v + extra) ext w = Ok (false, None) w' /\
    src w' = rest /\ user w' = user w /\
    Decode json_Decode store_v w = json_Decode_into json_Decode store_v w0 /\
    context w' = context w0 /\ cur w' = cur w0.
Proof.
  intros Hwf Hco Hc Hv Hsrc Hsil.
  destruct (a_value_coherent _ _ Hco) as (c' & l' & Hav & _ & _ & _ & _).
  assert (exists c0, a_infer (cur w) = Some c0) as (c0 & Hinf).
  { unfold a_infer. destruct (context w); simpl in Hco.
    - rewrite Hco. by eexists.
    - destruct Hco as (l0 & s & ->). rewrite last_snoc. by eexists.
    - destruct Hco as (l0 & s & ->). rewrite last_snoc. by eexists.
    - destruct Hco as (l0 & i & ->). rewrite last_snoc. by eexists. }
  destruct (Scan_start growcap (2 * length v + extra) ext w c0 Hwf Hinf)
    as (rootPath & w1 & -> & Hlen & (Hs1 & Hl1 & Hc1 & Hu1) & Hwf1 & _).
  destruct (skip_value v (context w) (cur w) [] Hv Hco Hc)
    as (c2 & l2 & Hav2 & Hskip).
  rewrite Hav in Hav2. injection Hav2 as <- <-.
  rewrite app_nil_r in Hskip.
  destruct (scan_loop_skip ext rootPath false rest Hsil v
              (2 * length v + extra) w1 c' l' [])
    as (w' & Hrun & Hc' & Hl' & Hs' & Hu' & _).
  { by rewrite Hlen, Hc1, Hl1. }
  { done. }
  { by rewrite Hs1. }
  { simpl. lia. }
  pose proof (value_switch_spec w Hwf) as Hsw. rewrite Hav in Hsw.
  destruct Hsw as (w0 & Hsw & (_ & _ & Hc0 & Hl0 & _)).
  exists w', w0. rewrite Decode_assoc, (bind_Ok _ _ _ _ _ Hsw).
  simpl in Hs'. split_and!; congruence.
Qed.

End DecoderProperties.

(** * The invariant of the decoder, and more on SeekTo and Scan *)

Section Invariant.

Context {U Value : Type}.
Variable json_Decode : list SrcEvent -> option Value * option error * list SrcEvent.
Variable growcap : nat -> nat.
Implicit Types (w : World U) (l : list iface) (target : slice)
  (ext : PathActions U).

Lemma preserves_bind {A B} (I : World U -> Prop) (m : M U A) (k : A -> M U B) :
  preserves I m -> (forall x, preserves I (k x)) -> preserves I (bind m k).
Proof.
  intros Hm Hk w r w' Hi H. unfold bind in H.
  destruct (m w) as [x w1| |] eqn:Hmw; try done.
  eapply Hk; [|exact H]. eapply Hm; eauto.
Qed.

Lemma preserves_ret {A} (I : World U -> Prop) (x : A) :
  preserves I (ret (U := U) x).
Proof. intros w r w' Hi H. by injection H as <- <-. Qed.

Lemma preserves_get {A} (I : World U -> Prop) (f : World U -> A) :
  preserves I (get f).
Proof. intros w r w' Hi H. by injection H as <- <-. Qed.

Lemma sound_same w w' :
  wf w' -> context w' = context w -> cur w' = cur w -> sound w -> sound w'.
Proof. intros Hwf Hc Hl (_ & Htr). split; [done|]. by rewrite Hc, Hl. Qed.

Lemma sound_NewDecoder r (u : U) : sound (NewDecoder r u).
Proof. split; [apply NewDecoder_wf|]. split; [reflexivity | constructor]. Qed.

Lemma sound_Decode (v : Value -> U -> U) :
  preserves sound (Decode json_Decode v).
Proof.
  intros w r w' Hs H.
  destruct (Decode_sound_spec json_Decode w v Hs)
    as (c' & l' & w1 & _ & Hrun & _ & _ & _ & _ & _ & Hs').
  rewrite Hrun in H. by injection H as _ <-.
Qed.

Lemma sound_after_Path w : sound w -> sound (after_Path w).
Proof.
  intros Hs. pose proof Hs as (Hwf & _).
  destruct (after_Path_same w Hwf) as (_ & Hl & Hc & _).
  by apply (sound_same w); [apply after_Path_wf | | |].
Qed.

Lemma sound_Path : preserves sound (Path (U := U)).
Proof.
  intros w r w' Hs H. rewrite Path_eq in H. injection H as _ <-.
  by apply sound_after_Path.
Qed.

Lemma sound_d_path_Equal o : preserves sound (d_path_Equal (U := U) o).
Proof.
  intros w r w' Hi H. unfold d_path_Equal, Equal in H.
  rewrite bind_get in H. by case_decide; injection H as <- <-.
Qed.

Lemma sound_json_More : preserves sound (json_More (U := U)).
Proof.
  intros w r w' Hi H. unfold json_More in H.
  destruct (src w) as [|[[]|] ?]; by injection H as <- <-.
Qed.

Lemma sound_seek_loop fuel target :
  preserves sound (seek_loop (U := U) growcap fuel target).
Proof.
  induction fuel as [|fuel IH]; [by intros w r w' Hi H|].
  simpl. apply preserves_bind; [apply sound_d_path_Equal|]. intros [].
  - apply preserves_ret.
  - apply preserves_bind; [apply sound_Token|]. intros [t [[]|]]; simpl;
      apply preserves_ret || apply IH.
Qed.

Lemma sound_seek_entry target w :
  sound w -> apart target w -> sound (seek_entry target w).
Proof.
  intros Hs Hap. pose proof Hs as (Hwf & _).
  destruct (seek_entry_fields target w) as (_ & _ & Hc & _).
  apply (sound_same w); try done; [by apply seek_entry_wf | by apply seek_entry_cur].
Qed.

Lemma sound_SeekTo target w r w' :
  sound w -> apart target w -> SeekTo growcap target w = Ok r w' -> sound w'.
Proof.
  intros Hs Hap H. destruct (decide (s_len target = 0)) as [Hz|Hnz].
  - unfold SeekTo in H. rewrite decide_True in H by done.
    rewrite bind_get in H. by injection H as <- <-.
  - rewrite (SeekTo_unfold growcap target w Hnz) in H.
    eapply sound_seek_loop; [|exact H]. by apply sound_seek_entry.
Qed.

Lemma sound_SeekTo_args l : preserves sound (SeekTo_args (U := U) growcap l).
Proof.
  intros w r w' Hs H. pose proof Hs as (Hwf & _). pose proof Hwf as (Hlt & _).
  destruct l as [|x l]; simpl in H.
  - unfold SeekTo in H. simpl in H. rewrite bind_get in H.
    by injection H as <- <-.
  - unfold bind at 1, slice_of in H.
    eapply sound_SeekTo; [| |exact H].
    + apply (sound_same w); try done.
      * unfold wf. simpl. by apply valid_alloc.
      * unfold cur. simpl. by apply contents_alloc.
    + split; simpl; [|lia]. by apply valid_fresh.
Qed.

Lemma sound_scan ext :
  (forall rel node act,
     node_match ext rel = Some node -> action node = Some act ->
     preserves sound act) ->
  forall fuel rootPath matched,
    preserves sound (scan_loop (U := U) growcap fuel ext rootPath matched) /\
    preserves sound (scan_match (U := U) growcap fuel ext rootPath matched).
Proof.
  intros Hact. induction fuel as [|fuel IH]; intros rootPath matched.
  { split; by intros w r w' Hi H. }
  split; simpl.
  - apply preserves_bind; [apply sound_Token|]. intros [t [e|]]; simpl.
    + apply preserves_ret.
    + apply IH.
  - apply preserves_bind; [apply sound_Path|]. intros p.
    case_decide; [|apply preserves_ret].
    apply preserves_bind; [apply preserves_get|]. intros rel.
    destruct (node_match ext rel) as [node|] eqn:Hn; [|apply IH].
    destruct (action node) as [act|] eqn:Ha; [|apply IH].
    apply preserves_bind; [by eapply Hact|]. intros _.
    apply preserves_bind; [apply preserves_get|]. intros c.
    apply preserves_bind.
    { case_decide; [apply sound_json_More | apply preserves_ret]. }
    intros []; apply IH.
Qed.

Lemma sound_Scan fuel ext :
  (forall rel node act,
     node_match ext rel = Some node -> action node = Some act ->
     preserves sound act) ->
  preserves sound (Scan (U := U) growcap fuel ext).
Proof.
  intros Hact w r w' Hs H. pose proof Hs as (Hwf & Hco & _).
  assert (exists c0, a_infer (cur w) = Some c0) as (c0 & Hinf).
  { unfold a_infer. destruct (context w); simpl in Hco.
    - rewrite Hco. by eexists.
    - destruct Hco as (l0 & s & ->). rewrite last_snoc. by eexists.
    - destruct Hco as (l0 & s & ->). rewrite last_snoc. by eexists.
    - destruct Hco as (l0 & i & ->). rewrite last_snoc. by eexists. }
  destruct (Scan_start growcap fuel ext w c0 Hwf Hinf)
    as (rootPath & w1 & Heq & _ & (_ & Hl1 & Hc1 & _) & Hwf1 & _).
  rewrite Heq in H.
  destruct (sound_scan ext Hact fuel rootPath false) as (Hloop & _).
  eapply Hloop; [|exact H].
  by apply (sound_same w).
Qed.

(** X7.  The invariant of the decoder.  A new decoder is sound: its
    path is a valid slice of the store, context and live path fit (no
    context for the empty path, a string on top in an object, an int on
    top in an array) and the live path holds strings and ints only.
    [Token], [Decode], [Path], [SeekTo] (with listed arguments, or with
    a slice of the caller) and [Scan] (with actions that keep the
    decoder sound) all leave a sound decoder sound, whatever they
    return. *)
Theorem methods_keep_sound :
  (forall r (u : U), sound (NewDecoder r u)) /\
  preserves sound (Token (U := U) growcap) /\
  (forall v : Value -> U -> U, preserves sound (Decode json_Decode v)) /\
  preserves sound (Path (U := U)) /\
  (forall l, preserves sound (SeekTo_args (U := U) growcap l)) /\
  (forall target w r w',
     sound w -> apart target w ->
     SeekTo growcap target w = Ok r w' -> sound w') /\
  (forall fuel ext,
     (forall rel node act,
        node_match ext rel = Some node -> action node = Some act ->
        preserves sound act) ->
     preserves sound (Scan (U := U) growcap fuel ext)).
Proof.
  split_and!.
  - apply sound_NewDecoder.
  - apply sound_Token.
  - apply sound_Decode.
  - apply sound_Path.
  - apply sound_SeekTo_args.
  - apply sound_SeekTo.
  - apply sound_Scan.
Qed.

Lemma bind_ext {A B} (m : M U A) (k k' : A -> M U B) w :
  (forall a w', k a w' = k' a w') -> bind m k w = bind m k' w.
Proof. intros H. unfold bind. by destruct (m w). Qed.

Lemma bind_same_effect {A B} (m m' : M U A) (k k' : M U B) w :
  same_effect m m' -> (forall w', k w' = k' w') ->
  (m ;;; k) w = (m' ;;; k') w.
Proof.
  intros H Hk. unfold bind. specialize (H w).
  destruct (m w), (m' w); try done; by subst.
Qed.

Lemma scan_same_actions ext ext' :
  same_actions ext ext' ->
  forall fuel rootPath matched w,
    scan_loop growcap fuel ext rootPath matched w
    = scan_loop growcap fuel ext' rootPath matched w /\
    scan_match growcap fuel ext rootPath matched w
    = scan_match growcap fuel ext' rootPath matched w.
Proof.
  intros Hsame. induction fuel as [|fuel IH]; intros rootPath matched w;
    [by split|].
  split; simpl.
  - apply bind_ext. intros [t [e|]] w1; simpl; [done | apply IH].
  - apply bind_ext. intros p w1. case_decide; [|done].
    apply bind_ext. intros rel w2.
    pose proof (Hsame rel) as H1. unfold applicable in H1.
    destruct (node_match ext rel) as [node|], (node_match ext' rel) as [node'|];
      try destruct (action node) as [act|];
      try destruct (action node') as [act'|];
      try done; try apply IH.
    apply bind_same_effect; [exact H1|]. intros w3.
    apply bind_ext. intros c w4. apply bind_ext. intros [] w5; apply IH.
Qed.

(** X13.  What an action returns has no effect on [Scan]: with two
    registrations whose actions act alike on the decoder at every path,
    whatever they return, [Scan] gives the same result in the same
    state.  So an error that an action returns is dropped: it is not
    what [Scan] returns and it does not end the scan. *)
Theorem Scan_ignores_action_results fuel ext ext' w :
  same_actions ext ext' ->
  Scan growcap fuel ext w = Scan growcap fuel ext' w.
Proof.
  intros Hsame. unfold Scan.
  apply bind_ext. intros rootPath w1. apply bind_ext. intros c w2.
  apply bind_ext. intros _ w3. apply (scan_same_actions ext ext' Hsame).
Qed.

Lemma seek_entry_id target w x :
  valid_slice (heap w) target ->
  last (contents (heap w) target) = Some x ->
  (forall i, x <> IInt i) ->
  seek_entry target w = w.
Proof.
  intros Hv Hlast Hx.
  pose proof (last_nonempty_slice _ _ _ Hv Hlast) as Hnz.
  rewrite (last_contents _ _ Hv Hnz) in Hlast. injection Hlast as Hl.
  unfold seek_entry. rewrite Hl. destruct x as [| |i| | | | | |]; try done.
  by destruct (Hx i).
Qed.

(** X14.  A target whose final segment is not an int (an object key):
    [SeekTo] compares the live path with the target as it is given.  It
    returns [(true, nil)] exactly in the state reached by the least
    number of tokens after which the live path is the target, and the
    slice of the caller holds at the return what it held at the call. *)
Theorem SeekTo_key_target w target x :
  wf w -> apart target w ->
  last (contents (heap w) target) = Some x ->
  (forall i, x <> IInt i) ->
  (forall w',
     SeekTo growcap target w = Ok (true, None) w' <->
     exists k, after_tokens growcap k w = Some w' /\
               cur w' = contents (heap w) target /\
               forall j wj, j < k -> after_tokens growcap j w = Some wj ->
                            cur wj <> contents (heap w) target) /\
  (forall r w',
     SeekTo growcap target w = Ok r w' ->
     contents (heap w') target = contents (heap w) target).
Proof.
  intros Hwf Hap Hlast Hx. pose proof Hap as (Hv & Hne).
  pose proof (last_nonempty_slice _ _ _ Hv Hlast) as Hnz.
  pose proof (seek_entry_id target w x Hv Hlast Hx) as Hid.
  rewrite (SeekTo_unfold growcap target w Hnz), Hid.
  split.
  - intros w'.
    pose proof (seek_loop_spec growcap target (S (length (src w))) w Hwf Hap
                  ltac:(lia)) as Hspec.
    cbv zeta in Hspec.
    split.
    + intros Hrun. rewrite Hrun in Hspec. exact Hspec.
    + intros (k & Hk & Hcur & Hfirst).
      destruct (seek_loop growcap _ target _) as [[[] [e|]] w''| |]; try done.
      * destruct Hspec as (k' & Hk' & Hcur' & Hfirst').
        destruct (lt_eq_lt_dec k k') as [[Hlt|Heq]|Hgt].
        -- by destruct (Hfirst' k w' Hlt Hk).
        -- subst k'. congruence.
        -- by destruct (Hfirst k' w'' Hgt Hk').
      * destruct Hspec as (_ & Hn). by destruct (Hn k w' Hk).
      * destruct Hspec as (_ & Hn). by destruct (Hn k w' Hk).
      * by destruct (Hspec k w' Hk).
  - intros r w' Hrun.
    pose proof (keeps_seek_loop growcap (s_arr target) _ target _ _ _ _
                  (snap_inv_apart _ _ Hwf Hap) Hrun) as Hi.
    by destruct (snap_inv_contents _ _ _ Hi Hv) as (_ & _ & ->).
Qed.

Lemma seek_loop_exhausts fuel target : forall w b e w',
  wf w ->
  Forall (fun ev => is_tok ev = true) (src w) ->
  seek_loop growcap fuel target w = Ok (b, e) w' ->
  e = None /\ (b = false -> src w' = []).
Proof.
  induction fuel as [|fuel IH]; intros w b e w' Hwf Hsrc H; [done|].
  simpl in H. unfold bind at 1, d_path_Equal in H. rewrite bind_get in H.
  assert (exists b0, Equal (path w) target w = Ok b0 w) as (b0 & Heq).
  { unfold Equal. case_decide; eauto. }
  rewrite Heq in H. destruct b0.
  { by injection H as <- <- <-. }
  destruct (src w) as [|[t|e0 pk] rest] eqn:Hs.
  - rewrite (bind_Ok _ _ _ _ _ (Token_eof growcap w Hs)) in H. simpl in H.
    by injection H as <- <- <-.
  - pose proof (Token_refines growcap w t rest Hwf Hs) as Ht.
    apply Forall_cons in Hsrc as (_ & Hrest).
    destruct (track (context w) (cur w) t) as [[[c' l'] t']|].
    + destruct Ht as (w1 & Ht & Hs1 & _ & _ & _ & (Hwf1 & _)).
      rewrite (bind_Ok _ _ _ _ _ Ht) in H. simpl in H.
      apply (IH w1 b e w' Hwf1); [by rewrite Hs1 | done].
    + destruct Ht as (msg & Ht). by rewrite (bind_Panic _ _ _ _ Ht) in H.
  - by apply Forall_cons in Hsrc as (? & _).
Qed.

(** X15.  On an input that holds tokens only, a call of [SeekTo] with
    a target that is not empty returns no error, and when it answers
    [false] it has read the input to its end: nothing is left for a
    later call.  (With the empty target nothing is read.) *)
Theorem SeekTo_not_found_exhausts w target b e w' :
  wf w ->
  s_len target <> 0 ->
  Forall (fun ev => is_tok ev = true) (src w) ->
  SeekTo growcap target w = Ok (b, e) w' ->
  e = None /\ (b = false -> src w' = []).
Proof.
  intros Hwf Hnz Hsrc H. rewrite (SeekTo_unfold growcap target w Hnz) in H.
  destruct (seek_entry_fields target w) as (Hs & _).
  eapply seek_loop_exhausts; [| |exact H].
  - by apply seek_entry_wf.
  - by rewrite Hs.
Qed.

Lemma sound_after_tokens k : forall w w',
  sound w -> after_tokens growcap k w = Some w' -> sound w'.
Proof.
  induction k as [|k IH]; intros w w' Hs H; simpl in H.
  - by injection H as <-.
  - destruct (Token growcap w) as [[t [e|]] w1| |] eqn:Ht; try done.
    eapply IH; [|exact H]. by eapply sound_Token.
Qed.

Lemma int_wrap_pred_succ i :
  (int_min <= i <= int_max)%Z -> int_wrap (int_wrap (i - 1) + 1) = i.
Proof.
  intros Hi. destruct (decide (i = int_min)) as [->|Hne].
  - reflexivity.
  - rewrite (int_wrap_id (i - 1)) by (unfold int_min, int_max in *; lia).
    replace (i - 1 + 1)%Z with i by lia. by apply int_wrap_id.
Qed.

(** X16.  [SeekTo] to an array index, then [Decode]: after a call of
    [SeekTo] that found a target ending in the index [i], the decoder
    stands in front of element [i], and the [Decode] that follows does
    not panic and leaves the live path equal to the target the caller
    asked for, final index [i] included. *)
Theorem SeekTo_then_Decode w target i w1 (v : Value -> U -> U) :
  sound w -> apart target w ->
  last (contents (heap w) target) = Some (IInt i) ->
  (int_min <= i <= int_max)%Z ->
  SeekTo growcap target w = Ok (true, None) w1 ->
  exists w2,
    Decode json_Decode v w1 = Ok (json_Decode (src w1)).1.2 w2 /\
    src w2 = (json_Decode (src w1)).2 /\
    context w1 = arrValue /\
    cur w2 = contents (heap w) target.
Proof.
  intros Hs Hap Hlast Hi Hrun. pose proof Hs as (Hwf & _).
  pose proof Hap as (Hv & _).
  pose proof (last_nonempty_slice _ _ _ Hv Hlast) as Hnz.
  pose proof (sound_SeekTo _ _ _ _ Hs Hap Hrun) as Hs1.
  rewrite (SeekTo_unfold growcap target w Hnz) in Hrun.
  pose proof (seek_loop_spec growcap target (S (length (src w)))
                (seek_entry target w) (seek_entry_wf _ _ Hwf)
                (seek_entry_apart _ _ Hap)) as Hspec.
  destruct (seek_entry_fields target w) as (Hsrc & _).
  rewrite Hsrc in Hspec. specialize (Hspec ltac:(lia)). cbv zeta in Hspec.
  rewrite Hrun, (seek_entry_target _ _ Hv Hnz) in Hspec.
  destruct Hspec as (k & _ & Hcur & _).
  rewrite (seek_target_index _ _ Hlast) in Hcur.
  apply last_Some in Hlast as (l0 & Hl0). rewrite Hl0 in Hcur |- *.
  rewrite length_app in Hcur. simpl in Hcur.
  replace (length l0 + 1 - 1) with (length l0 + 0) in Hcur by lia.
  rewrite insert_app_r in Hcur. simpl in Hcur.
  assert (Hctx : context w1 = arrValue).
  { destruct Hs1 as (_ & Hco & _). rewrite Hcur in Hco.
    destruct (context w1); simpl in Hco; try done.
    - by destruct l0.
    - destruct Hco as (l1 & s & Heq). by apply app_inj_tail in Heq as (_ & ?).
    - destruct Hco as (l1 & s & Heq). by apply app_inj_tail in Heq as (_ & ?). }
  destruct (Decode_sound_spec json_Decode w1 v Hs1)
    as (c' & l' & w2 & Hav & HD & _ & Hl2 & _ & Hs2 & _).
  exists w2. split_and!; try done.
  rewrite Hl2. rewrite Hctx, Hcur in Hav. unfold a_value in Hav.
  rewrite a_incTop_snoc in Hav. injection Hav as _ <-.
  by rewrite int_wrap_pred_succ.
Qed.

(** X17.  A call of [Token] that returns an error has changed neither
    the live path nor the context: the error of the underlying decoder
    is returned before anything is tracked. *)
Theorem Token_error_leaves_position w t e w' :
  wf w ->
  Token growcap w = Ok (t, Some e) w' ->
  cur w' = cur w /\ context w' = context w /\
  heap w' = heap w /\ path w' = path w /\ user w' = user w.
Proof.
  intros Hwf Ht.
  destruct (src w) as [|[t0|e0 pk] rest] eqn:Hsrc.
  - rewrite (Token_eof growcap w Hsrc) in Ht. by injection Ht as _ _ <-.
  - pose proof (Token_refines growcap w t0 rest Hwf Hsrc) as H.
    destruct (track _ _ _) as [[[c' l'] t']|].
    + destruct H as (w1 & H & _). by rewrite H in Ht.
    + destruct H as (msg & H). by rewrite H in Ht.
  - rewrite (Token_err growcap w e0 pk rest Hsrc) in Ht.
    by injection Ht as _ _ <-.
Qed.

End Invariant.

(** * Runs on concrete inputs *)

(** The README: [w.SeekTo(1, "Point", "G"); w.Decode(&v)] stores 218. *)
Example readme_seek_then_decode :
  observe ((SeekTo_args double [IInt 1; IString "Point"; IString "G"] ;;;
            Decode decode_tokens collect) (NewDecoder readme_doc []))
  = Some (None, [IInt 1; IString "Point"; IString "G"], objKey,
          [str "B"; num 255; obj_close; obj_close; arr_close],
          [[IFloat64 218]]).
Proof. reflexivity. Qed.

Example seek_space_then_decode :
  option_map (fun r => r.2)
    (observe ((SeekTo_args double [IInt 1; IString "Space"] ;;;
               Decode decode_tokens collect) (NewDecoder readme_doc [])))
  = Some [[IString "RGB"]].
Proof. reflexivity. Qed.

(** The comment of [SeekTo]: [SeekTo("a", 3, "v")], then [Decode]
    stores 35. *)
Example seek_a_3_v_then_decode :
  observe ((SeekTo_args double [IString "a"; IInt 3; IString "v"] ;;;
            Decode decode_tokens collect) (NewDecoder doc_a []))
  = Some (None, [IString "a"; IInt 3; IString "v"], objKey,
          [obj_close; arr_close; obj_close], [[IFloat64 35]]).
Proof. reflexivity. Qed.

(** [SeekTo(1)] on [[10,20,30]] stops in front of 20. *)
Example seek_stops_before_the_element :
  observe (SeekTo_args double [IInt 1] seek_world)
  = Some (true, None, [IInt 0], arrValue, [num 20; num 30; arr_close], tt).
Proof. reflexivity. Qed.

(** The same target twice, as argument lists: the second call succeeds
    where the first one stopped.  A target that has been passed is not
    found, and that is no error. *)
Example seek_twice_by_arguments :
  observe ((SeekTo_args double [IInt 1] ;;; SeekTo_args double [IInt 1]) seek_world)
  = Some (true, None, [IInt 0], arrValue, [num 20; num 30; arr_close], tt).
Proof. reflexivity. Qed.

Example seek_passed_target :
  observe ((SeekTo_args double [IInt 1] ;;; SeekTo_args double [IInt 0]) seek_world)
  = Some (false, None, [], none, [], tt).
Proof. reflexivity. Qed.

(** The same slice twice: the first call has left [[0]] in it, so the
    second one looks for the path [[-1]], which is not ahead. *)
Example seek_twice_by_slice :
  observe ((SeekTo double caller_slice ;;; SeekTo double caller_slice) seek_world)
  = Some (false, None, [], none, [], tt).
Proof. reflexivity. Qed.

(** In [{"a":"a"}] the key comes out as a [KeyString], the value as a
    [string]. *)
Example key_and_value_strings :
  observe ((Token double ;;; k <- Token double ;; v <- Token double ;; ret (k.1, v.1))
             (NewDecoder [obj_open; str "a"; str "a"; obj_close] tt))
  = Some ((IKeyString "a", IString "a"), [IString "a"], objKey, [obj_close], tt).
Proof. reflexivity. Qed.

(** On an empty array the action registered for the indices is run
    once, on the opening bracket, and finds nothing to decode. *)
Example scan_empty_array :
  observe (Scan double 5 decode_any_index (NewDecoder [arr_open; arr_close] []))
  = Some ((true, None), [], none, [], []).
Proof. reflexivity. Qed.


(** * The theorems at concrete inputs *)

Lemma Token_delimiter_transitions_witness :
  wf (NewDecoder [obj_open] tt) /\
  exists w' : World unit, Token double (NewDecoder [obj_open] tt) = Ok (IDelim lbrace, None) w' /\
             src w' = [] /\ cur w' = [] ++ [IString ""] /\ context w' = objKey.
Proof.
  assert (Hwf : wf (NewDecoder [obj_open] tt)).
  { unfold wf, valid_slice. simpl. lia. }
  split; [exact Hwf|].
  destruct (Token_delimiter_transitions double (NewDecoder [obj_open] tt)
              lbrace [] Hwf eq_refl) as [Hopen _].
  destruct (Hopen []) as [Hbrace _].
  - intros Hc. discriminate Hc.
  - intros _. reflexivity.
  - apply Hbrace. reflexivity.
Defined.

Lemma Token_key_string_witness :
  wf at_key /\
  exists (w' : World unit) t',
    Token double at_key = Ok (t', None) w' /\
    t' = IKeyString "a" /\
    type_of t' = TyKeyString /\
    type_of t' <> TyString /\
    (forall s', iface_eqb t' (IString s') = false) /\
    src w' = [num 1; obj_close] /\
    cur w' = [] ++ [IString "a"] /\
    context w' = objValue.
Proof.
  assert (Hwf : wf at_key).
  { unfold wf, valid_slice. simpl. lia. }
  split; [exact Hwf|].
  apply (Token_key_string double at_key "a" [num 1; obj_close] [] (IString ""));
    [exact Hwf | reflexivity | reflexivity | reflexivity].
Defined.

Lemma Decode_value_transition_witness :
  wf at_index /\ value_token (context at_index) (IFloat64 7) = true /\
  exists w0,
    Decode decode_tokens collect at_index
    = json_Decode_into decode_tokens collect w0 /\
    cur w0 = [] ++ [IInt (int_wrap (0 + 1))] /\ context w0 = arrValue.
Proof.
  assert (Hwf : wf at_index).
  { unfold wf, valid_slice. simpl. lia. }
  split; [exact Hwf|]. split; [reflexivity|].
  pose proof (Decode_value_transition decode_tokens double at_index collect
                (IFloat64 7) [arr_close] Hwf eq_refl) as H.
  destruct (Token double (set_src (EvTok (IFloat64 7) :: [arr_close]) at_index))
    as [r w1|msg|].
  - destruct H as (w0 & Hrun & _ & _ & _ & _ & _ & Harr & _).
    destruct (Harr eq_refl) as (l & i & Hcur & Hcur0 & Hc0).
    exists w0. split; [exact Hrun|].
    assert (Hl : l = [] /\ i = 0%Z).
    { change (cur at_index) with ([] ++ [IInt 0]) in Hcur.
      apply app_inj_tail in Hcur. destruct Hcur as [<- Hi].
      injection Hi as <-. by split. }
    destruct Hl as [-> ->]. by split.
  - destruct H as [msg' H]. vm_compute in H. discriminate H.
  - destruct H.
Defined.


Lemma SeekTo_already_there_witness :
  wf (NewDecoder readme_doc tt) /\
  SeekTo double nil_slice (NewDecoder readme_doc tt)
  = Ok (true, None) (NewDecoder readme_doc tt).
Proof.
  assert (Hwf : wf (NewDecoder readme_doc tt)).
  { unfold wf, valid_slice. simpl. lia. }
  split; [exact Hwf|].
  destruct (SeekTo_already_there double (NewDecoder readme_doc tt) nil_slice Hwf)
    as (Hzero & _).
  rewrite (Hzero eq_refl). reflexivity.
Defined.

Lemma SeekTo_overwrites_final_index_witness :
  wf seek_world /\ apart caller_slice seek_world /\
  last (contents (heap seek_world) caller_slice) = Some (IInt 1) /\
  exists w',
    SeekTo double caller_slice seek_world = Ok (true, None) w' /\
    contents (heap w') caller_slice = [IInt 0].
Proof.
  assert (Hwf : wf seek_world).
  { unfold wf, valid_slice. simpl. lia. }
  assert (Hap : apart caller_slice seek_world).
  { unfold apart, valid_slice. simpl. lia. }
  split; [exact Hwf|]. split; [exact Hap|]. split; [reflexivity|].
  destruct (SeekTo_overwrites_final_index double seek_world caller_slice 1
              Hwf Hap eq_refl) as (_ & Hafter).
  pose (r := SeekTo double caller_slice seek_world).
  assert (E : SeekTo double caller_slice seek_world = r) by reflexivity.
  vm_compute in r. subst r.
  eexists. split; [exact E|]. rewrite (Hafter _ _ E). reflexivity.
Defined.

Lemma Path_snapshot_independent_witness :
  wf at_index /\
  exists p w1,
    Path at_index = Ok p w1 /\
    contents (heap w1) p = [IInt 0] /\
    forall w2,
      run_calls decode_tokens double
        [CToken; CDecode collect; CSeekTo_args [IInt 5];
         CScan 9 decode_any_index] w1
      = Ok tt w2 ->
      contents (heap w2) p = [IInt 0].
Proof.
  assert (Hwf : wf at_index).
  { unfold wf, valid_slice. simpl. lia. }
  split; [exact Hwf|].
  exists (Slice 2 0 1 1), (after_Path at_index).
  destruct (Path_snapshot_independent decode_tokens double at_index
              (Slice 2 0 1 1) (after_Path at_index) Hwf eq_refl)
    as (Hcopy & _ & Hcalls & _).
  split; [reflexivity|]. split; [exact Hcopy|].
  intros w2 Hrun.
  apply (Hcalls [CToken; CDecode collect; CSeekTo_args [IInt 5];
                  CScan 9 decode_any_index] w2);
    [|exact Hrun].
  repeat (constructor; [exact I|]).
  constructor; [|constructor]. simpl.
  intros rel node act Hn Ha.
  destruct rel as [|[] [|]]; try discriminate Hn.
  injection Hn as <-. injection Ha as <-. apply keeps_Decode.
Defined.

Lemma end_of_stream_results_witness :
  SeekTo double caller_slice (set_src [] seek_world)
  = Ok (false, None) (seek_entry caller_slice (set_src [] seek_world)) /\
  scan_loop double 1 no_actions nil_slice false (NewDecoder [] tt)
  = Ok (false, Some EOF) (NewDecoder [] tt).
Proof.
  destruct (end_of_stream_results (U := unit) double) as (_ & Hseek & Hscan).
  split.
  - rewrite (SeekTo_unfold double caller_slice (set_src [] seek_world));
      [|discriminate].
    apply (Hseek 0 caller_slice _ INil); reflexivity.
  - apply (Hscan 0 no_actions nil_slice false _ INil). reflexivity.
Defined.

(** C1 as it is stated fails for [Scan]: on an input that has ended,
    [Scan] returns [io.EOF] as its error. *)
Lemma Scan_returns_EOF :
  Scan double 1 no_actions (NewDecoder [] tt)
  = Ok (false, Some EOF) (after_Path (NewDecoder [] tt)) /\
  ~ (exists b w', Scan double 1 no_actions (NewDecoder [] tt) = Ok (b, None) w').
Proof.
  assert (E : Scan double 1 no_actions (NewDecoder [] tt)
              = Ok (false, Some EOF) (after_Path (NewDecoder [] tt)))
    by reflexivity.
  split; [exact E|]. intros (b & w' & H). rewrite E in H. discriminate H.
Qed.

Lemma Scan_root_and_stop_witness :
  wf (NewDecoder [arr_open; num 1; arr_close] tt) /\
  exists rootPath w0,
    Scan double 9 no_actions (NewDecoder [arr_open; num 1; arr_close] tt)
    = scan_loop double 9 no_actions rootPath false w0 /\
    contents (heap w0) rootPath = [] /\
    s_len rootPath = 0.
Proof.
  assert (Hwf : wf (NewDecoder [arr_open; num 1; arr_close] tt)).
  { unfold wf, valid_slice. simpl. lia. }
  split; [exact Hwf|].
  destruct (Scan_root_and_stop (U := unit) double) as (Hroot & _).
  destruct (Hroot 9 no_actions _ [] Hwf) as (rootPath & w0 & Hrun & Hc & Hl & _).
  - left. split; reflexivity.
  - exists rootPath, w0. split_and!; [exact Hrun | exact Hc | exact Hl].
Defined.


Lemma Equal_same_elements_witness :
  valid_slice (heap seek_world) caller_slice /\
  Forall (fun x => is_segment x = true) (contents (heap seek_world) caller_slice) /\
  exists b, Equal caller_slice caller_slice seek_world = Ok b seek_world /\
            b = true.
Proof.
  assert (Hv : valid_slice (heap seek_world) caller_slice).
  { unfold valid_slice. simpl. lia. }
  assert (Hseg : Forall (fun x => is_segment x = true)
                   (contents (heap seek_world) caller_slice)).
  { constructor; [reflexivity | constructor]. }
  split; [exact Hv|]. split; [exact Hseg|].
  destruct (Equal_same_elements seek_world caller_slice caller_slice Hv Hv
              (or_introl Hseg))
    as (b & Hrun & Hiff).
  exists b. split; [exact Hrun|]. apply Hiff. reflexivity.
Defined.

Lemma incTop_top_index_witness :
  valid_slice (heap at_index) (path at_index) /\
  exists h',
    incTop (path at_index) at_index = Ok tt (set_heap h' at_index) /\
    contents h' (path at_index) = [] ++ [IInt (int_wrap (0 + 1))].
Proof.
  assert (Hv : valid_slice (heap at_index) (path at_index)).
  { unfold valid_slice. simpl. lia. }
  split; [exact Hv|].
  destruct (incTop_top_index at_index (path at_index) Hv) as (Hinc & _).
  destruct (Hinc [] 0%Z eq_refl) as (h' & Hrun & Hc & _).
  exists h'. split; [exact Hrun | exact Hc].
Defined.

Lemma nameTop_top_key_witness :
  valid_slice (heap at_key) (path at_key) /\
  exists h',
    nameTop (path at_key) "a" at_key = Ok tt (set_heap h' at_key) /\
    contents h' (path at_key) = [] ++ [IString "a"].
Proof.
  assert (Hv : valid_slice (heap at_key) (path at_key)).
  { unfold valid_slice. simpl. lia. }
  split; [exact Hv|].
  destruct (nameTop_top_key at_key (path at_key) "a" Hv) as (Hname & _).
  destruct (Hname [] (IString "") eq_refl) as (h' & Hrun & Hc & _).
  exists h'. split; [exact Hrun | exact Hc].
Defined.

Lemma inferContext_cases_witness :
  valid_slice (heap at_index) (path at_index) /\
  inferContext (path at_index) at_index = Ok arrValue at_index.
Proof.
  assert (Hv : valid_slice (heap at_index) (path at_index)).
  { unfold valid_slice. simpl. lia. }
  split; [exact Hv|].
  destruct (inferContext_cases at_index (path at_index) Hv) as (_ & _ & Hint & _).
  apply (Hint [] 0%Z). reflexivity.
Defined.

Lemma push_pop_round_trip_witness :
  wf at_index /\
  exists w1 w2,
    d_path_push double (IString "") at_index = Ok tt w1 /\
    cur w1 = [IInt 0; IString ""] /\
    d_path_pop w1 = Ok tt w2 /\ cur w2 = [IInt 0].
Proof.
  assert (Hwf : wf at_index).
  { unfold wf, valid_slice. simpl. lia. }
  split; [exact Hwf|].
  destruct (push_pop_round_trip double at_index (IString "") Hwf)
    as ((w1 & w2 & Hpush & Hc1 & Hpop & Hc2 & _) & _).
  exists w1, w2. split_and!; [exact Hpush | exact Hc1 | exact Hpop | exact Hc2].
Defined.

Lemma Token_value_token_witness :
  wf at_index /\ value_token (context at_index) (IFloat64 7) = true /\
  exists w',
    Token double at_index = Ok (IFloat64 7, None) w' /\
    src w' = [arr_close] /\
    cur w' = [] ++ [IInt (int_wrap (0 + 1))] /\ context w' = arrValue.
Proof.
  assert (Hwf : wf at_index).
  { unfold wf, valid_slice. simpl. lia. }
  split; [exact Hwf|]. split; [reflexivity|].
  destruct (Token_value_token double at_index (IFloat64 7) [arr_close]
              Hwf eq_refl eq_refl) as (_ & Harr & _).
  exact (Harr [] 0%Z eq_refl eq_refl).
Defined.

Lemma methods_keep_sound_witness :
  exists w' : World unit,
    Token double (NewDecoder [obj_open] tt) = Ok (IDelim lbrace, None) w' /\
    sound w'.
Proof.
  destruct (methods_keep_sound (U := unit) decode_tokens double)
    as (Hnew & Htok & _).
  pose (r := Token double (NewDecoder [obj_open] tt)).
  assert (E : Token double (NewDecoder [obj_open] tt) = r) by reflexivity.
  vm_compute in r. subst r.
  eexists. split; [exact E|].
  exact (Htok _ _ _ (Hnew [obj_open] tt) E).
Defined.

Lemma Token_panics_only_on_unopened_close_witness :
  sound (NewDecoder [arr_close] tt) /\
  exists msg, Token double (NewDecoder [arr_close] tt) = Panic msg.
Proof.
  assert (Hs : sound (NewDecoder [arr_close] tt)).
  { unfold sound, wf, valid_slice, tracked. simpl.
    split_and!; [lia | lia | lia | reflexivity | constructor]. }
  split; [exact Hs|].
  destruct (Token_panics_only_on_unopened_close double (NewDecoder [arr_close] tt)
              (IDelim rbrack) [] Hs eq_refl) as (Hpanic & _).
  apply Hpanic. split; reflexivity.
Defined.

Lemma path_length_is_depth_witness :
  wf (NewDecoder [arr_open; num 1; arr_close] tt) /\
  exists w' : World unit,
    after_tokens double 2 (NewDecoder [arr_open; num 1; arr_close] tt) = Some w' /\
    length (cur w') + count closing [IDelim lbrack; IFloat64 1]
    = length (cur (NewDecoder [arr_open; num 1; arr_close] tt))
      + count opening [IDelim lbrack; IFloat64 1].
Proof.
  assert (Hwf : wf (NewDecoder [arr_open; num 1; arr_close] tt)).
  { unfold wf, valid_slice. simpl. lia. }
  split; [exact Hwf|].
  pose (r := after_tokens double 2 (NewDecoder [arr_open; num 1; arr_close] tt)).
  assert (E : after_tokens double 2 (NewDecoder [arr_open; num 1; arr_close] tt)
              = r) by reflexivity.
  vm_compute in r. subst r.
  eexists. split; [exact E|].
  exact (path_length_is_depth double [IDelim lbrack; IFloat64 1]
           (NewDecoder [arr_open; num 1; arr_close] tt) [arr_close] _
           Hwf eq_refl E).
Defined.

Lemma Decode_on_sound_witness :
  sound at_index /\
  exists w',
    Decode decode_tokens collect at_index = Ok None w' /\
    cur w' = [IInt 1] /\ src w' = [arr_close] /\ user w' = [[IFloat64 7]].
Proof.
  assert (Hs : sound at_index).
  { unfold sound, wf, valid_slice, tracked. simpl.
    split_and!; [lia | lia | lia | by exists [], 0%Z | by repeat constructor]. }
  split; [exact Hs|].
  destruct (Decode_on_sound decode_tokens at_index collect Hs)
    as (c' & l' & w' & Hav & Hrun & _ & Hl & _ & Hsrc & Hu & _).
  vm_compute in Hav. injection Hav as _ <-.
  exists w'. split_and!; [exact Hrun | exact Hl | exact Hsrc | exact Hu].
Defined.

Lemma Token_whole_value_witness :
  wf (NewDecoder [arr_open; num 1; arr_close; num 2] tt) /\
  value_toks [IDelim lbrack; IFloat64 1; IDelim rbrack] /\
  exists w' w0 : World unit,
    after_tokens double 3 (NewDecoder [arr_open; num 1; arr_close; num 2] tt)
    = Some w' /\
    src w' = [num 2] /\
    context w' = context w0 /\ cur w' = cur w0.
Proof.
  assert (Hwf : wf (NewDecoder [arr_open; num 1; arr_close; num 2] tt)).
  { unfold wf, valid_slice. simpl. lia. }
  assert (Hv : value_toks [IDelim lbrack; IFloat64 1; IDelim rbrack]).
  { exact (vt_array _ (et_cons [IFloat64 1] [] (vt_scalar (IFloat64 1) eq_refl)
                         et_nil)). }
  split; [exact Hwf|]. split; [exact Hv|].
  destruct (Token_whole_value decode_tokens double
              (NewDecoder [arr_open; num 1; arr_close; num 2] tt)
              [IDelim lbrack; IFloat64 1; IDelim rbrack] [num 2]
              (fun _ u => u) Hwf eq_refl)
    as (w' & w0 & Hrun & Hsrc & _ & _ & Hc & Hl & _).
  - intros Hc. discriminate Hc.
  - exact Hv.
  - reflexivity.
  - exists w', w0. split_and!; [exact Hrun | exact Hsrc | exact Hc | exact Hl].
Defined.

Lemma Scan_skips_value_witness :
  wf (NewDecoder [arr_open; num 1; arr_close; num 2] tt) /\
  silent no_actions /\
  exists w' : World unit,
    Scan double (2 * 3 + 0) no_actions
      (NewDecoder [arr_open; num 1; arr_close; num 2] tt)
    = Ok (false, None) w' /\
    src w' = [num 2].
Proof.
  assert (Hwf : wf (NewDecoder [arr_open; num 1; arr_close; num 2] tt)).
  { unfold wf, valid_slice. simpl. lia. }
  assert (Hsil : silent no_actions).
  { intros rel node Hn. discriminate Hn. }
  split; [exact Hwf|]. split; [exact Hsil|].
  destruct (Scan_skips_value decode_tokens double
              (NewDecoder [arr_open; num 1; arr_close; num 2] tt)
              [IDelim lbrack; IFloat64 1; IDelim rbrack] [num 2]
              no_actions 0 (fun _ u => u) Hwf eq_refl)
    as (w' & w0 & Hrun & Hsrc & _).
  - intros Hc. discriminate Hc.
  - exact (vt_array _ (et_cons [IFloat64 1] [] (vt_scalar (IFloat64 1) eq_refl)
                         et_nil)).
  - reflexivity.
  - exact Hsil.
  - exists w'. split; [exact Hrun | exact Hsrc].
Defined.

Lemma Scan_ignores_action_results_witness :
  same_actions decode_and_fail decode_any_index /\
  observe (Scan double 6 decode_and_fail
             (NewDecoder [arr_open; num 1; num 2; num 3; arr_close] []))
  = Some ((true, None), [], none, [],
          [[IFloat64 1]; [IFloat64 2]; [IFloat64 3]]).
Proof.
  assert (Hsame : same_actions decode_and_fail decode_any_index).
  { intros rel. destruct rel as [|[] [|]]; try exact I.
    intros w. unfold applicable. simpl. unfold bind.
    destruct (Decode decode_tokens collect w); reflexivity. }
  split; [exact Hsame|].
  rewrite (Scan_ignores_action_results double 6 decode_and_fail
             decode_any_index _ Hsame).
  reflexivity.
Defined.

Lemma SeekTo_key_target_witness :
  wf key_world /\ apart caller_slice key_world /\
  last (contents (heap key_world) caller_slice) = Some (IString "a") /\
  exists w',
    SeekTo double caller_slice key_world = Ok (true, None) w' /\
    cur w' = [IString "a"] /\
    contents (heap w') caller_slice = [IString "a"].
Proof.
  assert (Hwf : wf key_world).
  { unfold wf, valid_slice. simpl. lia. }
  assert (Hap : apart caller_slice key_world).
  { unfold apart, valid_slice. simpl. lia. }
  split; [exact Hwf|]. split; [exact Hap|]. split; [reflexivity|].
  destruct (SeekTo_key_target double key_world caller_slice (IString "a")
              Hwf Hap eq_refl) as (Hiff & Hkeep).
  { intros i Hi. discriminate Hi. }
  pose (r := SeekTo double caller_slice key_world).
  assert (E : SeekTo double caller_slice key_world = r) by reflexivity.
  vm_compute in r. subst r.
  destruct (proj1 (Hiff _) E) as (k & _ & Hcur & _).
  eexists. split_and!; [exact E | exact Hcur |].
  rewrite (Hkeep _ _ E). reflexivity.
Defined.

Lemma SeekTo_not_found_exhausts_witness :
  wf (set_src [obj_open; str "b"; num 1; obj_close] key_world) /\
  Forall (fun ev => is_tok ev = true) [obj_open; str "b"; num 1; obj_close] /\
  exists w',
    SeekTo double caller_slice
      (set_src [obj_open; str "b"; num 1; obj_close] key_world)
    = Ok (false, None) w' /\
    src w' = [].
Proof.
  assert (Hwf : wf (set_src [obj_open; str "b"; num 1; obj_close] key_world)).
  { unfold wf, valid_slice. simpl. lia. }
  assert (HF : Forall (fun ev => is_tok ev = true)
                 [obj_open; str "b"; num 1; obj_close]).
  { repeat (constructor; [reflexivity|]). constructor. }
  split; [exact Hwf|]. split; [exact HF|].
  pose (r := SeekTo double caller_slice
               (set_src [obj_open; str "b"; num 1; obj_close] key_world)).
  assert (E : SeekTo double caller_slice
                (set_src [obj_open; str "b"; num 1; obj_close] key_world) = r)
    by reflexivity.
  vm_compute in r. subst r.
  assert (Hnz : s_len caller_slice <> 0) by (simpl; lia).
  destruct (SeekTo_not_found_exhausts double _ caller_slice false None _
              Hwf Hnz HF E) as (_ & Hsrc).
  eexists. split; [exact E | exact (Hsrc eq_refl)].
Defined.

Lemma SeekTo_then_Decode_witness :
  sound seek_world /\ apart caller_slice seek_world /\
  last (contents (heap seek_world) caller_slice) = Some (IInt 1) /\
  (int_min <= 1 <= int_max)%Z /\
  exists w1 w2 : World unit,
    SeekTo double caller_slice seek_world = Ok (true, None) w1 /\
    Decode decode_tokens (fun _ u => u) w1 = Ok None w2 /\
    src w2 = [num 30; arr_close] /\
    cur w2 = [IInt 1].
Proof.
  assert (Hs : sound seek_world).
  { unfold sound, wf, valid_slice, tracked. simpl.
    split_and!; [lia | lia | lia | reflexivity | constructor]. }
  assert (Hap : apart caller_slice seek_world).
  { unfold apart, valid_slice. simpl. lia. }
  assert (Hi : (int_min <= 1 <= int_max)%Z).
  { unfold int_min, int_max. lia. }
  split; [exact Hs|]. split; [exact Hap|]. split; [reflexivity|].
  split; [exact Hi|].
  pose (r := SeekTo double caller_slice seek_world).
  assert (E : SeekTo double caller_slice seek_world = r) by reflexivity.
  vm_compute in r. subst r.
  destruct (SeekTo_then_Decode decode_tokens double seek_world caller_slice 1 _
              (fun _ u => u) Hs Hap eq_refl Hi E)
    as (w2 & Hrun & Hsrc & _ & Hcur).
  eexists. exists w2. split_and!; [exact E | exact Hrun | exact Hsrc | exact Hcur].
Defined.

Lemma Token_error_leaves_position_witness :
  wf (set_src [EvErr (ErrOther "unexpected end") false] at_index) /\
  exists w',
    Token double (set_src [EvErr (ErrOther "unexpected end") false] at_index)
    = Ok (INil, Some (ErrOther "unexpected end")) w' /\
    cur w' = [IInt 0] /\ context w' = arrValue.
Proof.
  assert (Hwf : wf (set_src [EvErr (ErrOther "unexpected end") false] at_index)).
  { unfold wf, valid_slice. simpl. lia. }
  split; [exact Hwf|].
  pose (r := Token double
               (set_src [EvErr (ErrOther "unexpected end") false] at_index)).
  assert (E : Token double
                (set_src [EvErr (ErrOther "unexpected end") false] at_index) = r)
    by reflexivity.
  vm_compute in r. subst r.
  eexists. split; [exact E|].
  destruct (Token_error_leaves_position double _ INil
              (ErrOther "unexpected end") _ Hwf E) as (Hcur & Hc & _).
  split; [exact Hcur | exact Hc].
Defined.


(** C9 as it is stated fails: a [SeekTo] that is handed the slice
    [Path] returned writes to it. *)
Lemma Path_snapshot_written_by_SeekTo :
  exists p w1 r w2,
    Path at_index = Ok p w1 /\
    contents (heap w1) p = [IInt 0] /\
    SeekTo double p w1 = Ok r w2 /\
    contents (heap w2) p = [IInt (-1)] /\
    contents (heap w2) p <> contents (heap w1) p.
Proof.
  exists (Slice 2 0 1 1), (after_Path at_index).
  pose (o := SeekTo double (Slice 2 0 1 1) (after_Path at_index)).
  assert (E : SeekTo double (Slice 2 0 1 1) (after_Path at_index) = o)
    by reflexivity.
  vm_compute in o. subst o.
  eexists. eexists.
  split; [reflexivity|]. split; [reflexivity|]. split; [exact E|].
  split; [reflexivity|]. intros H. discriminate H.
Qed.
